(** * murjs: the virtual-DOM differ, the patcher's attribute surface and the
    reactive store, embedded from [src/vdom.js], [src/render.js] (and its
    namespace-aware successor) and [reactive.js]. *)

From stdpp Require Import gmap strings list.

Open Scope string_scope.

(** ** JavaScript values

    Attribute values, keys and store contents are JavaScript values.  Objects
    and functions are compared by identity, so they are represented by their
    reference; numbers are the integers plus [NaN], the one value that is not
    strictly equal to itself.  [VProto name] is what [Object.prototype] holds
    under [name], which every plain object inherits: a built-in function, or
    for ["__proto__"] the prototype itself. *)

Inductive value :=
| VUndefined
| VNull
| VBool (b : bool)
| VNum (n : Z)
| VNaN
| VStr (s : string)
| VObj (ref : nat)
| VFun (ref : nat)
| VProto (name : string).

Global Instance value_eq_dec : EqDecision value.
Proof. solve_decision. Defined.

Global Instance value_countable : Countable value.
Proof.
  refine (inj_countable'
    (fun v => match v with
              | VUndefined => inl (inl 0%nat)
              | VNull => inl (inl 1%nat)
              | VNaN => inl (inl 2%nat)
              | VBool b => inl (inr b)
              | VNum n => inr (inl n)
              | VStr s => inr (inr (inl s))
              | VObj r => inr (inr (inr (inl r)))
              | VFun r => inr (inr (inr (inr (inl r))))
              | VProto n => inr (inr (inr (inr (inr n))))
              end)
    (fun c => match c with
              | inl (inl 0%nat) => VUndefined
              | inl (inl 1%nat) => VNull
              | inl (inl _) => VNaN
              | inl (inr b) => VBool b
              | inr (inl n) => VNum n
              | inr (inr (inl s)) => VStr s
              | inr (inr (inr (inl r))) => VObj r
              | inr (inr (inr (inr (inl r)))) => VFun r
              | inr (inr (inr (inr (inr n)))) => VProto n
              end) _).
  by intros [].
Defined.

(** [a === b]. *)
Definition strict_eq (a b : value) : bool :=
  match a, b with
  | VNaN, _ | _, VNaN => false
  | _, _ => bool_decide (a = b)
  end.

(** [a !== b]. *)
Definition strict_neq (a b : value) : bool := negb (strict_eq a b).

(** [v != null]: neither [null] nor [undefined]. *)
Definition not_nullish (v : value) : bool :=
  match v with
  | VUndefined | VNull => false
  | _ => true
  end.

(** [typeof v === 'object'] (which holds of [null] too).  Of what
    [Object.prototype] holds, only the prototype itself is no function. *)
Definition typeof_object (v : value) : bool :=
  match v with
  | VNull | VObj _ => true
  | VProto name => String.eqb name "__proto__"
  | _ => false
  end.

(** ** Plain objects used as attribute mappings

    A props object is a plain object, as an object literal makes it: the
    list of its own enumerable properties in [for-in] order, on top of
    [Object.prototype].  The properties of the prototype are not enumerable,
    so [for-in] and [Object.keys] pass them over, but [key in o] and [o[key]]
    find them. *)

Definition object := list (string * value).

(** The names of the properties of [Object.prototype]. *)
Definition objectPrototype : list string :=
  ["constructor"; "hasOwnProperty"; "isPrototypeOf"; "propertyIsEnumerable";
   "toLocaleString"; "toString"; "valueOf"; "__proto__";
   "__defineGetter__"; "__defineSetter__"; "__lookupGetter__"; "__lookupSetter__"].

(** [Object.prototype[key]] *)
Definition inherited (key : string) : value :=
  if bool_decide (key ∈ objectPrototype) then VProto key else VUndefined.

(** [Object.keys(o)], the order in which [for (const key in o)] runs. *)
Definition keys (o : object) : list string := o.*1.

Fixpoint own (o : object) (key : string) : option value :=
  match o with
  | [] => None
  | (k, v) :: o' => if String.eqb k key then Some v else own o' key
  end.

(** [o[key]]: an own property, else what the prototype holds, else
    [undefined]. *)
Definition get (o : object) (key : string) : value :=
  default (inherited key) (own o key).

(** [key in o]: an own property or one of the prototype. *)
Definition has (o : object) (key : string) : bool :=
  match own o key with
  | Some _ => true
  | None => bool_decide (key ∈ objectPrototype)
  end.

Module Vdom.

(** ** Virtual nodes ([h], [createTextVNode]) *)

#[local] Unset Elimination Schemes.

Inductive VNode := mkVNode {
  type : string;
  props : object;
  children : list VNode;
  text : option string
}.

#[local] Set Elimination Schemes.

Definition createTextVNode (t : string) : VNode :=
  mkVNode "TEXT" [] [] (Some t).

(** [h(type, props, ...children)] over children that are already flat: a
    child is a vnode or a primitive, which becomes a text vnode. *)
Definition h (ty : string) (ps : object) (cs : list (VNode + string)) : VNode :=
  mkVNode ty ps
    (map (fun child => match child with inl v => v | inr s => createTextVNode s end) cs)
    None.

(** ** Patches *)

Inductive PropPatch :=
| SET_PROP (key : string) (v : value)
| REMOVE_PROP (key : string).

Inductive Patch :=
| CREATE (vnode : option VNode)
| REMOVE
| REPLACE (vnode : VNode)
| TEXT (t : option string)
| UPDATE (propPatches : list PropPatch) (childPatches : ChildPatches)
with ChildPatches :=
| mkChildPatches (keyed : bool) (patches : list ChildPatch)
with ChildPatch :=
| Positional (patch : option Patch)
| Keyed (oldIndex : option nat) (newIndex : option nat) (key : value)
        (patch : option Patch).

Definition keyed (cp : ChildPatches) : bool :=
  match cp with mkChildPatches k _ => k end.

Definition patches (cp : ChildPatches) : list ChildPatch :=
  match cp with mkChildPatches _ ps => ps end.

(** ** [diffProps] *)

Definition diffProps (oldProps newProps : object) : list PropPatch :=
  omap (fun key =>
          if strict_neq (get oldProps key) (get newProps key)
          then Some (SET_PROP key (get newProps key)) else None)
       (keys newProps)
  ++ omap (fun key =>
          if negb (has newProps key) then Some (REMOVE_PROP key) else None)
       (keys oldProps).

(** ** [diffChildren] and [diff]

    [diffChildren] warns once per page load about sibling lists with mixed or
    missing keys; the two module-level flags and the console are the state
    threaded through the differ. *)

Record Console := mkConsole {
  warnedMixedKeys : bool;
  warnedNoKeys : bool;
  warnings : list string
}.

Definition console0 : Console := mkConsole false false [].

Definition msgMixedKeys : string :=
  "murjs: Mixed keyed and unkeyed children. All siblings should have keys.".
Definition quote : string := String (Ascii.ascii_of_nat 34) EmptyString.
Definition msgNoKeys : string :=
  "murjs: List rendered without keys. Add " ++ quote ++ "key" ++ quote
  ++ " prop for better performance.".

(** [c?.props?.key] *)
Definition keyOf (c : VNode) : value := get (props c) "key".

Definition keyedCount (newChildren : list VNode) : nat :=
  length (filter (fun c => not_nullish (keyOf c) = true) newChildren).

Definition hasKeys (newChildren : list VNode) : bool :=
  bool_decide (0 < keyedCount newChildren).

Definition allKeyed (newChildren : list VNode) : bool :=
  bool_decide (keyedCount newChildren = length newChildren).

Definition warnChildren (newChildren : list VNode) (w : Console) : Console :=
  if hasKeys newChildren && negb (allKeyed newChildren) && negb (warnedMixedKeys w)
  then mkConsole true (warnedNoKeys w) (warnings w ++ [msgMixedKeys])
  else if negb (hasKeys newChildren) && bool_decide (1 < length newChildren)
          && negb (warnedNoKeys w)
  then mkConsole (warnedMixedKeys w) true (warnings w ++ [msgNoKeys])
  else w.

(** [l.forEach((x, i) => out.push(f(x, i)))] for a callback with effects on
    the console; [i] is the index of the first element of [l]. *)
Fixpoint forEachIdx {A B : Type} (f : A -> nat -> Console -> B * Console)
    (l : list A) (i : nat) (w : Console) : list B * Console :=
  match l with
  | [] => ([], w)
  | x :: l' =>
      let '(b, w1) := f x i w in
      let '(bs, w2) := forEachIdx f l' (S i) w1 in
      (b :: bs, w2)
  end.

(** [oldKeyMap]: the [Map] from key to [{child, index}], filled by
    [oldChildren.forEach]; a later child with the same key overwrites an
    earlier one.  [Map] compares keys by SameValueZero, which on [value] is
    equality. *)
Fixpoint buildKeyMap (oldChildren : list VNode) (i : nat)
    (m : gmap value (VNode * nat)) : gmap value (VNode * nat) :=
  match oldChildren with
  | [] => m
  | child :: rest =>
      buildKeyMap rest (S i)
        (if not_nullish (keyOf child) then <[keyOf child := (child, i)]> m else m)
  end.

Definition oldKeyMap (oldChildren : list VNode) : gmap value (VNode * nat) :=
  buildKeyMap oldChildren 0 ∅.

(** [oldEntry]: [key != null ? oldKeyMap.get(key) : null] *)
Definition oldEntry (oldChildren : list VNode) (newChild : VNode)
    : option (VNode * nat) :=
  if not_nullish (keyOf newChild) then oldKeyMap oldChildren !! keyOf newChild
  else None.

(** [usedOldIndices], a [Set]: the indices of the old entries that the new
    children matched. *)
Definition usedOldIndices (oldChildren newChildren : list VNode) : gset nat :=
  list_to_set (omap (fun newChild => snd <$> oldEntry oldChildren newChild) newChildren).

(** The closing [oldChildren.forEach] of the keyed branch. *)
Definition removals (oldChildren : list VNode) (used : gset nat) : list ChildPatch :=
  omap (fun '(i, child) =>
          if bool_decide (i ∈ used) then None
          else Some (Keyed (Some i) None (keyOf child) (Some REMOVE)))
       (imap pair oldChildren).

(** [diff(oldVNode, newVNode)] for a present [newVNode], with [diffChildren]
    inlined so that the recursion descends into the new node.  Both arguments
    are objects, so the [typeof] comparison never fires.  The positional loop
    runs over the indices of the new children first; at the indices beyond
    them the new child is [undefined] and the patch is REMOVE. *)
Fixpoint diffNode (oldVNode : option VNode) (newVNode : VNode) (w : Console)
    {struct newVNode} : option Patch * Console :=
  match oldVNode with
  | None => (Some (CREATE (Some newVNode)), w)
  | Some old =>
      if negb (String.eqb (type old) (type newVNode))
      then (Some (REPLACE newVNode), w)
      else if String.eqb (type old) "TEXT" then
        (if bool_decide (text old = text newVNode) then None
         else Some (TEXT (text newVNode)), w)
      else
        let propPatches := diffProps (props old) (props newVNode) in
        let oldChildren := children old in
        let newChildren := children newVNode in
        let w1 := warnChildren newChildren w in
        let '(childPatches, w2) :=
          if negb (allKeyed newChildren) then
            let '(ps, w') :=
              forEachIdx (fun newChild i w =>
                            let '(p, w') := diffNode (oldChildren !! i) newChild w in
                            (Positional p, w'))
                         newChildren 0%nat w1 in
            (mkChildPatches false
               (ps ++ map (fun _ => Positional (Some REMOVE))
                          (drop (length newChildren) oldChildren)), w')
          else
            let '(ps, w') :=
              forEachIdx (fun newChild newIndex w =>
                            match oldEntry oldChildren newChild with
                            | Some (child, index) =>
                                let '(p, w') := diffNode (Some child) newChild w in
                                (Keyed (Some index) (Some newIndex) (keyOf newChild) p, w')
                            | None =>
                                (Keyed None (Some newIndex) (keyOf newChild)
                                       (Some (CREATE (Some newChild))), w)
                            end)
                         newChildren 0%nat w1 in
            (mkChildPatches true
               (ps ++ removals oldChildren (usedOldIndices oldChildren newChildren)), w')
        in
        if bool_decide (0 < length propPatches)
           || bool_decide (0 < length (patches childPatches))
        then (Some (UPDATE propPatches childPatches), w2)
        else (None, w2)
  end.

(** [diff(oldVNode, newVNode)], either side possibly absent. *)
Definition diffW (oldVNode newVNode : option VNode) (w : Console)
    : option Patch * Console :=
  match oldVNode, newVNode with
  | None, _ => (Some (CREATE newVNode), w)
  | Some _, None => (Some REMOVE, w)
  | Some _, Some n => diffNode oldVNode n w
  end.

(** The patch that [diff] returns on a fresh page. *)
Definition diff (oldVNode newVNode : option VNode) : option Patch :=
  (diffW oldVNode newVNode console0).1.

(** The record that the keyed branch pushes for [newChild]. *)
Definition keyedEntry (oldChildren : list VNode) (newIndex : nat)
    (newChild : VNode) : ChildPatch :=
  match oldEntry oldChildren newChild with
  | Some (child, index) =>
      Keyed (Some index) (Some newIndex) (keyOf newChild)
            (diff (Some child) (Some newChild))
  | None =>
      Keyed None (Some newIndex) (keyOf newChild) (Some (CREATE (Some newChild)))
  end.

(** [diffChildren(oldChildren, newChildren)] as the source writes it, over
    [diff]; [diff_unfold] below shows that this is what [diff] runs. *)
Definition diffChildren (oldChildren newChildren : list VNode) : ChildPatches :=
  if negb (allKeyed newChildren) then
    let maxLength := max (length oldChildren) (length newChildren) in
    mkChildPatches false
      (map (fun i => Positional (diff (oldChildren !! i) (newChildren !! i)))
           (seq 0 maxLength))
  else
    mkChildPatches true
      (imap (keyedEntry oldChildren) newChildren
       ++ removals oldChildren (usedOldIndices oldChildren newChildren)).

(** [diff] on two present nodes, as the source writes it. *)
Definition diffPresent (oldVNode newVNode : VNode) : option Patch :=
  if negb (String.eqb (type oldVNode) (type newVNode))
  then Some (REPLACE newVNode)
  else if String.eqb (type oldVNode) "TEXT" then
    if bool_decide (text oldVNode = text newVNode) then None
    else Some (TEXT (text newVNode))
  else
    let propPatches := diffProps (props oldVNode) (props newVNode) in
    let childPatches := diffChildren (children oldVNode) (children newVNode) in
    if bool_decide (0 < length propPatches)
       || bool_decide (0 < length (patches childPatches))
    then Some (UPDATE propPatches childPatches)
    else None.

(** [p.oldIndex] *)
Definition oldIndex (p : ChildPatch) : option nat :=
  match p with
  | Positional _ => None
  | Keyed i _ _ _ => i
  end.

(** ** Structural recursion on virtual nodes *)

Fixpoint VNode_ind (P : VNode -> Prop)
    (IH : forall ty ps cs tx, Forall P cs -> P (mkVNode ty ps cs tx))
    (v : VNode) : P v :=
  match v with
  | mkVNode ty ps cs tx =>
      IH ty ps cs tx
         ((fix go (l : list VNode) : Forall P l :=
             match l with
             | [] => @List.Forall_nil _ P
             | c :: l' => @List.Forall_cons _ P c l' (VNode_ind P IH c) (go l')
             end) cs)
  end.

End Vdom.

(** ** The live tree

    What the patcher can write on an element: its attributes (with and
    without namespace), the [className], [style] and [value] properties, and
    its event listeners. *)

Module Dom.

Record Element := mkElement {
  tagName : string;
  namespaceURI : option string;
  attributes : gmap string value;
  attributesNS : gmap (string * string) value;
  className : value;
  style : list value;
  elValue : value;
  listeners : list (string * value)
}.

(** [document.createElementNS(ns, type)]; [document.createElement(type)] is
    the case without namespace. *)
Definition newElement (ns : option string) (ty : string) : Element :=
  mkElement ty ns ∅ ∅ (VStr "") [] (VStr "") [].

Definition setAttribute (el : Element) (name : string) (v : value) : Element :=
  mkElement (tagName el) (namespaceURI el) (<[name := v]> (attributes el))
    (attributesNS el) (className el) (style el) (elValue el) (listeners el).

Definition removeAttribute (el : Element) (name : string) : Element :=
  mkElement (tagName el) (namespaceURI el) (delete name (attributes el))
    (attributesNS el) (className el) (style el) (elValue el) (listeners el).

Definition setAttributeNS (el : Element) (ns name : string) (v : value) : Element :=
  mkElement (tagName el) (namespaceURI el) (attributes el)
    (<[(ns, name) := v]> (attributesNS el)) (className el) (style el)
    (elValue el) (listeners el).

Definition setClassName (el : Element) (v : value) : Element :=
  mkElement (tagName el) (namespaceURI el) (attributes el) (attributesNS el)
    v (style el) (elValue el) (listeners el).

(** [Object.assign(el.style, v)]: the assigned objects, oldest first. *)
Definition assignStyle (el : Element) (v : value) : Element :=
  mkElement (tagName el) (namespaceURI el) (attributes el) (attributesNS el)
    (className el) (style el ++ [v]) (elValue el) (listeners el).

Definition setValue (el : Element) (v : value) : Element :=
  mkElement (tagName el) (namespaceURI el) (attributes el) (attributesNS el)
    (className el) (style el) v (listeners el).

(** [addEventListener] ignores a listener that is already registered for
    the event. *)
Definition addEventListener (el : Element) (eventName : string) (v : value) : Element :=
  mkElement (tagName el) (namespaceURI el) (attributes el) (attributesNS el)
    (className el) (style el) (elValue el)
    (if bool_decide ((eventName, v) ∈ listeners el) then listeners el
     else listeners el ++ [(eventName, v)]).

Definition removeEventListener (el : Element) (eventName : string) (v : value) : Element :=
  mkElement (tagName el) (namespaceURI el) (attributes el) (attributesNS el)
    (className el) (style el) (elValue el)
    (filter (fun l => l ≠ (eventName, v)) (listeners el)).

(** A live element together with its entry in the module's [eventHandlers]
    weak map (empty when there is none yet). *)
Record Live := mkLive {
  elem : Element;
  handlers : gmap string value
}.

Definition onElem (f : Element -> Element) (l : Live) : Live :=
  mkLive (f (elem l)) (handlers l).

(** Truthiness of a value, as [if (handlers[key])] tests it. *)
Definition truthy (v : value) : bool :=
  match v with
  | VUndefined | VNull | VNaN | VBool false => false
  | VNum n => negb (Z.eqb n 0)
  | VStr s => negb (String.eqb s "")
  | _ => true
  end.

Definition lower (c : Ascii.ascii) : Ascii.ascii :=
  let n := Ascii.nat_of_ascii c in
  if (65 <=? n)%nat && (n <=? 90)%nat then Ascii.ascii_of_nat (n + 32) else c.

(** [s.toLowerCase()] on ASCII. *)
Fixpoint toLowerCase (s : string) : string :=
  match s with
  | EmptyString => EmptyString
  | String c s' => String (lower c) (toLowerCase s')
  end.

(** [key.slice(2).toLowerCase()] *)
Definition eventNameOf (key : string) : string :=
  toLowerCase (String.substring 2 (String.length key - 2) key).

(** The [on...] branch shared by both versions of [setProp]. *)
Definition setHandler (l : Live) (key : string) (v : value) : Live :=
  let eventName := eventNameOf key in
  let l1 :=
    match handlers l !! key with
    | Some old => if truthy old then onElem (fun e => removeEventListener e eventName old) l
                  else l
    | None => l
    end in
  mkLive (addEventListener (elem l1) eventName v) (<[key := v]> (handlers l1)).

(** [removeProp(el, key)], the same in both versions. *)
Definition removeProp (l : Live) (key : string) : Live :=
  if String.prefix "on" key then
    match handlers l !! key with
    | Some old =>
        if truthy old
        then mkLive (removeEventListener (elem l) (eventNameOf key) old)
                    (delete key (handlers l))
        else l
    | None => l
    end
  else if String.eqb key "className" then onElem (fun e => setClassName e (VStr "")) l
  else onElem (fun e => removeAttribute e key) l.

(** A live tree: text nodes and elements with their handler tables. *)
#[local] Unset Elimination Schemes.

Inductive Tree :=
| Text (data : option string)
| Elem (l : Live) (childNodes : list Tree).

#[local] Set Elimination Schemes.

(** The elements of a live tree. *)
Fixpoint elements (t : Tree) : list Live :=
  match t with
  | Text _ => []
  | Elem l cs => l :: flat_map elements cs
  end.

(** Nothing that an element holds under the name ["key"] differs between
    [l] and [l']: plain attribute, namespaced attribute, handler table. *)
Definition sameKey (l l' : Live) : Prop :=
  attributes (elem l') !! "key" = attributes (elem l) !! "key"
  /\ (forall ns, attributesNS (elem l') !! (ns, "key") = attributesNS (elem l) !! (ns, "key"))
  /\ handlers l' !! "key" = handlers l !! "key".

(** The element holds nothing under the name ["key"]. *)
Definition noKey (l : Live) : Prop :=
  attributes (elem l) !! "key" = None
  /\ (forall ns, attributesNS (elem l) !! (ns, "key") = None)
  /\ handlers l !! "key" = None.

End Dom.

(** ** [render.js] *)

Module Render.
Import Vdom Dom.

Definition setProp (el : Live) (key : string) (v : value) : Live :=
  if String.eqb key "key" then el
  else if String.prefix "on" key then setHandler el key v
  else if String.eqb key "className" then onElem (fun e => setClassName e v) el
  else if String.eqb key "style" && typeof_object v then onElem (fun e => assignStyle e v) el
  else if String.eqb key "value" then onElem (fun e => setValue e v) el
  else onElem (fun e => setAttribute e key v) el.

Definition setProps (el : Live) (ps : object) : Live :=
  foldl (fun el key => setProp el key (get ps key)) el (keys ps).

Fixpoint createElement (vnode : VNode) : Tree :=
  if String.eqb (type vnode) "TEXT" then Text (text vnode)
  else
    let el := mkLive (newElement None (type vnode)) ∅ in
    Elem (setProps el (props vnode)) (map createElement (children vnode)).

(** The [propPatches.forEach] of [patch]'s UPDATE branch. *)
Definition patchProps (el : Live) (propPatches : list PropPatch) : Live :=
  foldl (fun el propPatch =>
           match propPatch with
           | SET_PROP key v => setProp el key v
           | REMOVE_PROP key => removeProp el key
           end) el propPatches.

End Render.

(** ** The namespace-aware [render.js] (SVG and MathML) *)

Module RenderNs.
Import Vdom Dom.

Definition SVG_NS : string := "http://www.w3.org/2000/svg".
Definition MATHML_NS : string := "http://www.w3.org/1998/Math/MathML".
Definition XLINK_NS : string := "http://www.w3.org/1999/xlink".

(** A namespace argument is a string or [null]; only a non-empty string is
    truthy. *)
Definition nsTruthy (ns : option string) : bool :=
  match ns with
  | Some n => negb (String.eqb n "")
  | None => false
  end.

Definition getNamespace (ty : string) (parentNs : option string) : option string :=
  if String.eqb ty "svg" then Some SVG_NS
  else if String.eqb ty "math" then Some MATHML_NS
  else parentNs.

Definition getChildNamespace (ty : string) (elementNs : option string) : option string :=
  if String.eqb ty "foreignObject" then None else elementNs.

Definition setProp (el : Live) (key : string) (v : value) (ns : option string) : Live :=
  if String.eqb key "key" then el
  else if String.prefix "on" key then setHandler el key v
  else if String.eqb key "className" then
    if bool_decide (ns = Some SVG_NS) then onElem (fun e => setAttribute e "class" v) el
    else onElem (fun e => setClassName e v) el
  else if String.eqb key "style" && typeof_object v then onElem (fun e => assignStyle e v) el
  else if String.eqb key "value" && negb (nsTruthy ns) then onElem (fun e => setValue e v) el
  else if String.eqb key "xlinkHref" || String.eqb key "xlink:href" then
    onElem (fun e => setAttributeNS e XLINK_NS "xlink:href" v) el
  else onElem (fun e => setAttribute e key v) el.

Definition setProps (el : Live) (ps : object) (ns : option string) : Live :=
  foldl (fun el key => setProp el key (get ps key) ns) el (keys ps).

Fixpoint createElement (vnode : VNode) (ns : option string) : Tree :=
  if String.eqb (type vnode) "TEXT" then Text (text vnode)
  else
    let elementNs := getNamespace (type vnode) ns in
    let el := mkLive (newElement (if nsTruthy elementNs then elementNs else None)
                                 (type vnode)) ∅ in
    let childNs := getChildNamespace (type vnode) elementNs in
    Elem (setProps el (props vnode) elementNs)
         (map (fun child => createElement child childNs) (children vnode)).

(** [elNs] of [patch]'s UPDATE branch. *)
Definition elNs (el : Live) : option string :=
  if bool_decide (namespaceURI (elem el) = Some SVG_NS)
     || bool_decide (namespaceURI (elem el) = Some MATHML_NS)
  then namespaceURI (elem el) else None.

(** The [propPatches.forEach] of [patch]'s UPDATE branch. *)
Definition patchProps (el : Live) (propPatches : list PropPatch) : Live :=
  foldl (fun el' propPatch =>
           match propPatch with
           | SET_PROP key v => setProp el' key v (elNs el)
           | REMOVE_PROP key => removeProp el' key
           end) el propPatches.

End RenderNs.

(** ** [reactive.js]

    A property of a reactive proxy is addressed by the proxy and the key.
    The body of an effect is any function that talks to reactive proxies by
    reading and writing properties, each step possibly depending on the
    values read so far. *)

Module Reactive.

Definition loc : Type := nat * string.

Inductive prog :=
| Done
| Get (l : loc) (k : value -> prog)
| Put (l : loc) (v : value) (k : prog).

(** What an observer of a run sees: the calls of effects, with the nesting
    depth of the call, and the property reads, with the effect that was
    current. *)
Inductive event :=
| EvRun (d : nat) (e : nat)
| EvGet (cur : option nat) (l : loc).

Global Instance event_eq_dec : EqDecision event.
Proof. solve_decision. Defined.

(** A [wrappedEffect]: its function and its [deps] array.  The [Set] that
    [deps.get(key)] holds is created once and never replaced, so it is named
    by its proxy and key. *)
Record Effect := mkEffect {
  fn : prog;
  effDeps : list loc
}.

Record State := mkState {
  proxies : nat;
  target : gmap loc value;
  deps : gmap loc (list nat);
  effects : list Effect;
  currentEffect : option nat;
  depth : nat;
  trace : list event
}.

Definition state0 : State := mkState 0 ∅ ∅ [] None 0 [].

(** [Set.prototype.add] and [delete] on a set kept in insertion order. *)
Definition set_add (e : nat) (dep : list nat) : list nat :=
  if bool_decide (e ∈ dep) then dep else dep ++ [e].

Definition set_delete (e : nat) (dep : list nat) : list nat :=
  filter (fun e' => e' ≠ e) dep.

(** The effects subscribed to a property, in the order of [Array.from]. *)
Definition subscribers (s : State) (l : loc) : list nat :=
  default [] (deps s !! l).

Definition log (ev : event) (s : State) : State :=
  mkState (proxies s) (target s) (deps s) (effects s) (currentEffect s)
    (depth s) (trace s ++ [ev]).

Definition track (l : loc) (s : State) : State :=
  match currentEffect s with
  | Some e =>
      mkState (proxies s) (target s)
        (<[l := set_add e (subscribers s l)]> (deps s))
        (alter (fun r => mkEffect (fn r) (effDeps r ++ [l])) e (effects s))
        (currentEffect s) (depth s) (trace s)
  | None => s
  end.

(** [target[key]] *)
Definition read (s : State) (l : loc) : value :=
  default VUndefined (target s !! l).

(** [target[key] = value] *)
Definition store (l : loc) (v : value) (s : State) : State :=
  mkState (proxies s) (<[l := v]> (target s)) (deps s) (effects s)
    (currentEffect s) (depth s) (trace s).

(** The [get] trap. *)
Definition proxy_get (l : loc) (s : State) : value * State :=
  let s1 := track l (log (EvGet (currentEffect s) l) s) in
  (read s1 l, s1).

(** [cleanup(effect)] *)
Definition cleanup (e : nat) (s : State) : State :=
  match effects s !! e with
  | Some r =>
      mkState (proxies s) (target s)
        (foldl (fun d l => alter (set_delete e) l d) (deps s) (effDeps r))
        (<[e := mkEffect (fn r) []]> (effects s))
        (currentEffect s) (depth s) (trace s)
  | None => s
  end.

(** [currentEffect = wrappedEffect] on entry and [currentEffect = prevEffect]
    in the [finally]. *)
Definition enter (e : nat) (s : State) : State :=
  mkState (proxies s) (target s) (deps s) (effects s) (Some e)
    (S (depth s)) (trace s).

Definition leave (prevEffect : option nat) (s : State) : State :=
  mkState (proxies s) (target s) (deps s) (effects s) prevEffect
    (pred (depth s)) (trace s).

Section Traps.

(** Calling the effect [e]. *)
Variable call : nat -> State -> option State.

(** [effectsToRun.forEach(...)] *)
Fixpoint forEachEffect (effectsToRun : list nat) (s : State) : option State :=
  match effectsToRun with
  | [] => Some s
  | e :: rest =>
      if bool_decide (Some e ≠ currentEffect s) then
        match call e s with
        | Some s' => forEachEffect rest s'
        | None => None
        end
      else forEachEffect rest s
  end.

Definition trigger (l : loc) (s : State) : option State :=
  match deps s !! l with
  | Some effs => forEachEffect effs s
  | None => Some s
  end.

(** The [set] trap. *)
Definition proxy_set (l : loc) (v : value) (s : State) : option State :=
  let oldValue := read s l in
  let s1 := store l v s in
  if strict_neq oldValue v then trigger l s1 else Some s1.

Fixpoint run (p : prog) (s : State) : option State :=
  match p with
  | Done => Some s
  | Get l k => let '(v, s1) := proxy_get l s in run (k v) s1
  | Put l v k =>
      match proxy_set l v s with
      | Some s1 => run k s1
      | None => None
      end
  end.

End Traps.

(** [wrappedEffect()].  Effects can call each other without end; [fuel]
    bounds the depth of the call stack, and [None] is a run that exceeds
    it. *)
Fixpoint invoke (fuel : nat) (e : nat) (s : State) : option State :=
  match fuel with
  | O => None
  | S fuel' =>
      match effects s !! e with
      | None => None
      | Some r =>
          let s1 := cleanup e (log (EvRun (depth s) e) s) in
          let prevEffect := currentEffect s1 in
          match run (invoke fuel') (fn r) (enter e s1) with
          | Some s2 => Some (leave prevEffect s2)
          | None => None
          end
      end
  end.

(** [createReactive(target)]: the new proxy and the state that holds its
    target.  The target is an object of its own, as an object literal at
    the call makes it: no two proxies wrap one object, and nothing writes to
    the target except through its proxy. *)
Definition createReactive (o : object) (s : State) : nat * State :=
  let p := proxies s in
  (p, mkState (S p)
        (foldr (fun key t => <[(p, key) := get o key]> t) (target s) (keys o))
        (deps s) (effects s) (currentEffect s) (depth s) (trace s)).

(** [effect(fn)]: registers the wrapped effect, runs it once and returns
    it. *)
Definition effect (fuel : nat) (f : prog) (s : State) : option (nat * State) :=
  let e := length (effects s) in
  let s1 := mkState (proxies s) (target s) (deps s) (effects s ++ [mkEffect f []])
              (currentEffect s) (depth s) (trace s) in
  match invoke fuel e s1 with
  | Some s2 => Some (e, s2)
  | None => None
  end.

(** A write from the top level or from an effect body. *)
Definition write (fuel : nat) (l : loc) (v : value) (s : State) : option State :=
  proxy_set (invoke fuel) l v s.

(** The calls of effects recorded in a trace. *)
Definition runs (t : list event) : list nat :=
  omap (fun ev => match ev with EvRun _ e => Some e | EvGet _ _ => None end) t.

(** The calls made at nesting depth [d]. *)
Definition runsAt (d : nat) (t : list event) : list nat :=
  omap (fun ev => match ev with
                  | EvRun d' e => if bool_decide (d' = d) then Some e else None
                  | EvGet _ _ => None
                  end) t.


(** The invariant of the dependency graph: a subscriber is a registered
    effect whose [deps] array holds the set it sits in, a set has no
    duplicates, and the current effect is registered. *)
Definition wf (s : State) : Prop :=
  (forall l e, e ∈ subscribers s l ->
               exists r, effects s !! e = Some r /\ l ∈ effDeps r)
  /\ (forall l, NoDup (subscribers s l))
  /\ (forall e, currentEffect s = Some e -> e < length (effects s)).

(** Relations between the state before and after a piece of execution. *)

(** The current effect, the call depth and the registered functions are as
    before. *)
Definition frame (s s' : State) : Prop :=
  currentEffect s' = currentEffect s
  /\ depth s' = depth s
  /\ length (effects s') = length (effects s)
  /\ forall e, fn <$> effects s' !! e = fn <$> effects s !! e.

Definition atLeast (d : nat) (ev : event) : Prop :=
  match ev with
  | EvRun d' _ => d <= d'
  | EvGet _ _ => True
  end.

(** The trace grew by calls at the depth of [s] or deeper. *)
Definition deeper (s s' : State) : Prop :=
  frame s s'
  /\ exists t, trace s' = (trace s ++ t)%list /\ Forall (atLeast (depth s)) t.

(** A subscription of [s'] was there in [s] or comes from a read in
    between. *)
Definition origin (s s' : State) : Prop :=
  exists t, trace s' = (trace s ++ t)%list
            /\ forall e l, e ∈ subscribers s' l ->
                            e ∈ subscribers s l \/ EvGet (Some e) l ∈ t.

(** The invariant is kept. *)
Definition keeps (s s' : State) : Prop :=
  length (effects s') = length (effects s) /\ (wf s -> wf s').

End Reactive.

(** ** Scripts used as test scenarios *)

Module Scenario.
Import Reactive.

(** [const state = createReactive({count: 0}); effect(() => state.count)] *)
Definition counterStore : State := (createReactive [("count", VNum 0)] state0).2.
Definition count : loc := (0%nat, "count").
Definition readCount : prog := Get count (fun _ => Done).

Definition counterReady : State :=
  match effect 1 readCount counterStore with
  | Some (_, s) => s
  | None => counterStore
  end.

(** [const state = createReactive({flag: true, x: 0});
     effect(() => { if (state.flag) state.x })] *)
Definition flagStore : State :=
  (createReactive [("flag", VBool true); ("x", VNum 0)] state0).2.
Definition flag : loc := (0%nat, "flag").
Definition x : loc := (0%nat, "x").
Definition readXIfFlag : prog :=
  Get flag (fun f => if strict_eq f (VBool true) then Get x (fun _ => Done) else Done).

Definition flagReady : State :=
  match effect 1 readXIfFlag flagStore with
  | Some (_, s) => s
  | None => flagStore
  end.

(** [effect(() => { if (state.x === 1) state.flag = false })] *)
Definition clearFlagOnOne : prog :=
  Get x (fun v => if strict_eq v (VNum 1) then Put flag (VBool false) Done else Done).

(** The store with [clearFlagOnOne] registered first and [readXIfFlag]
    second: both are subscribed to [x]. *)
Definition twoEffects : State :=
  match effect 1 clearFlagOnOne flagStore with
  | Some (_, s) =>
      match effect 1 readXIfFlag s with
      | Some (_, s') => s'
      | None => s
      end
  | None => flagStore
  end.

(** The events that [s'] has beyond [s]. *)
Definition since (s s' : State) : list event := drop (length (trace s)) (trace s').

End Scenario.

(** * Further notions: what else the differ, the renderer and the store guarantee *)

Module VdomMore.
Import Vdom.

(** [p.newIndex] *)
Definition newIndex (p : ChildPatch) : option nat :=
  match p with
  | Positional _ => None
  | Keyed _ i _ _ => i
  end.

(** The console holds each of the two warnings at most once, and a warning
    that it holds has its flag set. *)
Definition warnedOnce (w : Console) : Prop :=
  NoDup (warnings w)
  /\ forall m, m ∈ warnings w ->
       (m = msgMixedKeys /\ warnedMixedKeys w = true)
       \/ (m = msgNoKeys /\ warnedNoKeys w = true).

End VdomMore.

Module RenderMore.
Import Vdom Dom.

(** Attribute names that [setProp] does not route to an event listener, to
    the [style] object or to the [value] property. *)
Definition attrName (key : string) : bool :=
  negb (String.prefix "on" key) && negb (String.eqb key "style")
  && negb (String.eqb key "value").

(** ** Where the live tree is exact

    The live tree of [Dom] takes an attribute name as it is given, keeps
    [className] apart from the attributes, and registers whatever listener it
    is given.  A page does more: on an HTML element it lower-cases attribute
    names, [className] is the attribute [class], [addEventListener] throws on
    a listener that is neither an object nor a function nor nullish, and the
    DOM refuses names that are no names.  The predicates below say when none
    of this shows.  What an element holds is compared as [isEqualNode] does:
    the attributes are a map, their order is not kept. *)

Definition lowerLetter (c : Ascii.ascii) : bool :=
  let n := Ascii.nat_of_ascii c in (97 <=? n)%nat && (n <=? 122)%nat.

Definition digit (c : Ascii.ascii) : bool :=
  let n := Ascii.nat_of_ascii c in (48 <=? n)%nat && (n <=? 57)%nat.

Fixpoint allChars (f : Ascii.ascii -> bool) (s : string) : bool :=
  match s with
  | EmptyString => true
  | String c s' => f c && allChars f s'
  end.

(** A tag that the DOM takes as it is, that no custom element can claim and
    whose element runs no code of the page when it enters the tree: a
    lower-case letter, then lower-case letters and digits, and not
    [script]. *)
Definition plainTag (s : string) : bool :=
  match s with
  | EmptyString => false
  | String c s' =>
      lowerLetter c && allChars (fun c => lowerLetter c || digit c) s'
      && negb (String.eqb s "script")
  end.

(** An attribute name that the DOM takes as it is: a lower-case letter, then
    lower-case letters, digits and hyphens. *)
Definition plainAttr (s : string) : bool :=
  match s with
  | EmptyString => false
  | String c s' =>
      lowerLetter c
      && allChars (fun c => lowerLetter c || digit c || (Ascii.nat_of_ascii c =? 45)%nat) s'
  end.

(** A listener that [addEventListener] registers: an object or a
    function. *)
Definition listener (v : value) : bool :=
  match v with
  | VObj _ | VFun _ | VProto _ => true
  | _ => false
  end.

(** A value that the DOM turns into a string without running code of the
    page: anything but an object of the page. *)
Definition printable (v : value) : bool :=
  match v with
  | VObj _ => false
  | _ => true
  end.

(** A prop that [setProp] and [removeProp] handle without the DOM throwing:
    [key]; an [on...] prop with a listener; [className], [style] or a plain
    attribute other than [value] (which some elements refuse) with a
    printable value.  A [style] given as an object of the page is left out:
    [Object.assign] throws on the names that a style declaration only
    reads. *)
Definition safeProp (kv : string * value) : bool :=
  String.eqb kv.1 "key"
  || (if String.prefix "on" kv.1 then listener kv.2
      else printable kv.2
           && (String.eqb kv.1 "className" || String.eqb kv.1 "style"
               || (plainAttr kv.1 && negb (String.eqb kv.1 "value")))).

(** A vnode that [createElement] and [patch] handle without the DOM
    throwing: a text, or an element with a plain tag; safe props. *)
Definition domSafe (v : VNode) : bool :=
  (String.eqb (type v) "TEXT" || plainTag (type v)) && forallb safeProp (props v).

(** A key for which the live tree is exact as to what an element holds:
    [className], or a plain attribute that is routed nowhere else, is not
    [class] (which [className] aliases) and that [Object.prototype] does not
    know. *)
Definition attrKey (key : string) : bool :=
  String.eqb key "className"
  || (attrName key && plainAttr key && negb (String.eqb key "class")
      && negb (bool_decide (key ∈ objectPrototype))).

(** A prop under such a key, with a printable value. *)
Definition attrProp (kv : string * value) : bool :=
  attrKey kv.1 && printable kv.2.

(** Everything of a live element except its plain attributes and its
    [className]. *)
Definition rest (l : Live)
    : string * option string * gmap (string * string) value * list value * value
      * list (string * value) * gmap string value :=
  (tagName (elem l), namespaceURI (elem l), attributesNS (elem l), style (elem l),
   elValue (elem l), listeners (elem l), handlers l).

(** No node of the tree is an [svg] or [math] element or carries an xlink
    attribute. *)
Fixpoint htmlOnly (v : VNode) : bool :=
  negb (String.eqb (type v) "svg") && negb (String.eqb (type v) "math")
  && negb (has (props v) "xlinkHref") && negb (has (props v) "xlink:href")
  && forallb htmlOnly (children v).

(** No node of the tree is a [math] or [foreignObject] element. *)
Fixpoint svgOnly (v : VNode) : bool :=
  negb (String.eqb (type v) "math") && negb (String.eqb (type v) "foreignObject")
  && forallb svgOnly (children v).

End RenderMore.

Module ReactiveMore.
Import Reactive.



(** [effect(() => { state.count = state.count + 1 })] on numbers. *)
Definition increment (l : loc) : prog :=
  Get l (fun v => match v with
                  | VNum n => Put l (VNum (n + 1)) Done
                  | _ => Done
                  end).

End ReactiveMore.

(** * [patch] and [patchKeyedChildren] ([render.js])

    The live tree with the identity of its nodes: every node that
    [document.createElement] or [document.createTextNode] returns gets the
    next unused number, and [===] on nodes compares the numbers.  A call of
    [patch(parent, el, oldVNode, newVNode)] works on the child list of
    [parent]; [el] is named by its number.  The result is [None] when the DOM
    throws (a node to remove or to replace that is not a child, a missing
    node), when the call needs more call stack than [fuel], and outside what
    is modelled: [el] is expected among the children of [parent], and to be an
    element wherever attributes or children are patched.  The warnings of
    [diff] are left out: they do not influence the patch. *)

Module Patcher.
Import Vdom Dom.

#[local] Unset Elimination Schemes.

(** A text node holds the text it was created with, [None] for a vnode
    without [text]. *)
Inductive Node :=
| TextNode (id : nat) (data : option string)
| ElementNode (id : nat) (l : Live) (childNodes : list Node).

#[local] Set Elimination Schemes.

Definition nodeId (n : Node) : nat :=
  match n with
  | TextNode i _ => i
  | ElementNode i _ _ => i
  end.

(** [cs.forEach(c => out.push(f(c)))] for an [f] that allocates nodes. *)
Fixpoint forEachAlloc {A B : Type} (f : A -> nat -> B * nat) (cs : list A)
    (next : nat) : list B * nat :=
  match cs with
  | [] => ([], next)
  | c :: cs' =>
      let '(b, next1) := f c next in
      let '(bs, next2) := forEachAlloc f cs' next1 in
      (b :: bs, next2)
  end.

(** [createElement(vnode)]: the element is allocated before its children. *)
Fixpoint createElement (vnode : VNode) (next : nat) : Node * nat :=
  if String.eqb (type vnode) "TEXT" then (TextNode next (text vnode), S next)
  else
    let el := Render.setProps (mkLive (newElement None (type vnode)) ∅) (props vnode) in
    let '(kids, next') := forEachAlloc createElement (children vnode) (S next) in
    (ElementNode next el kids, next').

(** The child with the given identity. *)
Fixpoint findNode (id : nat) (kids : list Node) : option Node :=
  match kids with
  | [] => None
  | n :: kids' => if Nat.eqb (nodeId n) id then Some n else findNode id kids'
  end.

(** The child list with the child [id] replaced by [n'], in place. *)
Fixpoint replaceNode (id : nat) (n' : Node) (kids : list Node) : list Node :=
  match kids with
  | [] => []
  | n :: kids' =>
      if Nat.eqb (nodeId n) id then n' :: kids' else n :: replaceNode id n' kids'
  end.

(** The child list without the child [id]. *)
Fixpoint removeNode (id : nat) (kids : list Node) : list Node :=
  match kids with
  | [] => []
  | n :: kids' => if Nat.eqb (nodeId n) id then kids' else n :: removeNode id kids'
  end.

(** The child list with [n] put before the child [ref]. *)
Fixpoint insertNode (n : Node) (ref : nat) (kids : list Node) : list Node :=
  match kids with
  | [] => [n]
  | k :: kids' =>
      if Nat.eqb (nodeId k) ref then n :: k :: kids' else k :: insertNode n ref kids'
  end.

(** [el.textContent = text].  A text node takes the text as its data, an
    element drops its children for one new text node, or for none when the
    text is empty; [undefined] counts as the empty text. *)
Definition setTextContent (n : Node) (t : option string) (next : nat) : Node * nat :=
  let s := default "" t in
  match n with
  | TextNode i _ => (TextNode i (Some s), next)
  | ElementNode i l _ =>
      if String.eqb s "" then (ElementNode i l [], next)
      else (ElementNode i l [TextNode next (Some s)], S next)
  end.

(** [a[i] = x] on an array: the array grows with holes when [i] is beyond
    its end. *)
Definition arraySet {A : Type} (a : list (option A)) (i : nat) (x : A)
    : list (option A) :=
  if bool_decide (i < length a) then <[i := Some x]> a
  else (a ++ replicate (i - length a) None ++ [Some x])%list.

(** [parent.insertBefore(el, parent.childNodes[i] || null)] for an [el]
    that is a child already (it moves) or waits detached in [pool]. *)
Definition insertBefore (kids pool : list Node) (el : nat) (i : nat)
    : option (list Node * list Node) :=
  match findNode el kids, findNode el pool with
  | Some n, _ =>
      let kids' := removeNode el kids in
      Some (match kids !! i with
            | Some ref => insertNode n (nodeId ref) kids'
            | None => (kids' ++ [n])%list
            end, pool)
  | None, Some n =>
      Some (match kids !! i with
            | Some ref => insertNode n (nodeId ref) kids
            | None => (kids ++ [n])%list
            end, removeNode el pool)
  | None, None => None
  end.

(** The reordering loop of [patchKeyedChildren]:
    [newElements.forEach((el, i) => ...)], which skips the holes of the
    array; an entry [null] makes [insertBefore] throw. *)
Fixpoint reorder (newElements : list (option (option nat))) (i : nat)
    (kids pool : list Node) : option (list Node * list Node) :=
  match newElements with
  | [] => Some (kids, pool)
  | None :: rest => reorder rest (S i) kids pool
  | Some None :: _ => None
  | Some (Some el) :: rest =>
      if bool_decide (nodeId <$> kids !! i = Some el) then reorder rest (S i) kids pool
      else
        match insertBefore kids pool el i with
        | Some (kids', pool') => reorder rest (S i) kids' pool'
        | None => None
        end
  end.

(** The state of [patchKeyedChildren] while it walks the patches: the
    children of the parent, the nodes created and not yet inserted,
    [newElements] and the next unused identity. *)
Record KeyedState := mkKeyedState {
  ksKids : list Node;
  ksPool : list Node;
  ksNew : list (option (option nat));
  ksNext : nat
}.

Section PatchBody.

(** [patch], one level down the call stack. *)
Variable patch : list Node -> option nat -> option VNode -> option VNode -> nat
                 -> option (list Node * option nat * nat).

(** The positional loop: [patches.forEach((_, i) => patch(el, childNodes[i],
    oldVNode.children[i], newVNode.children[i]))] over the snapshot
    [childNodes] of the children. *)
Fixpoint patchPositional (childNodes : list nat) (oldVNode newVNode : VNode)
    (indices : list nat) (kids : list Node) (next : nat)
    : option (list Node * nat) :=
  match indices with
  | [] => Some (kids, next)
  | i :: rest =>
      match patch kids (childNodes !! i) (children oldVNode !! i)
                  (children newVNode !! i) next with
      | Some (kids', _, next') =>
          patchPositional childNodes oldVNode newVNode rest kids' next'
      | None => None
      end
  end.

(** The first loop of [patchKeyedChildren].  A record without [newIndex] is
    skipped; one with [oldIndex] patches the old node; one without creates a
    node from [p.patch.vnode], which a CREATE and a REPLACE patch carry.  A
    positional record has neither index ([undefined], not [null]) and ends
    in [createElement(undefined)], which throws. *)
Fixpoint patchKeyedEntries (oldDomChildren : list nat) (oldVNode newVNode : VNode)
    (ps : list ChildPatch) (st : KeyedState) : option KeyedState :=
  match ps with
  | [] => Some st
  | Positional _ :: _ => None
  | Keyed _ None _ _ :: rest =>
      patchKeyedEntries oldDomChildren oldVNode newVNode rest st
  | Keyed (Some oldIndex) (Some newIndex) _ _ :: rest =>
      match patch (ksKids st) (oldDomChildren !! oldIndex)
                  (children oldVNode !! oldIndex) (children newVNode !! newIndex)
                  (ksNext st) with
      | Some (kids', patchedEl, next') =>
          patchKeyedEntries oldDomChildren oldVNode newVNode rest
            (mkKeyedState kids' (ksPool st) (arraySet (ksNew st) newIndex patchedEl)
                          next')
      | None => None
      end
  | Keyed None (Some newIndex) _ (Some (CREATE (Some vnode))) :: rest
  | Keyed None (Some newIndex) _ (Some (REPLACE vnode)) :: rest =>
      let '(n, next') := createElement vnode (ksNext st) in
      patchKeyedEntries oldDomChildren oldVNode newVNode rest
        (mkKeyedState (ksKids st) (ksPool st ++ [n])%list
                      (arraySet (ksNew st) newIndex (Some (nodeId n))) next')
  | Keyed None (Some _) _ _ :: _ => None
  end.

(** [patchKeyedChildren(parent, childPatches, oldVNode, newVNode)] on the
    children of [parent]: patch or create, reorder, trim. *)
Definition patchKeyedChildren (kids : list Node) (ps : list ChildPatch)
    (oldVNode newVNode : VNode) (next : nat) : option (list Node * nat) :=
  match patchKeyedEntries (nodeId <$> kids) oldVNode newVNode ps
          (mkKeyedState kids [] [] next) with
  | Some st =>
      match reorder (ksNew st) 0 (ksKids st) (ksPool st) with
      | Some (kids', _) => Some (take (length (ksNew st)) kids', ksNext st)
      | None => None
      end
  | None => None
  end.

(** The body of [patch(parent, el, oldVNode, newVNode)]. *)
Definition patchBody (kids : list Node) (el : option nat)
    (oldVNode newVNode : option VNode) (next : nat)
    : option (list Node * option nat * nat) :=
  match diff oldVNode newVNode with
  | None => Some (kids, el, next)
  | Some (CREATE (Some vnode)) =>
      let '(newEl, next') := createElement vnode next in
      Some ((kids ++ [newEl])%list, Some (nodeId newEl), next')
  | Some (CREATE None) => None
  | Some REMOVE =>
      match el with
      | Some id =>
          match findNode id kids with
          | Some _ => Some (removeNode id kids, None, next)
          | None => None
          end
      | None => None
      end
  | Some (REPLACE vnode) =>
      let '(newEl, next') := createElement vnode next in
      match el with
      | Some id =>
          match findNode id kids with
          | Some _ => Some (replaceNode id newEl kids, Some (nodeId newEl), next')
          | None => None
          end
      | None => None
      end
  | Some (TEXT t) =>
      match el with
      | Some id =>
          match findNode id kids with
          | Some n =>
              let '(n', next') := setTextContent n t next in
              Some (replaceNode id n' kids, el, next')
          | None => None
          end
      | None => None
      end
  | Some (UPDATE propPatches childPatches) =>
      match el, oldVNode, newVNode with
      | Some id, Some old, Some new =>
          match findNode id kids with
          | Some (ElementNode _ l cs) =>
              let l' := Render.patchProps l propPatches in
              let patched :=
                if keyed childPatches
                then patchKeyedChildren cs (patches childPatches) old new next
                else patchPositional (nodeId <$> cs) old new
                       (seq 0 (length (patches childPatches))) cs next in
              match patched with
              | Some (cs', next') =>
                  Some (replaceNode id (ElementNode id l' cs') kids, el, next')
              | None => None
              end
          | _ => None
          end
      | _, _, _ => None
      end
  end.

End PatchBody.

(** [patch(parent, el, oldVNode, newVNode)] with a call stack of [fuel]
    frames. *)
Fixpoint patch (fuel : nat) (kids : list Node) (el : option nat)
    (oldVNode newVNode : option VNode) (next : nat)
    : option (list Node * option nat * nat) :=
  match fuel with
  | O => None
  | S fuel' => patchBody (patch fuel') kids el oldVNode newVNode next
  end.

(** The nesting depth of a vnode: the call stack that patching towards it
    needs. *)
Fixpoint height (v : VNode) : nat :=
  S (foldr (fun c m => max (height c) m) 0 (children v)).

(** The live tree without the identities, as the first renderer builds
    it. *)
Fixpoint erase (n : Node) : Tree :=
  match n with
  | TextNode _ d => Text d
  | ElementNode _ l cs => Elem l (map erase cs)
  end.

(** ** What the patcher is to keep

    [wfNode next n]: the identities in use are below [next], and siblings
    differ.  [shows Q n v]: the live node [n] has the kind, the text and the
    children of the vnode [v], and its element relates to [v] by [Q].
    [wellFormed D v]: all over [v], the vnodes satisfy [D], a text vnode has
    a text, and the keys of a keyed list of siblings differ. *)

Fixpoint Node_ind (P : Node -> Prop)
    (IHtext : forall i d, P (TextNode i d))
    (IHelem : forall i l cs, Forall P cs -> P (ElementNode i l cs))
    (n : Node) : P n :=
  match n with
  | TextNode i d => IHtext i d
  | ElementNode i l cs =>
      IHelem i l cs
        ((fix go (ns : list Node) : Forall P ns :=
            match ns with
            | [] => @List.Forall_nil _ P
            | c :: ns' => @List.Forall_cons _ P c ns' (Node_ind P IHtext IHelem c) (go ns')
            end) cs)
  end.

#[local] Unset Elimination Schemes.

Inductive wfNode (next : nat) : Node -> Prop :=
| wfNode_text i d : i < next -> wfNode next (TextNode i d)
| wfNode_elem i l cs :
    i < next -> NoDup (nodeId <$> cs) -> Forall (wfNode next) cs ->
    wfNode next (ElementNode i l cs).

Inductive shows (Q : Live -> VNode -> Prop) : Node -> VNode -> Prop :=
| shows_text i v : type v = "TEXT" -> shows Q (TextNode i (text v)) v
| shows_elem i l cs v :
    type v <> "TEXT" -> Q l v -> Forall2 (shows Q) cs (children v) ->
    shows Q (ElementNode i l cs) v.

Inductive wellFormed (D : VNode -> Prop) : VNode -> Prop :=
| wellFormed_node v :
    D v ->
    (type v = "TEXT" -> text v <> None) ->
    (allKeyed (children v) = true -> NoDup (keyOf <$> children v)) ->
    Forall (wellFormed D) (children v) ->
    wellFormed D v.

#[local] Set Elimination Schemes.

Definition wfKids (next : nat) (kids : list Node) : Prop :=
  NoDup (nodeId <$> kids) /\ Forall (wfNode next) kids.

(** The element that [document.createElement(type)] returns. *)
Definition blank (ty : string) : Live := mkLive (newElement None ty) ∅.

(** [Q] for the tag alone; for the tag and a handler table that holds
    listeners only; and for an element that is exactly what [createElement]
    makes of the vnode. *)
Definition sameTag (l : Live) (v : VNode) : Prop := tagName (elem l) = type v.
Definition tidy (l : Live) (v : VNode) : Prop :=
  tagName (elem l) = type v
  /\ forall key f, handlers l !! key = Some f -> RenderMore.listener f = true.
Definition asCreated (l : Live) (v : VNode) : Prop :=
  l = Render.setProps (blank (type v)) (props v).

(** [wellFormed] as a check. *)
Fixpoint wellFormedb (Db : VNode -> bool) (v : VNode) : bool :=
  Db v
  && (negb (String.eqb (type v) "TEXT") || bool_decide (text v <> None))
  && (negb (allKeyed (children v)) || bool_decide (NoDup (keyOf <$> children v)))
  && forallb (wellFormedb Db) (children v).

(** [D] for a vnode that the DOM takes without throwing. *)
Definition safe (v : VNode) : Prop := RenderMore.domSafe v = true.

(** [D] for a text or a plain tag whose props are plain attributes other
    than [className], with a printable value that is not [undefined]. *)
Definition plainPropsb (v : VNode) : bool :=
  (String.eqb (type v) "TEXT" || RenderMore.plainTag (type v))
  && forallb (fun kv => RenderMore.attrProp kv
                        && negb (String.eqb kv.1 "className")
                        && negb (bool_decide (kv.2 = VUndefined)))
             (props v).

Definition plainProps (v : VNode) : Prop := plainPropsb v = true.

(** [D] for props without [NaN], the one value that differs from itself. *)
Definition noNaN (v : VNode) : Prop := forall k, own (props v) k <> Some VNaN.

Definition noNaNb (v : VNode) : bool :=
  forallb (fun kv => negb (bool_decide (kv.2 = VNaN))) (props v).

(** The children of a live node. *)
Definition childNodesOf (n : Node) : list Node :=
  match n with
  | TextNode _ _ => []
  | ElementNode _ _ cs => cs
  end.

(** Between the children [cs] before and [cs'] after a keyed patch: the new
    child whose key an old child of the same type carries is shown by the
    node of that old child. *)
Definition keepsKeyed (cs cs' : list Node) (olds news : list VNode) : Prop :=
  forall k c oc j,
    news !! k = Some c -> oldEntry olds c = Some (oc, j) -> type oc = type c ->
    nodeId <$> cs' !! k = nodeId <$> cs !! j.

(** Between the children before and after a patch by position: the new
    child that stands where an old child of the same type stood is shown by
    the node of that old child. *)
Definition keepsPositional (cs cs' : list Node) (olds news : list VNode) : Prop :=
  forall k c oc,
    news !! k = Some c -> olds !! k = Some oc -> type oc = type c ->
    nodeId <$> cs' !! k = nodeId <$> cs !! k.

(** What holds while [patchKeyedChildren] walks the records of the new
    children [done]: the children [kids] of the parent are those at the
    start, [cs0], except at the old indices that were matched; the nodes [Ns]
    that [newElements] names show [done], differ, and are each where their
    record says: at the matched old index, or created and waiting in
    [pool]. *)
Definition keyedInv (Q : Live -> VNode -> Prop) (cs0 : list Node)
    (olds done : list VNode) (Ns kids pool : list Node) (next : nat) : Prop :=
  length kids = length cs0
  /\ (forall j, j ∉ omap (fun c => snd <$> oldEntry olds c) done -> kids !! j = cs0 !! j)
  /\ Forall2 (fun N c =>
        shows Q N c
        /\ match oldEntry olds c with
           | Some (oc, j) =>
               kids !! j = Some N
               /\ (type oc = type c -> Some (nodeId N) = nodeId <$> cs0 !! j)
           | None => N ∈ pool
           end) Ns done
  /\ NoDup (nodeId <$> Ns)
  /\ wfKids next (kids ++ pool)%list.

(** What a call [p] of [patch] does for a child [n] of the parent that
    shows [old]: the child at the same place shows [new] afterwards, it is
    the same node unless the types differ, in which case it is a new one,
    and its children keep their nodes, by key or by position. *)
Definition patchSpec (Q : Live -> VNode -> Prop)
    (p : list Node -> option nat -> option VNode -> option VNode -> nat
         -> option (list Node * option nat * nat))
    (old new : VNode) : Prop :=
  forall kids j n next,
    wfKids next kids -> kids !! j = Some n -> shows Q n old ->
    exists n' next',
      p kids (Some (nodeId n)) (Some old) (Some new) next
        = Some (<[j := n']> kids, Some (nodeId n'), next')
      /\ shows Q n' new /\ next <= next' /\ wfNode next' n'
      /\ (nodeId n' = nodeId n \/ next <= nodeId n')
      /\ (type old = type new -> nodeId n' = nodeId n)
      /\ (type old <> type new -> next <= nodeId n')
      /\ (type old = type new -> allKeyed (children new) = true ->
          keepsKeyed (childNodesOf n) (childNodesOf n') (children old) (children new))
      /\ (type old = type new -> allKeyed (children new) = false ->
          keepsPositional (childNodesOf n) (childNodesOf n')
                          (children old) (children new)).

End Patcher.

(** * [mount] ([component.js])

    What [mount] keeps between the runs of its [update]: the vnode and the
    node of the last render, beside the children of the container and the
    next unused identity.  [update] takes the vnode that [rootComponent()]
    returns in this run; [effect] decides when it runs. *)

Module Component.
Import Vdom Dom Patcher.

Record Mounted := mkMounted {
  vnode : option VNode;
  domNode : option nat;
  container : list Node;
  nextId : nat
}.

(** [mount] before the first run of [update]. *)
Definition mounted0 (container : list Node) (next : nat) : Mounted :=
  mkMounted None None container next.

(** One run of [update]. *)
Definition update (fuel : nat) (newVNode : VNode) (m : Mounted) : option Mounted :=
  match vnode m with
  | None =>
      let '(n, next') := createElement newVNode (nextId m) in
      Some (mkMounted (Some newVNode) (Some (nodeId n)) (container m ++ [n])%list next')
  | Some old =>
      match patch fuel (container m) (domNode m) (Some old) (Some newVNode) (nextId m) with
      | Some (kids, r, next') => Some (mkMounted (Some newVNode) r kids next')
      | None => None
      end
  end.

(** The runs of [update] for the vnodes that [rootComponent()] returns one
    after the other. *)
Fixpoint updates (fuel : nat) (vs : list VNode) (m : Mounted) : option Mounted :=
  match vs with
  | [] => Some m
  | v :: vs' =>
      match update fuel v m with
      | Some m' => updates fuel vs' m'
      | None => None
      end
  end.

(** The mounted node is the child [j] of the container and shows the last
    vnode. *)
Definition mountedAt (Q : Live -> VNode -> Prop) (j : nat) (v : VNode) (m : Mounted)
    : Prop :=
  vnode m = Some v
  /\ wfKids (nextId m) (container m)
  /\ exists n, container m !! j = Some n /\ domNode m = Some (nodeId n) /\ shows Q n v.

End Component.

(** * Sample trees *)

Module Sample.
Import Vdom Dom Patcher.

Definition item (k : Z) (label : string) : VNode :=
  h "li" [("key", VNum k)] [inr label].

Definition listOld : VNode :=
  h "ul" [("id", VStr "list")]
    [inl (item 1 "a"); inl (item 2 "b"); inl (item 3 "c")].

Definition listNew : VNode :=
  h "ul" [("className", VStr "x")]
    [inl (item 3 "c"); inl (item 1 "A"); inl (item 4 "d")].

(** A page: a heading, a paragraph that loses its text, and a list. *)
Definition pageOld : VNode :=
  h "div" [] [inl (h "h1" [] [inr "Title"]); inl (h "p" [] [inr "text"]); inl listOld].

Definition listPlain : VNode :=
  h "ul" [("title", VStr "x")]
    [inl (item 3 "c"); inl (item 1 "A"); inl (item 4 "d")].

Definition pageNew : VNode :=
  h "div" [] [inl (h "h2" [] [inr "Title"]); inl (h "p" [] []); inl listPlain;
              inl (h "footer" [] [])].

(** With a click handler, which is no plain attribute. *)
Definition button (f : nat) (label : string) : VNode :=
  h "button" [("onClick", VFun f)] [inr label].

Definition formOld : VNode :=
  h "form" [] [inl (button 1 "Save"); inl listOld].

Definition formNew : VNode :=
  h "form" [] [inl (button 2 "Send"); inl listNew; inl (h "p" [] [inr "sent"])].

(** The node that [createElement] builds first on an empty page. *)
Definition nodeOf (v : VNode) : Node := (createElement v 0).1.
Definition nextOf (v : VNode) : nat := (createElement v 0).2.

End Sample.

(** * Facts about the differ *)

Section VdomFacts.
Import Vdom.

Lemma forEachIdx_fst {A B : Type} (f : A -> nat -> Console -> B * Console)
    (g : nat -> A -> B) (l : list A) :
  Forall (fun x => forall i w, (f x i w).1 = g i x) l ->
  forall i w, (forEachIdx f l i w).1 = imap (fun j => g (i + j)%nat) l.
Proof.
  induction 1 as [|x l Hx _ IH]; intros i w; simpl; [done|].
  specialize (Hx i w). destruct (f x i w) as [b w1]. simpl in Hx.
  specialize (IH (S i) w1). destruct (forEachIdx f l (S i) w1) as [bs w2].
  simpl in *. subst b bs. f_equal.
  - f_equal. lia.
  - apply imap_ext. intros j y _. simpl. f_equal. lia.
Qed.

Lemma positional_indices (olds news : list VNode) :
  (imap (fun j c => Positional (diff (olds !! j) (Some c))) news
    ++ map (fun _ => Positional (Some REMOVE)) (drop (length news) olds))%list
  = map (fun i => Positional (diff (olds !! i) (news !! i)))
        (seq 0 (max (length olds) (length news))).
Proof.
  apply list_eq. intros i.
  rewrite list_lookup_fmap.
  destruct (decide (i < length news)) as [Hn|Hn].
  - rewrite lookup_app_l by (rewrite length_imap; lia).
    rewrite list_lookup_imap.
    rewrite lookup_seq_lt by lia.
    destruct (lookup_lt_is_Some_2 news i Hn) as [c Hc].
    rewrite Hc. simpl. by rewrite Hc.
  - rewrite lookup_app_r by (rewrite length_imap; lia).
    rewrite length_imap, list_lookup_fmap, lookup_drop.
    replace (length news + (i - length news))%nat with i by lia.
    destruct (decide (i < length olds)) as [Ho|Ho].
    + rewrite lookup_seq_lt by lia.
      destruct (lookup_lt_is_Some_2 olds i Ho) as [o Hoi].
      rewrite Hoi. simpl. rewrite (lookup_ge_None_2 news i), Hoi by lia.
      reflexivity.
    + rewrite (lookup_ge_None_2 olds i) by lia.
      rewrite lookup_seq_ge by lia. reflexivity.
Qed.


Lemma diffNode_step (old new : VNode) (w : Console) :
  Forall (fun c => forall o w, (diffNode o c w).1 = diff o (Some c)) (children new) ->
  (diffNode (Some old) new w).1 = diffPresent old new.
Proof.
  destruct new as [ty ps cs tx]. simpl. intros IH.
  unfold diffPresent. simpl.
  destruct (negb (String.eqb (type old) ty)); [done|].
  destruct (String.eqb (type old) "TEXT"); [done|].
  unfold diffChildren.
  destruct (negb (allKeyed cs)).
  - pose proof (forEachIdx_fst
      (fun newChild i w =>
         let '(p, w') := diffNode (children old !! i) newChild w in (Positional p, w'))
      (fun i c => Positional (diff (children old !! i) (Some c))) cs) as Hf.
    simpl in Hf.
    rewrite <- positional_indices.
    match goal with |- context [forEachIdx ?f cs 0%nat ?w0] =>
      specialize (Hf ltac:(eapply Forall_impl; [exact IH|]; intros c Hc i w';
                      specialize (Hc (children old !! i) w');
                      destruct (diffNode (children old !! i) c w'); simpl in *; congruence)
                   0%nat w0);
      destruct (forEachIdx f cs 0%nat w0) as [pss w'] end.
    simpl in Hf. subst pss. simpl.
    by destruct (bool_decide _ || bool_decide _).
  - pose proof (forEachIdx_fst
      (fun newChild newIndex w =>
         match oldEntry (children old) newChild with
         | Some (child, index) =>
             let '(p, w') := diffNode (Some child) newChild w in
             (Keyed (Some index) (Some newIndex) (keyOf newChild) p, w')
         | None => (Keyed None (Some newIndex) (keyOf newChild)
                          (Some (CREATE (Some newChild))), w)
         end)
      (fun newIndex newChild =>
         match oldEntry (children old) newChild with
         | Some (child, index) =>
             Keyed (Some index) (Some newIndex) (keyOf newChild)
                   (diff (Some child) (Some newChild))
         | None => Keyed None (Some newIndex) (keyOf newChild)
                         (Some (CREATE (Some newChild)))
         end) cs) as Hf.
    simpl in Hf.
    match goal with |- context [forEachIdx ?f cs 0%nat ?w0] =>
      specialize (Hf ltac:(eapply Forall_impl; [exact IH|]; intros c Hc i w';
                      destruct (oldEntry (children old) c) as [[child index]|]; [|done];
                      specialize (Hc (Some child) w');
                      destruct (diffNode (Some child) c w'); simpl in *; congruence)
                   0%nat w0);
      destruct (forEachIdx f cs 0%nat w0) as [pss w'] end.
    simpl in Hf. subst pss. simpl.
    by destruct (bool_decide _ || bool_decide _).
Qed.

Lemma diffNode_diff (new : VNode) :
  forall o w, (diffNode o new w).1 = diff o (Some new).
Proof.
  induction new as [ty ps cs tx IH] using VNode_ind.
  intros [old|] w; [|done].
  unfold diff, diffW.
  by rewrite !diffNode_step.
Qed.

(** Unfolding [diff] once: the code of the source function. *)
Lemma diff_unfold (oldVNode newVNode : option VNode) :
  diff oldVNode newVNode =
  match oldVNode, newVNode with
  | None, _ => Some (CREATE newVNode)
  | Some _, None => Some REMOVE
  | Some old, Some new => diffPresent old new
  end.
Proof.
  destruct oldVNode as [old|], newVNode as [new|]; try done.
  unfold diff, diffW. apply diffNode_step.
  apply Forall_forall. intros c _ o w. apply diffNode_diff.
Qed.

(** The patch does not depend on what has been warned about before. *)
Lemma diffW_console (oldVNode newVNode : option VNode) (w : Console) :
  (diffW oldVNode newVNode w).1 = diff oldVNode newVNode.
Proof.
  destruct oldVNode as [old|], newVNode as [new|]; try done.
  apply diffNode_diff.
Qed.


Lemma allKeyed_Forall (news : list VNode) :
  allKeyed news = true <-> Forall (fun c => not_nullish (keyOf c) = true) news.
Proof.
  unfold allKeyed, keyedCount. rewrite bool_decide_eq_true.
  induction news as [|c news IH]; simpl; [done|].
  rewrite filter_cons. rewrite Forall_cons.
  pose proof (length_filter (fun c => not_nullish (keyOf c) = true) news) as Hle.
  destruct (decide (not_nullish (keyOf c) = true)) as [Hc|Hc]; simpl.
  - split.
    + intros Hlen. split; [done|]. apply IH. lia.
    + intros [_ Hall]. f_equal. by apply IH.
  - split; [lia|]. by intros [? _].
Qed.

Lemma buildKeyMap_lookup (olds : list VNode) (k : value) :
  forall i m child j,
    buildKeyMap olds i m !! k = Some (child, j) <->
    (exists n, j = (i + n)%nat /\ olds !! n = Some child /\ keyOf child = k
               /\ not_nullish k = true
               /\ forall n' c, n < n' -> olds !! n' = Some c -> keyOf c <> k)
    \/ (m !! k = Some (child, j)
        /\ forall c, c ∈ olds -> keyOf c = k -> not_nullish k = false).
Proof.
  induction olds as [|o olds IH]; intros i m child j; simpl.
  - split.
    + intros Hm. right. split; [done|]. intros c Hc. by apply elem_of_nil in Hc.
    + intros [(n & _ & Hn & _)|[Hm _]]; [by rewrite lookup_nil in Hn|done].
  - rewrite IH. split.
    + intros [(n & -> & Hn & Hk & Hnn & Hlast)|[Hm Hnone]].
      * left. exists (S n). split; [lia|]. split; [done|]. split; [done|].
        split; [done|]. intros [|n'] c Hlt Hc; [lia|]. simpl in Hc.
        apply (Hlast n' c); [lia|done].
      * destruct (not_nullish (keyOf o)) eqn:Ho.
        -- destruct (decide (keyOf o = k)) as [Heq|Hne].
           ++ subst k. rewrite lookup_insert_eq in Hm. injection Hm as <- <-.
              left. exists 0%nat. split; [lia|]. split; [done|]. split; [done|].
              split; [done|]. intros [|n'] c Hlt Hc; [lia|]. simpl in Hc.
              intros Hkc. apply list_elem_of_lookup_2 in Hc.
              specialize (Hnone c Hc Hkc). congruence.
           ++ rewrite lookup_insert_ne in Hm by done. right. split; [done|].
              intros c Hc Hkc. apply elem_of_cons in Hc as [->|Hc]; [done|].
              by apply (Hnone c).
        -- right. split; [done|]. intros c Hc Hkc.
           apply elem_of_cons in Hc as [->|Hc]; [congruence|]. by apply (Hnone c).
    + intros [(n & -> & Hn & Hk & Hnn & Hlast)|[Hm Hnone]].
      * destruct n as [|n]; simpl in Hn.
        -- injection Hn as ->. right. rewrite Hk, Hnn.
           split; [rewrite lookup_insert_eq; do 2 f_equal; lia|].
           intros c Hc Hkc. apply list_elem_of_lookup_1 in Hc as [n' Hc].
           exfalso. apply (Hlast (S n') c); [lia|done|done].
        -- left. exists n. split; [lia|]. split; [done|]. split; [done|].
           split; [done|]. intros n' c Hlt Hc. apply (Hlast (S n') c); [lia|done].
      * right. split.
        -- destruct (not_nullish (keyOf o)) eqn:Ho; [|done].
           rewrite lookup_insert_ne; [done|]. intros Heq.
           specialize (Hnone o ltac:(left) Heq). congruence.
        -- intros c Hc. apply (Hnone c). by right.
Qed.

Lemma oldEntry_Some (olds : list VNode) (newChild child : VNode) (j : nat) :
  oldEntry olds newChild = Some (child, j) ->
  olds !! j = Some child /\ keyOf child = keyOf newChild.
Proof.
  unfold oldEntry, oldKeyMap.
  destruct (not_nullish (keyOf newChild)); [|done].
  rewrite buildKeyMap_lookup.
  intros [(n & -> & Hn & Hk & _)|[Hm _]]; [done|by rewrite lookup_empty in Hm].
Qed.




Lemma oldIndex_keyedEntry (olds : list VNode) (i : nat) (c : VNode) :
  oldIndex (keyedEntry olds i c) = snd <$> oldEntry olds c.
Proof. unfold keyedEntry. by destruct (oldEntry olds c) as [[??]|]. Qed.

Lemma elem_of_usedOldIndices (olds news : list VNode) (i : nat) :
  i ∈ usedOldIndices olds news <->
  exists p, p ∈ imap (keyedEntry olds) news /\ oldIndex p = Some i.
Proof.
  unfold usedOldIndices. rewrite elem_of_list_to_set, list_elem_of_omap. split.
  - intros (c & Hc & Hi). apply list_elem_of_lookup_1 in Hc as [n Hn].
    exists (keyedEntry olds n c). split.
    + apply list_elem_of_lookup_2 with n. by rewrite list_lookup_imap, Hn.
    + by rewrite oldIndex_keyedEntry.
  - intros (p & Hp & Hi). apply list_elem_of_lookup_1 in Hp as [n Hn].
    rewrite list_lookup_imap in Hn.
    destruct (news !! n) as [c|] eqn:Hc; [|done]. simpl in Hn. injection Hn as <-.
    exists c. split; [by apply list_elem_of_lookup_2 with n|].
    by rewrite <- oldIndex_keyedEntry with (i := n).
Qed.

Lemma elem_of_removals (olds : list VNode) (used : gset nat) (p : ChildPatch) :
  p ∈ removals olds used <->
  exists i child, olds !! i = Some child /\ (i ∉ used)
                  /\ p = Keyed (Some i) None (keyOf child) (Some REMOVE).
Proof.
  unfold removals. rewrite list_elem_of_omap. split.
  - intros ([i child] & Hin & Hp). apply list_elem_of_lookup_1 in Hin as [n Hn].
    rewrite list_lookup_imap in Hn.
    destruct (olds !! n) as [c|] eqn:Hc; [|done]. simpl in Hn. injection Hn as <- <-.
    case_bool_decide; [done|]. injection Hp as <-. by exists n, c.
  - intros (i & child & Hi & Hused & ->). exists (i, child). split.
    + apply list_elem_of_lookup_2 with i. by rewrite list_lookup_imap, Hi.
    + by rewrite bool_decide_eq_false_2.
Qed.


Lemma NoDup_matched (olds news : list VNode) :
  NoDup (keyOf <$> news) ->
  NoDup (omap oldIndex (imap (keyedEntry olds) news)).
Proof.
  assert (forall (F : nat -> VNode -> ChildPatch) l,
            (forall i c, oldIndex (F i c) = snd <$> oldEntry olds c) ->
            omap oldIndex (imap F l) = omap (fun c => snd <$> oldEntry olds c) l)
    as Himap.
  { intros F l. revert F. induction l as [|c l IH]; intros F HF; simpl; [done|].
    specialize (IH (F ∘ S) (fun i c' => HF (S i) c')). unfold omap in IH.
    by rewrite HF, IH. }
  rewrite (Himap _ _ (oldIndex_keyedEntry olds)). clear Himap.
  induction news as [|c news IH]; simpl; [constructor|].
  rewrite NoDup_cons. intros [Hc Hnd]. specialize (IH Hnd).
  destruct (oldEntry olds c) as [[child j]|] eqn:Hentry; simpl; [|done].
  constructor; [|done].
  rewrite list_elem_of_omap. intros (c' & Hc' & Hj).
  destruct (oldEntry olds c') as [[child' j']|] eqn:Hentry'; [|done].
  simpl in Hj. injection Hj as ->.
  apply oldEntry_Some in Hentry as [Hj Hk], Hentry' as [Hj' Hk'].
  apply Hc. rewrite list_elem_of_fmap. exists c'. split; [|done]. congruence.
Qed.


Lemma own_keys (o : object) (k : string) : k ∈ keys o <-> is_Some (own o k).
Proof.
  unfold keys. induction o as [|[k' v] o IH]; simpl.
  - split; [by intros ?%elem_of_nil|by intros [? ?]].
  - rewrite elem_of_cons, IH. destruct (String.eqb_spec k' k) as [->|Hne].
    + split; [by eexists|by left].
    + split; [by intros [->|?]|by right].
Qed.

Lemma get_own (o : object) (k : string) (v : value) :
  own o k = Some v -> get o k = v.
Proof. unfold get. by intros ->. Qed.


Lemma allKeyed_false_nonempty (news : list VNode) :
  allKeyed news = false -> 0 < length news.
Proof. destruct news; [done|simpl; lia]. Qed.

Lemma get_absent_plain (o : object) (k : string) :
  own o k = None -> k ∉ objectPrototype -> get o k = VUndefined.
Proof.
  intros Hk Hp. unfold get, inherited. rewrite Hk. simpl.
  by rewrite bool_decide_eq_false_2.
Qed.




(** Claim C7.  Two nodes of different kinds, text or not, are never
    reconciled: [diff] answers with the REPLACE of the new node. *)
Theorem diff_kind_mismatch (n1 n2 : VNode) :
  type n1 <> type n2 -> diff (Some n1) (Some n2) = Some (REPLACE n2).
Proof.
  intros Hne. rewrite diff_unfold. unfold diffPresent.
  by rewrite (proj2 (String.eqb_neq _ _) Hne).
Qed.

Lemma diff_kind_mismatch_witness :
  diff (Some (h "div" [] [inr "Hello"])) (Some (h "span" [] [inr "Hello"]))
    = Some (REPLACE (h "span" [] [inr "Hello"]))
  /\ diff (Some (createTextVNode "Hello")) (Some (h "span" [] [inr "Hello"]))
    = Some (REPLACE (h "span" [] [inr "Hello"])).
Proof.
  split; apply diff_kind_mismatch; simpl; discriminate.
Defined.

(** Claim C5.  When some new child has no key, the children are compared by
    position: the list has one patch per index below the longer of the two
    lengths, the patch at [i] being [diff(old[i], new[i])]; this is what the
    differ returns inside the UPDATE of the parents, whatever it has warned
    about before.  The unkeyed texts B, C, D against A, B, C, D give four
    patches: three text changes and the creation of D. *)
Theorem diffChildren_positional :
  (forall olds news : list VNode,
     allKeyed news = false ->
     diffChildren olds news
     = mkChildPatches false
         (map (fun i => Positional (diff (olds !! i) (news !! i)))
              (seq 0 (max (length olds) (length news)))))
  /\ (forall (old new : VNode) (w : Console),
        type old = type new -> type old <> "TEXT" ->
        allKeyed (children new) = false ->
        (diffW (Some old) (Some new) w).1
        = Some (UPDATE (diffProps (props old) (props new))
                  (mkChildPatches false
                     (map (fun i => Positional (diff (children old !! i) (children new !! i)))
                          (seq 0 (max (length (children old)) (length (children new))))))))
  /\ diffChildren (createTextVNode <$> ["B"; "C"; "D"])
                  (createTextVNode <$> ["A"; "B"; "C"; "D"])
     = mkChildPatches false
         [Positional (Some (TEXT (Some "A")));
          Positional (Some (TEXT (Some "B")));
          Positional (Some (TEXT (Some "C")));
          Positional (Some (CREATE (Some (createTextVNode "D"))))].
Proof.
  split; [|split; [|by vm_compute]].
  - intros olds news Hk. unfold diffChildren. by rewrite Hk.
  - intros old new w Hty Htext Hk. rewrite diffW_console, diff_unfold.
    unfold diffPresent, diffChildren. rewrite Hk. simpl.
    rewrite (proj2 (String.eqb_eq _ _) Hty). simpl.
    rewrite (proj2 (String.eqb_neq _ _) Htext).
    apply allKeyed_false_nonempty in Hk.
    rewrite length_map, length_seq.
    rewrite (bool_decide_eq_true_2 (0 < _ `max` _)) by lia.
    by rewrite orb_true_r.
Qed.

Lemma diffChildren_positional_witness :
  diffChildren [h "li" [] []; h "li" [] []] [h "li" [] []]
  = mkChildPatches false [Positional None; Positional (Some REMOVE)]
  /\ (diffW (Some (h "ul" [] [inr "B"])) (Some (h "ul" [] [inr "A"; inr "B"])) console0).1
    = Some (UPDATE [] (mkChildPatches false
              [Positional (Some (TEXT (Some "A")));
               Positional (Some (CREATE (Some (createTextVNode "B"))))])).
Proof.
  destruct diffChildren_positional as (Hpos & Hdiff & _). split.
  - rewrite Hpos; [|reflexivity]. by vm_compute.
  - rewrite Hdiff; [by vm_compute|reflexivity|discriminate|reflexivity].
Defined.

(** Claim C9.  The patch that [diff] returns depends on the two nodes only,
    not on the warning flags it reads and sets; hence the patch that the
    positional branch of [patch] recomputes for child [i], at any later time,
    is the entry [i] of the positional list that the enclosing [diff] had
    returned. *)
Theorem diff_deterministic :
  (forall (oldVNode newVNode : option VNode) (w1 w2 : Console),
     (diffW oldVNode newVNode w1).1 = (diffW oldVNode newVNode w2).1)
  /\ (forall (old new : VNode) (w : Console) propPatches ps,
        (diffW (Some old) (Some new) w).1
        = Some (UPDATE propPatches (mkChildPatches false ps)) ->
        length ps = max (length (children old)) (length (children new)) /\
        forall i p w', ps !! i = Some p ->
          p = Positional (diffW (children old !! i) (children new !! i) w').1).
Proof.
  split.
  - intros o n w1 w2. by rewrite !diffW_console.
  - intros old new w pp ps. rewrite diffW_console, diff_unfold. unfold diffPresent.
    destruct (negb _); [done|]. destruct (String.eqb _ _); [by case_bool_decide|].
    simpl. destruct (_ || _); [|done]. unfold diffChildren.
    destruct (negb _); [|done]. intros [= _ <-]. split.
    + by rewrite length_map, length_seq.
    + intros i p w' Hp. rewrite list_lookup_fmap in Hp.
      destruct (seq _ _ !! i) as [j|] eqn:Hj; [|done]. simpl in Hp.
      apply lookup_seq in Hj as [-> _]. injection Hp as <-.
      by rewrite diffW_console.
Qed.

Lemma diff_deterministic_witness :
  Positional (Some (TEXT (Some "A")))
  = Positional (diffW (children (h "ul" [] [inr "B"]) !! 0%nat)
                      (children (h "ul" [] [inr "A"; inr "B"]) !! 0%nat)
                      (mkConsole true true [msgNoKeys])).1.
Proof.
  destruct diff_deterministic as [_ Hre].
  destruct (Hre (h "ul" [] [inr "B"]) (h "ul" [] [inr "A"; inr "B"]) console0
              [] [Positional (Some (TEXT (Some "A")));
                  Positional (Some (CREATE (Some (createTextVNode "B"))))])
    as [_ Hps]; [by vm_compute|].
  apply (Hps 0%nat). reflexivity.
Defined.


Lemma diffChildren_nonempty (olds news : list VNode) :
  news <> [] -> 0 < length (patches (diffChildren olds news)).
Proof.
  intros Hne. assert (0 < length news) by (destruct news; [done|simpl; lia]).
  unfold diffChildren. destruct (negb _); simpl.
  - rewrite length_map, length_seq. lia.
  - rewrite length_app, length_imap. lia.
Qed.

(** Whenever the new node has children, same-kind elements get an UPDATE,
    changed or not. *)
Lemma diff_children_update (old new : VNode) :
  type old = type new -> type old <> "TEXT" -> children new <> [] ->
  diff (Some old) (Some new)
  = Some (UPDATE (diffProps (props old) (props new))
                 (diffChildren (children old) (children new))).
Proof.
  intros Hty Htext Hne. rewrite diff_unfold. unfold diffPresent.
  rewrite (proj2 (String.eqb_eq _ _) Hty), (proj2 (String.eqb_neq _ _) Htext).
  simpl. apply (diffChildren_nonempty (children old)) in Hne.
  rewrite (bool_decide_eq_true_2 (0 < length (patches _))) by done.
  by rewrite orb_true_r.
Qed.

Lemma diff_self_text (n : VNode) :
  type n = "TEXT" -> diff (Some n) (Some n) = None.
Proof.
  intros Hty. rewrite diff_unfold. unfold diffPresent.
  rewrite String.eqb_refl, Hty. simpl. by rewrite bool_decide_eq_true_2.
Qed.

Lemma diffProps_self (ps : object) :
  (forall k, own ps k <> Some VNaN) -> diffProps ps ps = [].
Proof.
  intros Hnan. unfold diffProps.
  assert (forall (f : string -> option PropPatch) (l : list string),
            (forall k, k ∈ l -> f k = None) -> omap f l = []) as Hnil.
  { intros f l. induction l as [|k l IH]; intros Hf; simpl; [done|].
    rewrite (Hf k) by left. apply IH. intros k' Hk'. apply Hf. by right. }
  rewrite !Hnil; [done| |].
  - intros k [v Hv]%own_keys. unfold has. by rewrite Hv.
  - intros k [v Hv]%own_keys. rewrite (get_own _ _ _ Hv).
    unfold strict_neq, strict_eq.
    destruct v; try (by rewrite bool_decide_eq_true_2). by destruct (Hnan k).
Qed.

Lemma diff_self_leaf (n : VNode) :
  children n = [] -> (forall k, own (props n) k <> Some VNaN) ->
  diff (Some n) (Some n) = None.
Proof.
  intros Hnil Hnan. rewrite diff_unfold. unfold diffPresent.
  rewrite String.eqb_refl. simpl.
  destruct (String.eqb _ _); [by rewrite bool_decide_eq_true_2|].
  by rewrite diffProps_self, Hnil.
Qed.

(** Claim C1, at the input where the code departs from it.  The [span] with
    one text child, compared with itself, does not give the no-op: the
    emptiness test of [diff] counts the entries of the child list, and the
    list holds one entry per child, the no-op entries included. *)
Theorem diff_self_with_child :
  diff (Some (h "span" [] [inr "Learn JS"])) (Some (h "span" [] [inr "Learn JS"]))
  = Some (UPDATE [] (mkChildPatches false [Positional None])).
Proof. by vm_compute. Qed.




End VdomFacts.

(** * Facts about the patcher's attribute surface *)

Section RenderFacts.
Import Vdom Dom.

Lemma sameKey_refl (l : Live) : sameKey l l.
Proof. by repeat split. Qed.

Lemma sameKey_trans (l1 l2 l3 : Live) :
  sameKey l1 l2 -> sameKey l2 l3 -> sameKey l1 l3.
Proof.
  intros (Ha & Hn & Hh) (Ha' & Hn' & Hh'). repeat split; [congruence| |congruence].
  intros ns. by rewrite Hn', Hn.
Qed.

Lemma sameKey_noKey (l l' : Live) : sameKey l l' -> noKey l -> noKey l'.
Proof.
  intros (Ha & Hn & Hh) (Ha' & Hn' & Hh'). repeat split; [congruence| |congruence].
  intros ns. by rewrite Hn, Hn'.
Qed.

Lemma setHandler_sameKey (l : Live) (key : string) (v : value) :
  key <> "key" -> sameKey l (setHandler l key v).
Proof.
  intros Hne. unfold setHandler.
  destruct (handlers l !! key) as [old|]; [destruct (truthy old)|];
    repeat split; simpl; by rewrite lookup_insert_ne.
Qed.

Lemma setProp_sameKey (l : Live) (key : string) (v : value) :
  sameKey l (Render.setProp l key v).
Proof.
  unfold Render.setProp.
  destruct (String.eqb_spec key "key") as [->|Hne]; [apply sameKey_refl|].
  destruct (String.prefix "on" key); [by apply setHandler_sameKey|].
  repeat case_match; repeat split; simpl; by rewrite ?lookup_insert_ne.
Qed.

Lemma setPropNs_sameKey (l : Live) (key : string) (v : value) (ns : option string) :
  sameKey l (RenderNs.setProp l key v ns).
Proof.
  unfold RenderNs.setProp.
  destruct (String.eqb_spec key "key") as [->|Hne]; [apply sameKey_refl|].
  destruct (String.prefix "on" key); [by apply setHandler_sameKey|].
  repeat case_match; repeat split; simpl; try done;
    try (by rewrite lookup_insert_ne); intros; by rewrite lookup_insert_ne.
Qed.

Lemma removeProp_noKey (l : Live) (key : string) : noKey l -> noKey (removeProp l key).
Proof.
  intros (Ha & Hn & Hh). unfold removeProp.
  repeat case_match; repeat split; simpl; try done.
  - destruct (decide (key = "key")) as [->|Hne];
      [apply lookup_delete_eq|by rewrite lookup_delete_ne].
  - destruct (decide (key = "key")) as [->|Hne];
      [apply lookup_delete_eq|by rewrite lookup_delete_ne].
Qed.

Lemma foldl_sameKey {A : Type} (f : Live -> A -> Live) (xs : list A) :
  (forall l x, sameKey l (f l x)) -> forall l, sameKey l (foldl f l xs).
Proof.
  intros Hf. induction xs as [|x xs IH]; intros l; simpl; [apply sameKey_refl|].
  eapply sameKey_trans; [apply Hf|apply IH].
Qed.

Lemma newElement_noKey (ns : option string) (ty : string) :
  noKey (mkLive (newElement ns ty) ∅).
Proof. by repeat split. Qed.

Lemma createElement_noKey (vnode : VNode) :
  forall l, l ∈ elements (Render.createElement vnode) -> noKey l.
Proof.
  induction vnode as [ty ps cs tx IH] using VNode_ind. intros l.
  cbn -[String.eqb]. destruct (String.eqb ty "TEXT"); [by intros ?%elem_of_nil|].
  cbn -[String.eqb]. rewrite elem_of_cons. intros [->|Hin].
  - eapply sameKey_noKey; [|apply newElement_noKey].
    apply foldl_sameKey. intros. apply setProp_sameKey.
  - apply list_elem_of_In, in_flat_map in Hin as (t & Ht & Hl).
    apply in_map_iff in Ht as (c & <- & Hc).
    rewrite Forall_forall in IH. apply (IH c); by apply list_elem_of_In.
Qed.

Lemma createElementNs_noKey (vnode : VNode) :
  forall ns l, l ∈ elements (RenderNs.createElement vnode ns) -> noKey l.
Proof.
  induction vnode as [ty ps cs tx IH] using VNode_ind. intros ns l.
  cbn -[String.eqb]. destruct (String.eqb ty "TEXT"); [by intros ?%elem_of_nil|].
  cbn -[String.eqb]. rewrite elem_of_cons. intros [->|Hin].
  - eapply sameKey_noKey; [|apply newElement_noKey].
    apply foldl_sameKey. intros. apply setPropNs_sameKey.
  - apply list_elem_of_In, in_flat_map in Hin as (t & Ht & Hl).
    apply in_map_iff in Ht as (c & <- & Hc).
    rewrite Forall_forall in IH. eapply (IH c); apply list_elem_of_In; eassumption.
Qed.

Lemma patchProps_noKey (l : Live) (pps : list PropPatch) :
  noKey l -> noKey (Render.patchProps l pps).
Proof.
  unfold Render.patchProps. revert l.
  induction pps as [|[key v|key] pps IH]; intros l Hl; simpl; [done| |].
  - apply IH. eapply sameKey_noKey; [apply setProp_sameKey|done].
  - apply IH. by apply removeProp_noKey.
Qed.

Lemma patchPropsNs_noKey (l : Live) (pps : list PropPatch) :
  noKey l -> noKey (RenderNs.patchProps l pps).
Proof.
  unfold RenderNs.patchProps. generalize (RenderNs.elNs l). intros ns. revert l.
  induction pps as [|[key v|key] pps IH]; intros l Hl; simpl; [done| |].
  - apply IH. eapply sameKey_noKey; [apply setPropNs_sameKey|done].
  - apply IH. by apply removeProp_noKey.
Qed.

(** Claim C8.  The name ["key"] never reaches an element.  [setProp] with
    that name returns the element as it was, in both versions of the
    renderer; no call of [setProp] or [setProps] changes what an element holds
    under that name; every element that [createElement] builds holds nothing
    under it; and applying the attribute patches of an UPDATE keeps it that
    way. *)
Theorem key_never_reaches_element :
  (forall el v, Render.setProp el "key" v = el)
  /\ (forall el v ns, RenderNs.setProp el "key" v ns = el)
  /\ (forall el key v, sameKey el (Render.setProp el key v))
  /\ (forall el key v ns, sameKey el (RenderNs.setProp el key v ns))
  /\ (forall el ps, sameKey el (Render.setProps el ps))
  /\ (forall el ps ns, sameKey el (RenderNs.setProps el ps ns))
  /\ (forall vnode l, l ∈ elements (Render.createElement vnode) -> noKey l)
  /\ (forall vnode ns l, l ∈ elements (RenderNs.createElement vnode ns) -> noKey l)
  /\ (forall el propPatches, noKey el -> noKey (Render.patchProps el propPatches))
  /\ (forall el propPatches, noKey el -> noKey (RenderNs.patchProps el propPatches)).
Proof.
  repeat split_and; try done.
  - apply setProp_sameKey.
  - apply setPropNs_sameKey.
  - intros. apply foldl_sameKey. intros. apply setProp_sameKey.
  - intros. apply foldl_sameKey. intros. apply setPropNs_sameKey.
  - apply createElement_noKey.
  - intros vnode ns l. apply createElementNs_noKey.
  - apply patchProps_noKey.
  - apply patchPropsNs_noKey.
Qed.

Lemma key_never_reaches_element_witness :
  (forall l,
     l ∈ elements (Render.createElement
                     (h "li" [("key", VStr "a"); ("id", VStr "x")] [inr "A"])) ->
     noKey l)
  /\ noKey (Render.patchProps (mkLive (newElement None "li") ∅)
                              [SET_PROP "key" (VStr "b"); REMOVE_PROP "key"]).
Proof.
  destruct key_never_reaches_element
    as (_ & _ & _ & _ & _ & _ & Hcreate & _ & Hpatch & _).
  split.
  - apply Hcreate.
  - apply Hpatch. repeat split.
Defined.

End RenderFacts.

(** * Facts about the reactive store *)

Section ReactiveFacts.
Import Reactive.

Lemma elem_of_set_add (e e' : nat) (dep : list nat) :
  e' ∈ set_add e dep <-> e' ∈ dep \/ e' = e.
Proof.
  unfold set_add. case_bool_decide as Hin.
  - split; [by left|]. by intros [?| ->].
  - rewrite elem_of_app, list_elem_of_singleton. done.
Qed.

Lemma NoDup_set_add (e : nat) (dep : list nat) : NoDup dep -> NoDup (set_add e dep).
Proof.
  intros Hnd. unfold set_add. case_bool_decide as Hin; [done|].
  apply NoDup_app. split; [done|]. split; [|apply NoDup_singleton].
  intros x Hx ->%list_elem_of_singleton. done.
Qed.

Lemma elem_of_set_delete (e e' : nat) (dep : list nat) :
  e' ∈ set_delete e dep <-> e' ∈ dep /\ e' <> e.
Proof. unfold set_delete. rewrite list_elem_of_filter. tauto. Qed.

Lemma set_delete_idemp (e : nat) (dep : list nat) :
  set_delete e (set_delete e dep) = set_delete e dep.
Proof.
  unfold set_delete. induction dep as [|x dep IH]; [done|].
  rewrite (filter_cons _ x dep). destruct (decide (x <> e)) as [Hx|Hx]; [|done].
  rewrite filter_cons, decide_True by done. by rewrite IH.
Qed.

Lemma foldl_alter_delete (e : nat) (ls : list loc) (d : gmap loc (list nat)) (l : loc) :
  default [] (foldl (fun d l => alter (set_delete e) l d) d ls !! l)
  = if decide (l ∈ ls) then set_delete e (default [] (d !! l))
    else default [] (d !! l).
Proof.
  revert d. induction ls as [|l0 ls IH]; intros d; cbn [foldl].
  - by destruct (decide (l ∈ [])) as [?%elem_of_nil|].
  - rewrite IH. destruct (decide (l = l0)) as [->|Hne].
    + rewrite lookup_alter_eq.
      destruct (decide (l0 ∈ l0 :: ls)) as [_|Hn]; [|by destruct Hn; left].
      destruct (d !! l0) as [dep|]; simpl; case_decide; by rewrite ?set_delete_idemp.
    + rewrite lookup_alter_ne by done.
      destruct (decide (l ∈ ls)) as [Hin|Hnin];
        destruct (decide (l ∈ l0 :: ls)) as [Hin'|Hnin']; try done.
      * destruct Hnin'. by right.
      * by apply elem_of_cons in Hin' as [?|?].
Qed.

Lemma subscribers_cleanup (e : nat) (s : State) (l : loc) :
  subscribers (cleanup e s) l
  = match effects s !! e with
    | Some r => if decide (l ∈ effDeps r) then set_delete e (subscribers s l)
                else subscribers s l
    | None => subscribers s l
    end.
Proof.
  unfold cleanup. destruct (effects s !! e) as [r|]; [|done].
  unfold subscribers. simpl. apply foldl_alter_delete.
Qed.

Lemma subscribers_cleanup_subseteq (e : nat) (s : State) (l : loc) (e' : nat) :
  e' ∈ subscribers (cleanup e s) l -> e' ∈ subscribers s l /\ (e' = e -> effects s !! e = None \/ exists r, effects s !! e = Some r /\ l ∉ effDeps r).
Proof.
  rewrite subscribers_cleanup. destruct (effects s !! e) as [r|]; [|by auto].
  case_decide.
  - rewrite elem_of_set_delete. intros [? ?]. by split.
  - intros ?. split; [done|]. intros _. right. by exists r.
Qed.

Lemma subscribers_track (l l' : loc) (s : State) (e' : nat) :
  e' ∈ subscribers (track l s) l' <->
  e' ∈ subscribers s l' \/ (l' = l /\ currentEffect s = Some e').
Proof.
  unfold track. destruct (currentEffect s) as [e|] eqn:Hcur.
  - unfold subscribers at 1. simpl. destruct (decide (l' = l)) as [->|Hne].
    + rewrite lookup_insert_eq. simpl. rewrite elem_of_set_add.
      split.
      * intros [?| ->]; [by left|by right].
      * intros [?|[_ [= ->]]]; [by left|by right].
    + rewrite lookup_insert_ne by done. fold (subscribers s l').
      split; [by left|]. by intros [?|[? _]].
  - split; [by left|]. by intros [?|[_ ?]].
Qed.


(** ** A relation closed under the steps of the store holds of every run *)

Section Closure.
Variable R : State -> State -> Prop.
Hypothesis R_refl : forall s, R s s.
Hypothesis R_trans : forall s1 s2 s3, R s1 s2 -> R s2 s3 -> R s1 s3.
Hypothesis R_get : forall l s, R s (proxy_get l s).2.
Hypothesis R_store : forall l v s, R s (store l v s).
Hypothesis R_call : forall e r s s',
  effects s !! e = Some r ->
  R (enter e (cleanup e (log (EvRun (depth s) e) s))) s' ->
  R s (leave (currentEffect (cleanup e (log (EvRun (depth s) e) s))) s').

Section Call.
Variable call : nat -> State -> option State.
Hypothesis call_R : forall e s s', call e s = Some s' -> R s s'.

Lemma forEachEffect_R (effs : list nat) (s s' : State) :
  forEachEffect call effs s = Some s' -> R s s'.
Proof.
  revert s. induction effs as [|e effs IH]; intros s; simpl.
  - by intros [= ->].
  - case_bool_decide; [|by apply IH].
    destruct (call e s) as [s1|] eqn:Hcall; [|done].
    intros Hrest. eapply R_trans; [by eapply call_R|by apply IH].
Qed.

Lemma trigger_R (l : loc) (s s' : State) : trigger call l s = Some s' -> R s s'.
Proof.
  unfold trigger. destruct (deps s !! l); [apply forEachEffect_R|].
  by intros [= ->].
Qed.

Lemma proxy_set_R (l : loc) (v : value) (s s' : State) :
  proxy_set call l v s = Some s' -> R s s'.
Proof.
  unfold proxy_set. destruct (strict_neq _ _).
  - intros Htrig. eapply R_trans; [apply R_store|by eapply trigger_R].
  - intros [= <-]. apply R_store.
Qed.

Lemma run_R (p : prog) (s s' : State) : run call p s = Some s' -> R s s'.
Proof.
  revert s. induction p as [|l k IH|l v k IH]; intros s; simpl.
  - by intros [= ->].
  - intros Hrun. eapply R_trans; [apply (R_get l)|by eapply IH].
  - destruct (proxy_set call l v s) as [s1|] eqn:Hset; [|done].
    intros Hrun. eapply R_trans; [by eapply proxy_set_R|by apply IH].
Qed.
End Call.

Lemma invoke_R (fuel : nat) : forall e s s', invoke fuel e s = Some s' -> R s s'.
Proof.
  induction fuel as [|fuel IH]; intros e s s'; simpl; [done|].
  destruct (effects s !! e) as [r|] eqn:Hr; [|done].
  destruct (run _ _ _) as [s2|] eqn:Hrun; [|done].
  intros [= <-]. eapply R_call; [done|]. by eapply run_R.
Qed.

Lemma write_R (fuel : nat) (l : loc) (v : value) (s s' : State) :
  write fuel l v s = Some s' -> R s s'.
Proof. apply proxy_set_R, invoke_R. Qed.
End Closure.


(** ** The four relations are closed under the steps *)

Lemma effects_cleanup (e e' : nat) (s : State) :
  length (effects (cleanup e s)) = length (effects s)
  /\ fn <$> effects (cleanup e s) !! e' = fn <$> effects s !! e'.
Proof.
  unfold cleanup. destruct (effects s !! e) as [r|] eqn:Hr; [|done]. simpl.
  split; [apply length_insert|].
  destruct (decide (e = e')) as [<-|Hne].
  - rewrite list_lookup_insert_eq by (by eapply lookup_lt_Some). by rewrite Hr.
  - by rewrite list_lookup_insert_ne.
Qed.

Lemma cleanup_fields (e : nat) (s : State) :
  currentEffect (cleanup e s) = currentEffect s
  /\ depth (cleanup e s) = depth s
  /\ trace (cleanup e s) = trace s
  /\ target (cleanup e s) = target s.
Proof. unfold cleanup. by destruct (effects s !! e). Qed.

Lemma track_fields (l : loc) (s : State) :
  currentEffect (track l s) = currentEffect s
  /\ depth (track l s) = depth s
  /\ trace (track l s) = trace s
  /\ target (track l s) = target s
  /\ length (effects (track l s)) = length (effects s)
  /\ forall e, fn <$> effects (track l s) !! e = fn <$> effects s !! e.
Proof.
  unfold track. destruct (currentEffect s) as [c|] eqn:Hc; [|done]. simpl.
  repeat split; [apply length_alter|]. intros e.
  destruct (decide (c = e)) as [<-|Hne].
  - rewrite list_lookup_alter_eq. by destruct (effects s !! c).
  - by rewrite list_lookup_alter_ne.
Qed.

Lemma frame_refl (s : State) : frame s s.
Proof. by repeat split. Qed.

Lemma frame_trans (s1 s2 s3 : State) : frame s1 s2 -> frame s2 s3 -> frame s1 s3.
Proof.
  intros (Hc & Hd & Hl & Hf) (Hc' & Hd' & Hl' & Hf').
  repeat split; [congruence..|]. intros e. by rewrite Hf', Hf.
Qed.

Lemma frame_get (l : loc) (s : State) : frame s (proxy_get l s).2.
Proof.
  unfold proxy_get. simpl.
  destruct (track_fields l (log (EvGet (currentEffect s) l) s))
    as (Hc & Hd & _ & _ & Hl & Hf).
  by repeat split.
Qed.

Lemma frame_store (l : loc) (v : value) (s : State) : frame s (store l v s).
Proof. by repeat split. Qed.

Lemma frame_call (e : nat) (r : Effect) (s s' : State) :
  effects s !! e = Some r ->
  frame (enter e (cleanup e (log (EvRun (depth s) e) s))) s' ->
  frame s (leave (currentEffect (cleanup e (log (EvRun (depth s) e) s))) s').
Proof.
  intros Hr (Hc & Hd & Hl & Hf). simpl in *.
  destruct (cleanup_fields e (log (EvRun (depth s) e) s)) as (Hc1 & Hd1 & _ & _).
  repeat split; simpl.
  - by rewrite Hc1.
  - rewrite Hd, Hd1. done.
  - rewrite Hl. apply (effects_cleanup e e (log (EvRun (depth s) e) s)).
  - intros e'. rewrite Hf. apply (effects_cleanup e e' (log (EvRun (depth s) e) s)).
Qed.

Lemma atLeast_weaken (d d' : nat) (ev : event) : d <= d' -> atLeast d' ev -> atLeast d ev.
Proof. destruct ev; simpl; [lia|done]. Qed.

Lemma deeper_refl (s : State) : deeper s s.
Proof. split; [apply frame_refl|]. exists []. by rewrite app_nil_r. Qed.

Lemma deeper_trans (s1 s2 s3 : State) : deeper s1 s2 -> deeper s2 s3 -> deeper s1 s3.
Proof.
  intros [Hf (t & Ht & Hall)] [Hf' (t' & Ht' & Hall')].
  split; [by eapply frame_trans|].
  exists (t ++ t')%list. split; [by rewrite Ht', Ht, app_assoc|].
  apply Forall_app. split; [done|]. destruct Hf as (_ & Hd & _). by rewrite <- Hd.
Qed.

Lemma deeper_get (l : loc) (s : State) : deeper s (proxy_get l s).2.
Proof.
  split; [apply frame_get|]. exists [EvGet (currentEffect s) l].
  unfold proxy_get. simpl.
  destruct (track_fields l (log (EvGet (currentEffect s) l) s))
    as (_ & _ & Ht & _).
  split; [by rewrite Ht|]. by repeat constructor.
Qed.

Lemma deeper_store (l : loc) (v : value) (s : State) : deeper s (store l v s).
Proof. split; [apply frame_store|]. exists []. by rewrite app_nil_r. Qed.

Lemma deeper_call (e : nat) (r : Effect) (s s' : State) :
  effects s !! e = Some r ->
  deeper (enter e (cleanup e (log (EvRun (depth s) e) s))) s' ->
  deeper s (leave (currentEffect (cleanup e (log (EvRun (depth s) e) s))) s').
Proof.
  intros Hr [Hf (t & Ht & Hall)]. split; [by eapply frame_call|].
  destruct (cleanup_fields e (log (EvRun (depth s) e) s)) as (_ & Hd1 & Ht1 & _).
  simpl in *. rewrite Ht1 in Ht. rewrite Hd1 in Hall. simpl in *.
  exists (EvRun (depth s) e :: t). split; [by rewrite Ht, <- app_assoc|].
  constructor; [simpl; lia|].
  eapply Forall_impl; [done|]. intros ev. apply atLeast_weaken. lia.
Qed.

Lemma origin_refl (s : State) : origin s s.
Proof. exists []. split; [by rewrite app_nil_r|]. by left. Qed.

Lemma origin_trans (s1 s2 s3 : State) : origin s1 s2 -> origin s2 s3 -> origin s1 s3.
Proof.
  intros (t & Ht & Hsub) (t' & Ht' & Hsub').
  exists (t ++ t')%list. split; [by rewrite Ht', Ht, app_assoc|].
  intros e l Hin. rewrite elem_of_app.
  destruct (Hsub' e l Hin) as [Hin2|?]; [|by auto].
  destruct (Hsub e l Hin2); by auto.
Qed.

Lemma origin_get (l : loc) (s : State) : origin s (proxy_get l s).2.
Proof.
  exists [EvGet (currentEffect s) l]. unfold proxy_get. simpl.
  destruct (track_fields l (log (EvGet (currentEffect s) l) s))
    as (_ & _ & Ht & _).
  split; [by rewrite Ht|].
  intros e l' [Hin|[-> Hc]]%subscribers_track; [by left|].
  right. simpl in Hc. rewrite Hc. by left.
Qed.

Lemma origin_store (l : loc) (v : value) (s : State) : origin s (store l v s).
Proof. exists []. split; [by rewrite app_nil_r|]. by left. Qed.

Lemma origin_call (e : nat) (r : Effect) (s s' : State) :
  effects s !! e = Some r ->
  origin (enter e (cleanup e (log (EvRun (depth s) e) s))) s' ->
  origin s (leave (currentEffect (cleanup e (log (EvRun (depth s) e) s))) s').
Proof.
  intros Hr (t & Ht & Hsub).
  destruct (cleanup_fields e (log (EvRun (depth s) e) s)) as (_ & _ & Ht1 & _).
  simpl in *. rewrite Ht1 in Ht. simpl in Ht.
  exists (EvRun (depth s) e :: t). split; [simpl; by rewrite Ht, <- app_assoc|].
  intros e' l Hin. destruct (Hsub e' l Hin) as [Hin1|?]; [|right; by right].
  left. by apply subscribers_cleanup_subseteq in Hin1 as [? _].
Qed.


Lemma effects_track (l : loc) (s : State) :
  effects (track l s)
  = match currentEffect s with
    | Some c => alter (fun r => mkEffect (fn r) (effDeps r ++ [l])) c (effects s)
    | None => effects s
    end.
Proof. unfold track. by destruct (currentEffect s). Qed.

Lemma wf_track (l : loc) (s : State) : wf s -> wf (track l s).
Proof.
  intros (Hsub & Hnd & Hcur).
  destruct (track_fields l s) as (Hc & _ & _ & _ & Hlen & _).
  split; [|split].
  - intros l' e' Hin. rewrite effects_track.
    apply subscribers_track in Hin as [Hin|[-> Hce]].
    + destruct (Hsub l' e' Hin) as (r & Hr & Hl).
      destruct (currentEffect s) as [c|]; [|by eauto].
      destruct (decide (c = e')) as [->|Hne].
      * rewrite list_lookup_alter_eq, Hr. simpl. eexists. split; [done|].
        simpl. apply elem_of_app. by left.
      * rewrite list_lookup_alter_ne by done. by eauto.
    + rewrite Hce. destruct (lookup_lt_is_Some_2 _ _ (Hcur e' Hce)) as [r Hr].
      rewrite list_lookup_alter_eq, Hr. simpl. eexists. split; [done|].
      simpl. apply elem_of_app. right. by left.
  - intros l'. unfold track. destruct (currentEffect s) as [c|]; [|done].
    unfold subscribers at 1. simpl. destruct (decide (l' = l)) as [->|Hne].
    + rewrite lookup_insert_eq. simpl. by apply NoDup_set_add.
    + rewrite lookup_insert_ne by done. apply Hnd.
  - intros e. rewrite Hc, Hlen. apply Hcur.
Qed.

Lemma wf_enter_cleanup (e : nat) (r : Effect) (s : State) :
  effects s !! e = Some r -> wf s -> wf (enter e (cleanup e s)).
Proof.
  intros Hr (Hsub & Hnd & Hcur).
  destruct (effects_cleanup e e s) as [Hlen _].
  split; [|split].
  - intros l e' Hin. change (e' ∈ subscribers (cleanup e s) l) in Hin.
    apply subscribers_cleanup_subseteq in Hin as [Hin Hself].
    destruct (Hsub l e' Hin) as (r' & Hr' & Hl).
    destruct (decide (e' = e)) as [->|Hne].
    + destruct (Hself eq_refl) as [?|(r0 & ? & ?)]; congruence.
    + exists r'. split; [|done]. simpl. unfold cleanup. rewrite Hr. simpl.
      by rewrite list_lookup_insert_ne.
  - intros l. change (NoDup (subscribers (cleanup e s) l)).
    rewrite subscribers_cleanup, Hr. case_decide; [|apply Hnd].
    apply NoDup_filter, Hnd.
  - intros e' [= <-]. simpl. rewrite Hlen. by eapply lookup_lt_Some.
Qed.

Lemma keeps_refl (s : State) : keeps s s.
Proof. by split. Qed.

Lemma keeps_trans (s1 s2 s3 : State) : keeps s1 s2 -> keeps s2 s3 -> keeps s1 s3.
Proof. intros [Hl Hw] [Hl' Hw']. split; [congruence|auto]. Qed.

Lemma keeps_get (l : loc) (s : State) : keeps s (proxy_get l s).2.
Proof.
  unfold proxy_get. simpl. split.
  - apply (track_fields l (log (EvGet (currentEffect s) l) s)).
  - intros Hwf. by apply wf_track.
Qed.

Lemma keeps_store (l : loc) (v : value) (s : State) : keeps s (store l v s).
Proof. by split. Qed.

Lemma keeps_call (e : nat) (r : Effect) (s s' : State) :
  effects s !! e = Some r ->
  keeps (enter e (cleanup e (log (EvRun (depth s) e) s))) s' ->
  keeps s (leave (currentEffect (cleanup e (log (EvRun (depth s) e) s))) s').
Proof.
  intros Hr [Hlen Hwf].
  destruct (effects_cleanup e e (log (EvRun (depth s) e) s)) as [Hlen1 _].
  destruct (cleanup_fields e (log (EvRun (depth s) e) s)) as (Hc1 & _).
  change (length (effects s')
          = length (effects (cleanup e (log (EvRun (depth s) e) s)))) in Hlen.
  split; [simpl; rewrite Hlen; exact Hlen1|].
  intros Hs. destruct (Hwf (wf_enter_cleanup e r (log (EvRun (depth s) e) s) Hr Hs))
    as (Hsub & Hnd & Hcur).
  split; [done|]. split; [done|]. simpl. intros e'. rewrite Hc1. simpl.
  intros He'. rewrite Hlen, Hlen1. by apply Hs.
Qed.

(** The invariant holds of every state that a script can reach. *)
Lemma wf_state0 : wf state0.
Proof.
  split; [|split]; [|intros l; constructor|done].
  intros l e Hin. by apply elem_of_nil in Hin.
Qed.

Lemma wf_createReactive (o : object) (s : State) : wf s -> wf (createReactive o s).2.
Proof. by intros ?. Qed.

Lemma wf_store (l : loc) (v : value) (s : State) : wf s -> wf (store l v s).
Proof. by intros ?. Qed.

Lemma wf_write (fuel : nat) (l : loc) (v : value) (s s' : State) :
  write fuel l v s = Some s' -> wf s -> wf s'.
Proof.
  intros Hw. apply (write_R keeps keeps_refl keeps_trans keeps_get keeps_store
                      keeps_call fuel l v s s' Hw).
Qed.

Lemma wf_effect (fuel : nat) (f : prog) (s s' : State) (e : nat) :
  effect fuel f s = Some (e, s') -> wf s -> wf s'.
Proof.
  unfold effect. destruct (invoke _ _ _) as [s2|] eqn:Hinv; [|done].
  intros [= <- <-] (Hsub & Hnd & Hcur).
  apply (invoke_R keeps keeps_refl keeps_trans keeps_get keeps_store keeps_call
           _ _ _ _ Hinv).
  split; [|split]; simpl; [|done|].
  - intros l e Hin. destruct (Hsub l e Hin) as (r & Hr & Hl).
    exists r. split; [|done]. by apply lookup_app_l_Some.
  - intros e He. rewrite length_app. specialize (Hcur e He). lia.
Qed.


(** ** What one call and one notification pass add to the trace *)

Lemma runsAt_app (d : nat) (t1 t2 : list event) :
  runsAt d (t1 ++ t2) = (runsAt d t1 ++ runsAt d t2)%list.
Proof. apply omap_app. Qed.

Lemma runsAt_deeper (d : nat) (t : list event) :
  Forall (atLeast (S d)) t -> runsAt d t = [].
Proof.
  induction 1 as [|ev t Hev _ IH]; [done|].
  unfold runsAt in *. simpl. destruct ev as [d' e|]; [|done].
  simpl in Hev. rewrite bool_decide_eq_false_2 by lia. done.
Qed.

Lemma runsAt_cons_run (d e : nat) (t : list event) :
  runsAt d (EvRun d e :: t) = e :: runsAt d t.
Proof. unfold runsAt. simpl. by rewrite bool_decide_eq_true_2. Qed.

Lemma invoke_frame (fuel e : nat) (s s' : State) :
  invoke fuel e s = Some s' -> frame s s'.
Proof.
  apply (invoke_R frame frame_refl frame_trans frame_get frame_store frame_call).
Qed.

Lemma invoke_trace (fuel e : nat) (s s' : State) :
  invoke fuel e s = Some s' ->
  exists t, trace s' = (trace s ++ EvRun (depth s) e :: t)%list
            /\ Forall (atLeast (S (depth s))) t.
Proof.
  destruct fuel as [|fuel]; simpl; [done|].
  destruct (effects s !! e) as [r|] eqn:Hr; [|done].
  destruct (run _ _ _) as [s2|] eqn:Hrun; [|done].
  intros [= <-].
  apply (run_R deeper deeper_refl deeper_trans deeper_get deeper_store) in Hrun;
    [|apply (invoke_R deeper deeper_refl deeper_trans deeper_get deeper_store
               deeper_call)].
  destruct Hrun as [_ (t & Ht & Hall)].
  destruct (cleanup_fields e (log (EvRun (depth s) e) s)) as (_ & Hd1 & Ht1 & _).
  simpl in Ht, Hall. rewrite Ht1 in Ht. rewrite Hd1 in Hall. simpl in Ht, Hall.
  exists t. split; [simpl; by rewrite Ht, <- app_assoc|done].
Qed.

Lemma forEachEffect_trace (fuel : nat) (effs : list nat) :
  forall s s',
    forEachEffect (invoke fuel) effs s = Some s' ->
    frame s s'
    /\ exists t, trace s' = (trace s ++ t)%list
                 /\ runsAt (depth s) t
                    = filter (fun e => Some e <> currentEffect s) effs.
Proof.
  induction effs as [|e effs IH]; intros s s'; simpl.
  - intros [= ->]. split; [apply frame_refl|]. exists []. by rewrite app_nil_r.
  - rewrite filter_cons. case_bool_decide as Hcur.
    + destruct (invoke fuel e s) as [s1|] eqn:Hinv; [|done]. intros Hrest.
      pose proof (invoke_frame _ _ _ _ Hinv) as Hf1.
      destruct (invoke_trace _ _ _ _ Hinv) as (t1 & Ht1 & Hall).
      destruct (IH _ _ Hrest) as (Hf2 & t2 & Ht2 & Hruns).
      split; [by eapply frame_trans|].
      destruct Hf1 as (Hc1 & Hd1 & _).
      exists ((EvRun (depth s) e :: t1) ++ t2)%list.
      split; [by rewrite Ht2, Ht1, <- app_assoc|].
      rewrite decide_True by exact Hcur.
      rewrite runsAt_app. rewrite Hd1, Hc1 in Hruns. rewrite Hruns.
      by rewrite runsAt_cons_run, runsAt_deeper.
    + intros Hrest. rewrite decide_False by (by intros []). by apply IH.
Qed.

Lemma trigger_trace (fuel : nat) (l : loc) (s s' : State) :
  trigger (invoke fuel) l s = Some s' ->
  exists t, trace s' = (trace s ++ t)%list
            /\ runsAt (depth s) t
               = filter (fun e => Some e <> currentEffect s) (subscribers s l).
Proof.
  unfold trigger, subscribers. destruct (deps s !! l) as [effs|]; simpl.
  - intros Hrun. by apply forEachEffect_trace in Hrun as [_ ?].
  - intros [= ->]. exists []. by rewrite app_nil_r.
Qed.





(** ** The claims *)

Import Scenario.



(** Claim C4.  [cleanup] takes an effect out of every dependency set; after
    a run of the effect, it is subscribed only to properties that it read
    during that run.  The effect that reads [x] only while [flag] holds is
    re-run by a write to [x] at first, re-run once by the write that clears
    [flag], after which it is no longer subscribed to [x] and a write to [x]
    re-runs nothing. *)
Theorem run_resubscribes :
  (forall e s l, wf s -> e ∉ subscribers (cleanup e s) l)
  /\ (forall fuel e s s',
        wf s -> invoke fuel e s = Some s' ->
        exists t, trace s' = (trace s ++ EvRun (depth s) e :: t)%list
                  /\ forall l, e ∈ subscribers s' l -> EvGet (Some e) l ∈ t)
  /\ (effect 1 readXIfFlag flagStore ≫= fun '(e, s1) =>
      write 1 x (VNum 1) s1 ≫= fun s2 =>
      write 1 flag (VBool false) s2 ≫= fun s3 =>
      write 1 x (VNum 2) s3 ≫= fun s4 =>
      Some (e, subscribers s1 x, runs (since s1 s2), runs (since s2 s3),
            subscribers s3 x, runs (since s3 s4)))
     = Some (0%nat, [0%nat], [0%nat], [0%nat], [], []).
Proof.
  assert (forall e s l, wf s -> e ∉ subscribers (cleanup e s) l) as Hclean.
  { intros e s l (Hsub & _) [Hin Hself]%subscribers_cleanup_subseteq.
    destruct (Hsub l e Hin) as (r & Hr & Hl).
    destruct (Hself eq_refl) as [?|(r' & ? & ?)]; congruence. }
  split; [done|]. split; [|by vm_compute].
  intros [|fuel] e s s' Hwf; simpl; [done|].
  destruct (effects s !! e) as [r|] eqn:Hr; [|done].
  destruct (run _ _ _) as [s2|] eqn:Hrun; [|done].
  intros [= <-].
  apply (run_R origin origin_refl origin_trans origin_get origin_store) in Hrun;
    [|apply (invoke_R origin origin_refl origin_trans origin_get origin_store
               origin_call)].
  destruct Hrun as (t & Ht & Hsub).
  destruct (cleanup_fields e (log (EvRun (depth s) e) s)) as (_ & _ & Ht1 & _).
  simpl in Ht. rewrite Ht1 in Ht. simpl in Ht.
  exists t. split; [simpl; by rewrite Ht, <- app_assoc|].
  intros l Hin. destruct (Hsub e l Hin) as [Hold|?]; [|done].
  by apply (Hclean e (log (EvRun (depth s) e) s) l) in Hold.
Qed.

Lemma wf_flagReady : wf flagReady.
Proof.
  apply (wf_effect 1 readXIfFlag flagStore flagReady 0); [by vm_compute|].
  apply (wf_createReactive _ state0), wf_state0.
Defined.

Lemma run_resubscribes_witness :
  (0%nat ∉ subscribers (cleanup 0 flagReady) x)
  /\ exists s' t,
       invoke 1 0 flagReady = Some s'
       /\ trace s' = (trace flagReady ++ EvRun 0 0 :: t)%list
       /\ forall l, 0%nat ∈ subscribers s' l -> EvGet (Some 0%nat) l ∈ t.
Proof.
  destruct run_resubscribes as (Hclean & Hrun & _). split.
  - apply Hclean, wf_flagReady.
  - destruct (invoke 1 0 flagReady) as [s'|] eqn:Hinv; [|by vm_compute in Hinv].
    destruct (Hrun 1%nat 0%nat flagReady s' wf_flagReady Hinv) as (t & Ht & Hsub).
    by exists s', t.
Defined.

(** Claim C10.  One notification pass calls, in order, the effects that were
    subscribed to the property when the pass began, the current one
    excepted, each of them once, whatever the calls do to the subscriptions.
    In the scenario the first effect called makes the second one unsubscribe
    from [x] in a nested run; the pass calls the second one all the same. *)
Theorem notification_snapshot :
  (forall fuel l s s',
     trigger (invoke fuel) l s = Some s' ->
     exists t, trace s' = (trace s ++ t)%list
       /\ runsAt (depth s) t
          = filter (fun e => Some e <> currentEffect s) (subscribers s l)
       /\ (wf s -> NoDup (runsAt (depth s) t)))
  /\ (write 2 x (VNum 1) twoEffects ≫= fun s' =>
      Some (subscribers twoEffects x, runsAt 0 (since twoEffects s'),
            runs (since twoEffects s'), subscribers s' x))
     = Some ([0%nat; 1%nat], [0%nat; 1%nat], [0%nat; 1%nat; 1%nat], [0%nat]).
Proof.
  split; [|by vm_compute].
  intros fuel l s s' (t & Ht & Hruns)%trigger_trace.
  exists t. split; [done|]. split; [done|].
  intros (_ & Hnd & _). rewrite Hruns. apply NoDup_filter, Hnd.
Qed.

Lemma wf_twoEffects : wf twoEffects.
Proof.
  apply (wf_effect 1 readXIfFlag
           (match effect 1 clearFlagOnOne flagStore with
            | Some (_, s) => s | None => flagStore end) twoEffects 1);
    [by vm_compute|].
  apply (wf_effect 1 clearFlagOnOne flagStore _ 0); [by vm_compute|].
  apply (wf_createReactive _ state0), wf_state0.
Defined.

Lemma notification_snapshot_witness :
  exists s' t,
    trigger (invoke 2) x (store x (VNum 1) twoEffects) = Some s'
    /\ trace s' = (trace (store x (VNum 1) twoEffects) ++ t)%list
    /\ runsAt (depth (store x (VNum 1) twoEffects)) t = [0%nat; 1%nat]
    /\ NoDup (runsAt (depth (store x (VNum 1) twoEffects)) t).
Proof.
  destruct notification_snapshot as [Hpass _].
  destruct (trigger (invoke 2) x (store x (VNum 1) twoEffects)) as [s'|] eqn:Htrig;
    [|by vm_compute in Htrig].
  destruct (Hpass 2%nat x (store x (VNum 1) twoEffects) s' Htrig)
    as (t & Ht & Hruns & Hnd).
  exists s', t. split; [reflexivity|]. split; [exact Ht|]. split.
  - rewrite Hruns. by vm_compute.
  - apply Hnd, wf_store, wf_twoEffects.
Defined.

End ReactiveFacts.

(** * More facts about the differ *)

Section VdomMoreFacts.
Import Vdom VdomMore.

Lemma omap_nil_iff {A B : Type} (f : A -> option B) (l : list A) :
  omap f l = [] <-> forall x, x ∈ l -> f x = None.
Proof.
  induction l as [|a l IH]; simpl.
  - split; [|done]. intros _ x Hx. by apply elem_of_nil in Hx.
  - destruct (f a) eqn:Hfa.
    + split; [done|]. intros Hall. specialize (Hall a ltac:(left)). congruence.
    + rewrite IH. split.
      * intros Hall x [->|Hx]%elem_of_cons; [done|by apply Hall].
      * intros Hall x Hx. apply Hall. by right.
Qed.

Lemma diffProps_nil_iff (oldProps newProps : object) :
  diffProps oldProps newProps = [] <->
  (forall k, is_Some (own newProps k) ->
             strict_eq (get oldProps k) (get newProps k) = true)
  /\ (forall k, is_Some (own oldProps k) -> has newProps k = true).
Proof.
  unfold diffProps. split.
  - intros [Hset Hrem]%app_eq_nil. rewrite omap_nil_iff in Hset, Hrem. split.
    + intros k Hk%own_keys. specialize (Hset k Hk). unfold strict_neq in Hset.
      by destruct (strict_eq _ _).
    + intros k Hk%own_keys. specialize (Hrem k Hk).
      by destruct (has newProps k).
  - intros [Hset Hrem].
    rewrite (proj2 (omap_nil_iff _ (keys newProps))),
            (proj2 (omap_nil_iff _ (keys oldProps))); [done| |].
    + intros k Hk%own_keys. by rewrite (Hrem k Hk).
    + intros k Hk%own_keys. unfold strict_neq. by rewrite Hset.
Qed.

Lemma removals_all (olds : list VNode) :
  removals olds ∅ = imap (fun i c => Keyed (Some i) None (keyOf c) (Some REMOVE)) olds.
Proof.
  unfold removals.
  enough (forall f : nat -> nat,
            omap (fun '(i, child) =>
                    if bool_decide (i ∈ (∅ : gset nat)) then None
                    else Some (Keyed (Some i) None (keyOf child) (Some REMOVE)))
                 (imap (fun i c => (f i, c)) olds)
            = imap (fun i c => Keyed (Some (f i)) None (keyOf c) (Some REMOVE)) olds)
    as Hgen by apply (Hgen id).
  induction olds as [|o olds IH]; intros f; [done|].
  cbn [imap omap list_omap]. rewrite bool_decide_eq_false_2 by set_solver.
  f_equal. apply (IH (f ∘ S)).
Qed.

Lemma diffChildren_no_new (olds : list VNode) :
  diffChildren olds []
  = mkChildPatches true
      (imap (fun i c => Keyed (Some i) None (keyOf c) (Some REMOVE)) olds).
Proof.
  unfold diffChildren. change (allKeyed []) with true. simpl.
  unfold usedOldIndices. simpl. by rewrite removals_all.
Qed.

Lemma diffChildren_nil_iff (olds news : list VNode) :
  patches (diffChildren olds news) = [] <-> olds = [] /\ news = [].
Proof.
  split.
  - intros Hnil. destruct news as [|c news].
    + rewrite diffChildren_no_new in Hnil. simpl in Hnil. by destruct olds.
    + pose proof (diffChildren_nonempty olds (c :: news) ltac:(done)) as Hlen.
      rewrite Hnil in Hlen. simpl in Hlen. lia.
  - intros [-> ->]. by vm_compute.
Qed.

(** Extra X9.  [diff] of two present nodes is the no-op exactly when they are
    texts with the same text, or elements of the same kind, both without
    children, whose attribute mappings need no patch; and the attribute
    mappings need no patch exactly when every own property of the new one is
    strictly equal to what the old one yields under its key, and every own
    key of the old one is [in] the new one, as its own or as a name that
    [Object.prototype] knows. *)
Theorem diff_noop_iff (old new : VNode) :
  (diff (Some old) (Some new) = None <->
   type old = type new
   /\ ((type old = "TEXT" /\ text old = text new)
       \/ (type old <> "TEXT"
           /\ diffProps (props old) (props new) = []
           /\ children old = [] /\ children new = [])))
  /\ (diffProps (props old) (props new) = [] <->
      (forall k, is_Some (own (props new) k) ->
                 strict_eq (get (props old) k) (get (props new) k) = true)
      /\ (forall k, is_Some (own (props old) k) -> has (props new) k = true)).
Proof.
  split; [|apply diffProps_nil_iff].
  rewrite diff_unfold. unfold diffPresent.
  destruct (String.eqb_spec (type old) (type new)) as [Hty|Hty]; simpl;
    [|split; [done|by intros [? _]]].
  destruct (String.eqb_spec (type old) "TEXT") as [Htx|Htx].
  - case_bool_decide as Ht.
    + split; [|done]. intros _. split; [done|]. by left.
    + split; [done|]. intros [_ [[_ ?]|[? _]]]; done.
  - pose proof (diffChildren_nil_iff (children old) (children new)) as Hcp.
    destruct (diffProps (props old) (props new)) as [|pp pps] eqn:Hpp;
      destruct (patches (diffChildren (children old) (children new))) as [|cp cps] eqn:Hps;
      simpl.
    + split; [|done]. intros _. split; [done|]. right.
      destruct Hcp as [[-> ->] _]; done.
    + split; [done|]. intros [_ [[? _]|(_ & _ & Ho & Hn)]]; [done|].
      destruct Hcp as [_ Hcp]. by specialize (Hcp (conj Ho Hn)).
    + split; [done|]. intros [_ [[? _]|(_ & ? & _)]]; done.
    + split; [done|]. intros [_ [[? _]|(_ & ? & _)]]; done.
Qed.


(** ** Warnings *)

Lemma msgs_differ : msgMixedKeys <> msgNoKeys.
Proof. intros H. vm_compute in H. discriminate. Qed.

Lemma warnChildren_once (news : list VNode) (w : Console) :
  (warnedOnce w -> warnedOnce (warnChildren news w))
  /\ warnings w `prefix_of` warnings (warnChildren news w).
Proof.
  unfold warnChildren.
  destruct (hasKeys news && negb (allKeyed news) && negb (warnedMixedKeys w)) eqn:Hm;
    [|destruct (negb (hasKeys news) && bool_decide (1 < length news)
               && negb (warnedNoKeys w)) eqn:Hn]; simpl.
  - split; [|by apply prefix_app_r].
    apply andb_prop in Hm as [_ Hflag%negb_true_iff].
    intros [Hnd Hall]. split; simpl.
    + apply NoDup_app. split; [done|]. split; [|apply NoDup_singleton].
      intros m Hm' Hs. apply list_elem_of_singleton in Hs as ->.
      destruct (Hall _ Hm') as [[_ ?]|[? _]]; [congruence|by apply msgs_differ].
    + intros m [Hm'|Hm']%elem_of_app;
        [|apply list_elem_of_singleton in Hm' as ->; by left].
      destruct (Hall m Hm') as [[-> _]|[-> ?]]; [by left|by right].
  - split; [|by apply prefix_app_r].
    apply andb_prop in Hn as [_ Hflag%negb_true_iff].
    intros [Hnd Hall]. split; simpl.
    + apply NoDup_app. split; [done|]. split; [|apply NoDup_singleton].
      intros m Hm' Hs. apply list_elem_of_singleton in Hs as ->.
      destruct (Hall _ Hm') as [[? _]|[_ ?]]; [by apply msgs_differ|congruence].
    + intros m [Hm'|Hm']%elem_of_app;
        [|apply list_elem_of_singleton in Hm' as ->; by right].
      destruct (Hall m Hm') as [[-> ?]|[-> _]]; [by left|by right].
  - done.
Qed.

Section ConsoleRel.
Variable R : Console -> Console -> Prop.
Hypothesis R_refl : forall w, R w w.
Hypothesis R_trans : forall w1 w2 w3, R w1 w2 -> R w2 w3 -> R w1 w3.
Hypothesis R_warn : forall news w, R w (warnChildren news w).

Lemma forEachIdx_R {A B : Type} (f : A -> nat -> Console -> B * Console)
    (l : list A) :
  Forall (fun x => forall i w, R w (f x i w).2) l ->
  forall i w, R w (forEachIdx f l i w).2.
Proof.
  induction 1 as [|x l Hx _ IH]; intros i w; simpl; [done|].
  specialize (Hx i w). destruct (f x i w) as [b w1]. simpl in Hx.
  specialize (IH (S i) w1). destruct (forEachIdx f l (S i) w1) as [bs w2].
  simpl in *. by eapply R_trans.
Qed.

Lemma diffNode_R (new : VNode) : forall o w, R w (diffNode o new w).2.
Proof.
  induction new as [ty ps cs tx IH] using VNode_ind.
  intros [old|] w; simpl; [|done].
  destruct (negb (String.eqb (type old) ty)); [done|].
  destruct (String.eqb (type old) "TEXT"); [done|].
  destruct (negb (allKeyed cs)).
  - match goal with |- context [forEachIdx ?f cs 0%nat ?w0] =>
      pose proof (forEachIdx_R f cs) as Hf;
      specialize (Hf ltac:(eapply Forall_impl; [exact IH|]; intros c Hc i w';
                      specialize (Hc (children old !! i) w');
                      by destruct (diffNode (children old !! i) c w'))
                   0%nat w0);
      destruct (forEachIdx f cs 0%nat w0) as [pss w'] end.
    simpl in Hf. destruct (bool_decide _ || bool_decide _); simpl;
      (eapply R_trans; [apply R_warn|done]).
  - match goal with |- context [forEachIdx ?f cs 0%nat ?w0] =>
      pose proof (forEachIdx_R f cs) as Hf;
      specialize (Hf ltac:(eapply Forall_impl; [exact IH|]; intros c Hc i w';
                      destruct (oldEntry (children old) c) as [[child index]|]; [|done];
                      specialize (Hc (Some child) w');
                      by destruct (diffNode (Some child) c w'))
                   0%nat w0);
      destruct (forEachIdx f cs 0%nat w0) as [pss w'] end.
    simpl in Hf. destruct (bool_decide _ || bool_decide _); simpl;
      (eapply R_trans; [apply R_warn|done]).
Qed.

Lemma diffW_R (o n : option VNode) (w : Console) : R w (diffW o n w).2.
Proof. destruct o as [old|], n as [new|]; simpl; try done. apply diffNode_R. Qed.
End ConsoleRel.

(** Extra X12.  However many diffs run, each of the two diagnostics is printed at
    most once: a console that holds each warning at most once stays so, only
    grows, and never holds more than two lines. *)
Theorem warnings_once (o n : option VNode) (w : Console) :
  warnedOnce w ->
  warnedOnce (diffW o n w).2
  /\ warnings w `prefix_of` warnings (diffW o n w).2
  /\ length (warnings (diffW o n w).2) <= 2.
Proof.
  intros Hw.
  assert (warnedOnce (diffW o n w).2) as Hw'.
  { revert Hw. apply (diffW_R (fun w w' => warnedOnce w -> warnedOnce w')); [auto..|].
    intros. by apply warnChildren_once. }
  split; [done|]. split.
  - apply (diffW_R (fun w w' => warnings w `prefix_of` warnings w')).
    + done.
    + intros. by etrans.
    + intros. apply warnChildren_once.
  - destruct Hw' as [Hnd Hall].
    change 2 with (length [msgMixedKeys; msgNoKeys]).
    apply submseteq_length, NoDup_submseteq; [done|].
    intros m Hm. destruct (Hall m Hm) as [[-> _]|[-> _]]; [by left|right; by left].
Qed.

Lemma warnings_once_witness :
  warnings (diffW (Some (h "ul" [] [inr "a"; inr "b"]))
                  (Some (h "ul" [] [inr "a"; inl (h "li" [("key", VStr "k")] []);
                                    inr "c"]))
                  (diffW (Some (h "ul" [] [inr "a"]))
                         (Some (h "ul" [] [inr "a"; inr "b"])) console0).2).2
  = [msgNoKeys; msgMixedKeys]
  /\ length (warnings (diffW (Some (h "ul" [] [inr "a"; inr "b"]))
                              (Some (h "ul" [] [inr "b"; inr "c"])) console0).2) <= 2.
Proof.
  split; [by vm_compute|].
  apply warnings_once. split; [constructor|]. by intros m ?%elem_of_nil.
Defined.


(** ** The keyed branch *)

Lemma oldEntry_unique (olds : list VNode) (j : nat) (c : VNode) :
  not_nullish (keyOf c) = true ->
  NoDup (keyOf <$> olds) ->
  olds !! j = Some c ->
  oldEntry olds c = Some (c, j).
Proof.
  intros Hk Hnd Hj. unfold oldEntry, oldKeyMap. rewrite Hk.
  apply buildKeyMap_lookup. left. exists j. repeat split; [done..|].
  intros n' c' Hlt Hc' Heq.
  assert (j = n'); [|lia].
  eapply NoDup_lookup; [done| |]; rewrite list_lookup_fmap.
  - by rewrite Hj.
  - rewrite Hc'. simpl. by rewrite Heq.
Qed.

(** Extra X10.  A keyed list that is only reordered (old children all keyed with
    pairwise distinct keys, new children a permutation of them) gives one
    record per new child, which matches the child with itself at its old
    index, and gives no creation and no removal. *)
Theorem diffChildren_reorder (olds news : list VNode) :
  Forall (fun c => not_nullish (keyOf c) = true) olds ->
  NoDup (keyOf <$> olds) ->
  news ≡ₚ olds ->
  keyed (diffChildren olds news) = true
  /\ length (patches (diffChildren olds news)) = length news
  /\ forall i c, news !! i = Some c ->
       exists j, olds !! j = Some c
                 /\ patches (diffChildren olds news) !! i
                    = Some (Keyed (Some j) (Some i) (keyOf c)
                                  (diff (Some c) (Some c))).
Proof.
  intros Hk Hnd Hperm.
  assert (allKeyed news = true) as Hall.
  { apply allKeyed_Forall. by rewrite Hperm. }
  assert (removals olds (usedOldIndices olds news) = []) as Hrem.
  { unfold removals. apply omap_nil_iff. intros [j c] Hin.
    apply list_elem_of_lookup_1 in Hin as [n Hn]. rewrite list_lookup_imap in Hn.
    destruct (olds !! n) as [c'|] eqn:Hc'; [|done]. simpl in Hn. injection Hn as <- <-.
    rewrite bool_decide_eq_true_2; [done|].
    unfold usedOldIndices. rewrite elem_of_list_to_set, list_elem_of_omap.
    exists c'. split.
    - rewrite Hperm. by eapply list_elem_of_lookup_2.
    - rewrite (oldEntry_unique olds n c'); [done| |done|done].
      rewrite Forall_forall in Hk. apply Hk. by eapply list_elem_of_lookup_2. }
  unfold diffChildren. rewrite Hall, Hrem, app_nil_r. simpl.
  split; [done|]. split; [apply length_imap|].
  intros i c Hi.
  assert (c ∈ olds) as Hc by (rewrite <- Hperm; by eapply list_elem_of_lookup_2).
  apply list_elem_of_lookup_1 in Hc as [j Hj]. exists j. split; [done|].
  rewrite list_lookup_imap, Hi. simpl. unfold keyedEntry.
  rewrite (oldEntry_unique olds j c); [done| |done|done].
  rewrite Forall_forall in Hk. apply Hk. by eapply list_elem_of_lookup_2.
Qed.

Lemma diffChildren_reorder_witness :
  patches (diffChildren [h "li" [("key", VStr "a")] []; h "li" [("key", VStr "b")] []]
                        [h "li" [("key", VStr "b")] []; h "li" [("key", VStr "a")] []])
  = [Keyed (Some 1%nat) (Some 0%nat) (VStr "b") None;
     Keyed (Some 0%nat) (Some 1%nat) (VStr "a") None]
  /\ length (patches (diffChildren
                        [h "li" [("key", VStr "a")] []; h "li" [("key", VStr "b")] []]
                        [h "li" [("key", VStr "b")] []; h "li" [("key", VStr "a")] []]))
     = 2%nat.
Proof.
  split; [by vm_compute|].
  apply (diffChildren_reorder
           [h "li" [("key", VStr "a")] []; h "li" [("key", VStr "b")] []]
           [h "li" [("key", VStr "b")] []; h "li" [("key", VStr "a")] []]).
  - by repeat constructor.
  - simpl. apply NoDup_cons. split; [|apply NoDup_singleton].
    intros H%list_elem_of_singleton. discriminate H.
  - apply perm_swap.
Defined.

Lemma omap_newIndex_imap (F : nat -> VNode -> ChildPatch) (l : list VNode) (k : nat) :
  (forall i c, newIndex (F i c) = Some (k + i)%nat) ->
  omap newIndex (imap F l) = seq k (length l).
Proof.
  revert F k. induction l as [|c l IH]; intros F k HF; [done|].
  cbn [imap omap list_omap length seq]. rewrite HF, Nat.add_0_r.
  f_equal. apply (IH (F ∘ S) (S k)). intros i c'. unfold compose.
  rewrite HF. f_equal. lia.
Qed.

(** Extra X11.  In a keyed child list the records of the new children carry the new
    indices 0, 1, ... in order and the removals carry none; every old index
    below the number of old children is carried by some record; and with no
    new child at all the list is keyed and removes every old child. *)
Theorem diffChildren_keyed_covers :
  (forall olds news : list VNode,
     allKeyed news = true ->
     omap newIndex (patches (diffChildren olds news)) = seq 0 (length news)
     /\ forall j, j < length olds ->
          exists p, p ∈ patches (diffChildren olds news) /\ oldIndex p = Some j)
  /\ (forall olds : list VNode,
        diffChildren olds []
        = mkChildPatches true
            (imap (fun i c => Keyed (Some i) None (keyOf c) (Some REMOVE)) olds)).
Proof.
  split; [|apply diffChildren_no_new].
  intros olds news Hall. unfold diffChildren. rewrite Hall. simpl. split.
  - rewrite omap_app.
    rewrite (omap_newIndex_imap (keyedEntry olds) news 0).
    + rewrite (proj2 (omap_nil_iff newIndex _)); [by rewrite app_nil_r|].
      intros p (i & c & _ & _ & ->)%elem_of_removals. done.
    + intros i c. unfold keyedEntry. by destruct (oldEntry olds c) as [[? ?]|].
  - intros j Hj. destruct (lookup_lt_is_Some_2 olds j Hj) as [c Hc].
    destruct (decide (j ∈ usedOldIndices olds news)) as [Hin|Hnin].
    + apply elem_of_usedOldIndices in Hin as (p & Hp & Hi).
      exists p. split; [|done]. apply elem_of_app. by left.
    + exists (Keyed (Some j) None (keyOf c) (Some REMOVE)). split; [|done].
      apply elem_of_app. right. apply elem_of_removals. by exists j, c.
Qed.

Lemma diffChildren_keyed_covers_witness :
  omap newIndex (patches (diffChildren [h "li" [("key", VStr "a")] []]
                                       [h "li" [("key", VStr "b")] []]))
  = [0%nat]
  /\ exists p, p ∈ patches (diffChildren [h "li" [("key", VStr "a")] []]
                                         [h "li" [("key", VStr "b")] []])
               /\ oldIndex p = Some 0%nat.
Proof.
  destruct diffChildren_keyed_covers as [Hgen _].
  destruct (Hgen [h "li" [("key", VStr "a")] []] [h "li" [("key", VStr "b")] []])
    as [Hnew Hold]; [reflexivity|].
  split; [exact Hnew|]. apply Hold. simpl. lia.
Defined.

End VdomMoreFacts.

(** * More facts about the renderer *)

Section RenderMoreFacts.
Import Vdom Dom RenderMore.

Lemma live_eq (l l' : Live) :
  rest l = rest l' ->
  attributes (elem l) = attributes (elem l') ->
  className (elem l) = className (elem l') ->
  l = l'.
Proof.
  destruct l as [[] ?], l' as [[] ?]. unfold rest. simpl.
  intros [= -> -> -> -> -> -> ->] -> ->. done.
Qed.

Lemma attrName_cases (key : string) :
  attrName key = true ->
  String.prefix "on" key = false /\ key <> "style" /\ key <> "value".
Proof.
  unfold attrName. intros [[Hon Hst]%andb_prop Hv]%andb_prop.
  apply negb_true_iff in Hon, Hst, Hv.
  by rewrite String.eqb_neq in Hst, Hv.
Qed.

Lemma setProp_attrName (l : Live) (key : string) (v : value) :
  attrName key = true ->
  Render.setProp l key v
  = if decide (key = "key") then l
    else if decide (key = "className") then onElem (fun e => setClassName e v) l
    else onElem (fun e => setAttribute e key v) l.
Proof.
  intros (Hon & Hst & Hv)%attrName_cases. unfold Render.setProp. rewrite Hon.
  destruct (String.eqb_spec key "key"); [by rewrite decide_True|].
  rewrite decide_False by done.
  destruct (String.eqb_spec key "className"); [by rewrite decide_True|].
  rewrite decide_False by done.
  by rewrite (proj2 (String.eqb_neq key "style")), (proj2 (String.eqb_neq key "value")).
Qed.

Lemma removeProp_attrName (l : Live) (key : string) :
  attrName key = true ->
  removeProp l key
  = if decide (key = "className") then onElem (fun e => setClassName e (VStr "")) l
    else onElem (fun e => removeAttribute e key) l.
Proof.
  intros (Hon & _)%attrName_cases. unfold removeProp. rewrite Hon.
  destruct (String.eqb_spec key "className"); [by rewrite decide_True|].
  by rewrite decide_False.
Qed.

Lemma bool_decide_elem_cons (k k0 : string) (ks : list string) :
  bool_decide (k ∈ k0 :: ks) = bool_decide (k = k0) || bool_decide (k ∈ ks).
Proof.
  apply eq_true_iff_eq.
  rewrite orb_true_iff, !bool_decide_eq_true. apply elem_of_cons.
Qed.

(** Whether [setProp] writes the plain attribute [k]. *)
Lemma step_set (l : Live) (k0 : string) (v : value) :
  attrName k0 = true ->
  rest (Render.setProp l k0 v) = rest l
  /\ (forall k, attributes (elem (Render.setProp l k0 v)) !! k
                = if bool_decide (k = k0) && negb (String.eqb k "key")
                     && negb (String.eqb k "className")
                  then Some v else attributes (elem l) !! k)
  /\ className (elem (Render.setProp l k0 v))
     = if bool_decide ("className" = k0) then v else className (elem l).
Proof.
  intros Hk0. rewrite setProp_attrName by done.
  destruct (decide (k0 = "key")) as [->|Hn1];
    [|destruct (decide (k0 = "className")) as [->|Hn2]]; simpl.
  - split; [done|]. split; [|done]. intros k.
    destruct (decide (k = "key")) as [->|Hne]; [done|].
    by rewrite bool_decide_eq_false_2.
  - split; [done|]. split; [|done]. intros k.
    destruct (decide (k = "className")) as [->|Hne]; [done|].
    by rewrite bool_decide_eq_false_2.
  - split; [done|]. split; [|by rewrite bool_decide_eq_false_2]. intros k.
    destruct (decide (k = k0)) as [->|Hne].
    + rewrite lookup_insert_eq, bool_decide_eq_true_2 by done.
      by rewrite (proj2 (String.eqb_neq k0 "key")),
                 (proj2 (String.eqb_neq k0 "className")).
    + rewrite lookup_insert_ne by done. by rewrite bool_decide_eq_false_2.
Qed.

Lemma step_remove (l : Live) (k0 : string) :
  attrName k0 = true ->
  rest (removeProp l k0) = rest l
  /\ (forall k, attributes (elem (removeProp l k0)) !! k
                = if bool_decide (k = k0) && negb (String.eqb k "className")
                  then None else attributes (elem l) !! k)
  /\ className (elem (removeProp l k0))
     = if bool_decide ("className" = k0) then VStr "" else className (elem l).
Proof.
  intros Hk0. rewrite removeProp_attrName by done.
  destruct (decide (k0 = "className")) as [->|Hn2]; simpl.
  - split; [done|]. split; [|done]. intros k.
    destruct (decide (k = "className")) as [->|Hne]; [done|].
    by rewrite bool_decide_eq_false_2.
  - split; [done|]. split; [|by rewrite bool_decide_eq_false_2]. intros k.
    destruct (decide (k = k0)) as [->|Hne].
    + rewrite lookup_delete_eq, bool_decide_eq_true_2 by done.
      by rewrite (proj2 (String.eqb_neq k0 "className")).
    + rewrite lookup_delete_ne by done. by rewrite bool_decide_eq_false_2.
Qed.

Lemma fold_set (cond : string -> bool) (val : string -> value) (ks : list string) :
  (forall k, k ∈ ks -> attrName k = true) ->
  forall l,
    let l' := foldl (fun l k => if cond k then Render.setProp l k (val k) else l) l ks in
    rest l' = rest l
    /\ (forall k, attributes (elem l') !! k
                  = if bool_decide (k ∈ ks) && cond k && negb (String.eqb k "key")
                       && negb (String.eqb k "className")
                    then Some (val k) else attributes (elem l) !! k)
    /\ className (elem l')
       = if bool_decide ("className" ∈ ks) && cond "className"
         then val "className" else className (elem l).
Proof.
  induction ks as [|k0 ks IH]; intros Hks l; cbn [foldl].
  - by repeat split.
  - set (l1 := if cond k0 then Render.setProp l k0 (val k0) else l).
    destruct (IH (fun k Hk => Hks k ltac:(by right)) l1) as (Hrest & Hattr & Hcls).
    pose proof (Hks k0 ltac:(by left)) as Hk0.
    destruct (step_set l k0 (val k0) Hk0) as (Hrest1 & Hattr1 & Hcls1).
    cbv zeta. rewrite Hrest. split; [|split].
    + subst l1. by destruct (cond k0).
    + intros k. rewrite Hattr, bool_decide_elem_cons. subst l1.
      destruct (decide (k = k0)) as [->|Hne].
      * rewrite !(bool_decide_eq_true_2 (k0 = k0)) by done.
        destruct (cond k0); [rewrite Hattr1, (bool_decide_eq_true_2 (k0 = k0)) by done|];
          by destruct (bool_decide (k0 ∈ ks)), (negb (String.eqb k0 "key")),
               (negb (String.eqb k0 "className")).
      * rewrite (bool_decide_eq_false_2 (k = k0)) by done.
        destruct (cond k0); [rewrite Hattr1, (bool_decide_eq_false_2 (k = k0)) by done|]; done.
    + rewrite Hcls, bool_decide_elem_cons. subst l1.
      destruct (decide ("className" = k0)) as [<-|Hne].
      * rewrite !(bool_decide_eq_true_2 ("className" = "className")) by done.
        destruct (cond "className");
          [rewrite Hcls1, (bool_decide_eq_true_2 ("className" = "className")) by done|];
          by destruct (bool_decide ("className" ∈ ks)).
      * rewrite (bool_decide_eq_false_2 ("className" = k0)) by done.
        destruct (cond k0);
          [rewrite Hcls1, (bool_decide_eq_false_2 ("className" = k0)) by done|]; done.
Qed.

Lemma fold_remove (cond : string -> bool) (ks : list string) :
  (forall k, k ∈ ks -> attrName k = true) ->
  forall l,
    let l' := foldl (fun l k => if cond k then removeProp l k else l) l ks in
    rest l' = rest l
    /\ (forall k, attributes (elem l') !! k
                  = if bool_decide (k ∈ ks) && cond k && negb (String.eqb k "className")
                    then None else attributes (elem l) !! k)
    /\ className (elem l')
       = if bool_decide ("className" ∈ ks) && cond "className"
         then VStr "" else className (elem l).
Proof.
  induction ks as [|k0 ks IH]; intros Hks l; cbn [foldl].
  - by repeat split.
  - set (l1 := if cond k0 then removeProp l k0 else l).
    destruct (IH (fun k Hk => Hks k ltac:(by right)) l1) as (Hrest & Hattr & Hcls).
    pose proof (Hks k0 ltac:(by left)) as Hk0.
    destruct (step_remove l k0 Hk0) as (Hrest1 & Hattr1 & Hcls1).
    cbv zeta. rewrite Hrest. split; [|split].
    + subst l1. by destruct (cond k0).
    + intros k. rewrite Hattr, bool_decide_elem_cons. subst l1.
      destruct (decide (k = k0)) as [->|Hne].
      * rewrite !(bool_decide_eq_true_2 (k0 = k0)) by done.
        destruct (cond k0); [rewrite Hattr1, (bool_decide_eq_true_2 (k0 = k0)) by done|];
          by destruct (bool_decide (k0 ∈ ks)), (negb (String.eqb k0 "className")).
      * rewrite (bool_decide_eq_false_2 (k = k0)) by done.
        destruct (cond k0); [rewrite Hattr1, (bool_decide_eq_false_2 (k = k0)) by done|]; done.
    + rewrite Hcls, bool_decide_elem_cons. subst l1.
      destruct (decide ("className" = k0)) as [<-|Hne].
      * rewrite !(bool_decide_eq_true_2 ("className" = "className")) by done.
        destruct (cond "className");
          [rewrite Hcls1, (bool_decide_eq_true_2 ("className" = "className")) by done|];
          by destruct (bool_decide ("className" ∈ ks)).
      * rewrite (bool_decide_eq_false_2 ("className" = k0)) by done.
        destruct (cond k0);
          [rewrite Hcls1, (bool_decide_eq_false_2 ("className" = k0)) by done|]; done.
Qed.

Lemma foldl_omap {A B C : Type} (g : A -> C -> A) (f : B -> option C)
    (ks : list B) (a : A) :
  foldl g a (omap f ks)
  = foldl (fun a k => match f k with Some c => g a c | None => a end) a ks.
Proof.
  revert a. induction ks as [|k ks IH]; intros a; simpl; [done|].
  destruct (f k); simpl; apply IH.
Qed.

Lemma foldl_ext_eq {A B : Type} (g g' : A -> B -> A) (l : list B) (a : A) :
  (forall a b, g a b = g' a b) -> foldl g a l = foldl g' a l.
Proof.
  intros Hg. revert a. induction l as [|b l IH]; intros a; simpl; [done|].
  by rewrite Hg, IH.
Qed.

Lemma strict_eq_true (a b : value) : strict_eq a b = true -> a = b.
Proof.
  unfold strict_eq. destruct a, b; try done; by intros ?%bool_decide_eq_true.
Qed.

Lemma has_keys (o : object) (k : string) :
  k ∉ objectPrototype -> has o k = bool_decide (k ∈ keys o).
Proof.
  intros Hp. unfold has. destruct (own o k) eqn:Hk.
  - symmetry. apply bool_decide_eq_true_2, own_keys. by eexists.
  - rewrite bool_decide_eq_false_2 by done. symmetry.
    apply bool_decide_eq_false_2. intros [? ?]%own_keys. congruence.
Qed.

Lemma get_absent (o : object) (k : string) :
  k ∉ objectPrototype -> k ∉ keys o -> get o k = VUndefined.
Proof.
  intros Hp Hk. apply get_absent_plain; [|done].
  destruct (own o k) eqn:Ho; [|done]. destruct Hk. apply own_keys. by eexists.
Qed.

Lemma keys_get (o : object) (k : string) : k ∈ keys o -> own o k = Some (get o k).
Proof. intros [v Hv]%own_keys. by rewrite (get_own _ _ _ Hv). Qed.

Lemma forallb_keys (P : string * value -> bool) (o : object) (k : string) :
  forallb P o = true -> k ∈ keys o -> P (k, get o k) = true.
Proof.
  unfold get, keys. induction o as [|[k' v'] o IH]; simpl; [by intros _ ?%elem_of_nil|].
  intros [Hp Ho]%andb_prop Hk. destruct (String.eqb_spec k' k) as [->|Hne]; [done|].
  apply IH; [done|]. by apply elem_of_cons in Hk as [->|Hk].
Qed.

Lemma attrProp_attrKey (o : object) (k : string) :
  forallb attrProp o = true -> k ∈ keys o -> attrKey k = true.
Proof.
  intros Ho Hk. by apply (forallb_keys _ _ _ Ho), andb_prop in Hk as [? _].
Qed.

Lemma attrKey_attrName (k : string) : attrKey k = true -> attrName k = true.
Proof.
  unfold attrKey. intros [->%String.eqb_eq|H]%orb_prop; [done|].
  by apply andb_prop in H as [[[? _]%andb_prop _]%andb_prop _].
Qed.

Lemma attrKey_plain (k : string) : attrKey k = true -> k ∉ objectPrototype.
Proof.
  unfold attrKey. intros [->%String.eqb_eq|H]%orb_prop.
  - apply (bool_decide_unpack _). by vm_compute.
  - apply andb_prop in H as [_ H]. apply negb_true_iff in H.
    by apply bool_decide_eq_false in H.
Qed.

Lemma patchProps_setProps (ty : string) (oldProps newProps : object) :
  (forall k, k ∈ keys oldProps -> attrKey k = true) ->
  (forall k, k ∈ keys newProps -> attrKey k = true) ->
  (forall k, own newProps k <> Some VUndefined) ->
  Render.patchProps (Render.setProps (mkLive (newElement None ty) ∅) oldProps)
                    (diffProps oldProps newProps)
  = Render.setProps (mkLive (newElement None ty) ∅) newProps.
Proof.
  intros Hold' Hnew' Hdef. set (el0 := mkLive (newElement None ty) ∅).
  assert (forall k, k ∈ keys oldProps -> attrName k = true) as Hold
    by (intros; by apply attrKey_attrName, Hold').
  assert (forall k, k ∈ keys newProps -> attrName k = true) as Hnew
    by (intros; by apply attrKey_attrName, Hnew').
  destruct (fold_set (fun _ => true) (get oldProps) (keys oldProps) Hold el0)
    as (Hr1 & Ha1 & Hc1).
  destruct (fold_set (fun _ => true) (get newProps) (keys newProps) Hnew el0)
    as (HrF & HaF & HcF).
  cbv zeta in *. fold (Render.setProps el0 oldProps) in Hr1, Ha1, Hc1.
  fold (Render.setProps el0 newProps) in HrF, HaF, HcF.
  set (l1 := Render.setProps el0 oldProps) in *.
  unfold Render.patchProps, diffProps. rewrite foldl_app, !foldl_omap.
  destruct (fold_set (fun k => strict_neq (get oldProps k) (get newProps k))
              (get newProps) (keys newProps) Hnew l1) as (Hr2 & Ha2 & Hc2).
  cbv zeta in *.
  match type of Hr2 with rest ?x = _ => set (l2 := x) in * end.
  destruct (fold_remove (fun k => negb (has newProps k)) (keys oldProps) Hold l2)
    as (Hr3 & Ha3 & Hc3).
  cbv zeta in *.
  match type of Hr3 with rest ?x = _ => set (l3 := x) in * end.
  assert (foldl (fun (a : Live) (k : string) =>
                   match (if negb (has newProps k) then Some (REMOVE_PROP k) else None) with
                   | Some (SET_PROP key v) => Render.setProp a key v
                   | Some (REMOVE_PROP key) => removeProp a key
                   | None => a
                   end)
                (foldl (fun (a : Live) (k : string) =>
                          match (if strict_neq (get oldProps k) (get newProps k)
                                 then Some (SET_PROP k (get newProps k)) else None) with
                          | Some (SET_PROP key v) => Render.setProp a key v
                          | Some (REMOVE_PROP key) => removeProp a key
                          | None => a
                          end) l1 (keys newProps))
                (keys oldProps) = l3) as ->.
  { subst l3 l2.
    rewrite (foldl_ext_eq _ (fun l k => if negb (has newProps k) then removeProp l k else l))
      by (intros a k; by destruct (negb (has newProps k))).
    f_equal. apply foldl_ext_eq. intros a k.
    by destruct (strict_neq (get oldProps k) (get newProps k)). }
  assert (forall k, k ∈ objectPrototype -> k ∉ keys oldProps /\ k ∉ keys newProps)
    as Hproto.
  { intros k Hk. split; intros Hin.
    - by apply (attrKey_plain k (Hold' k Hin)).
    - by apply (attrKey_plain k (Hnew' k Hin)). }
  apply live_eq.
  - by rewrite Hr3, Hr2, Hr1, HrF.
  - apply map_eq. intros k. rewrite Ha3, Ha2, Ha1, HaF.
    change (attributes (elem el0) !! k) with (@None value).
    destruct (decide (k ∈ objectPrototype)) as [Hp|Hp].
    { destruct (Hproto k Hp) as [Ho Hn].
      by rewrite (bool_decide_eq_false_2 (k ∈ keys oldProps)),
                 (bool_decide_eq_false_2 (k ∈ keys newProps)). }
    rewrite (has_keys newProps k Hp).
    destruct (bool_decide (k ∈ keys newProps)) eqn:Hn,
      (bool_decide (k ∈ keys oldProps)) eqn:Ho,
      (negb (String.eqb k "key")), (negb (String.eqb k "className")),
      (strict_neq (get oldProps k) (get newProps k)) eqn:Hs; simpl; try done.
    + apply negb_false_iff, strict_eq_true in Hs. by rewrite Hs.
    + apply negb_false_iff, strict_eq_true in Hs.
      apply bool_decide_eq_true in Hn. apply bool_decide_eq_false in Ho.
      apply keys_get in Hn. rewrite <- Hs, (get_absent _ _ Hp Ho) in Hn.
      by destruct (Hdef k).
  - rewrite Hc3, Hc2, Hc1, HcF.
    assert ("className" ∉ objectPrototype) as Hp
      by (apply (bool_decide_unpack _); by vm_compute).
    rewrite (has_keys newProps _ Hp).
    change (className (elem el0)) with (VStr "").
    destruct (bool_decide ("className" ∈ keys newProps)) eqn:Hn,
      (bool_decide ("className" ∈ keys oldProps)) eqn:Ho,
      (strict_neq (get oldProps "className") (get newProps "className")) eqn:Hs;
      simpl; try done.
    + apply negb_false_iff, strict_eq_true in Hs. by rewrite Hs.
    + apply negb_false_iff, strict_eq_true in Hs.
      apply bool_decide_eq_true in Hn. apply bool_decide_eq_false in Ho.
      apply keys_get in Hn. rewrite <- Hs, (get_absent _ _ Hp Ho) in Hn.
      by destruct (Hdef "className").
Qed.

(** Extra X5.  Patching is as good as creating anew, for plain attributes and
    [className].  The keys of both mappings are [className] or plain
    attribute names (lower case, no [on...] handler, no [style], [value] or
    [class], no name that [Object.prototype] knows), the values are
    printable, the new mapping holds no [undefined], and [className] is not
    dropped.  Then the element created with the old mapping and patched with
    [diffProps] of the two is the element created with the new one. *)
Theorem patchProps_diffProps (ty : string) (oldProps newProps : object) :
  forallb attrProp oldProps = true ->
  forallb attrProp newProps = true ->
  (forall k, own newProps k <> Some VUndefined) ->
  ("className" ∈ keys oldProps -> "className" ∈ keys newProps) ->
  Render.patchProps (Render.setProps (mkLive (newElement None ty) ∅) oldProps)
                    (diffProps oldProps newProps)
  = Render.setProps (mkLive (newElement None ty) ∅) newProps.
Proof.
  intros Hold Hnew Hdef _.
  apply patchProps_setProps; [intros k|intros k|done]; by apply attrProp_attrKey.
Qed.

Lemma patchProps_diffProps_witness :
  Render.patchProps
    (Render.setProps (mkLive (newElement None "li") ∅)
       [("id", VStr "a"); ("className", VStr "x"); ("title", VStr "t"); ("key", VNum 1)])
    (diffProps [("id", VStr "a"); ("className", VStr "x"); ("title", VStr "t");
                ("key", VNum 1)]
               [("className", VStr "y"); ("id", VStr "a"); ("lang", VStr "en")])
  = Render.setProps (mkLive (newElement None "li") ∅)
      [("className", VStr "y"); ("id", VStr "a"); ("lang", VStr "en")].
Proof.
  apply patchProps_diffProps.
  - by vm_compute.
  - by vm_compute.
  - intros k. cbn -[String.eqb]. by repeat destruct (String.eqb _ k).
  - intros _. apply (bool_decide_unpack _). by vm_compute.
Defined.

(** ** The two renderers *)

Lemma foldl_ext_in {A B : Type} (g g' : A -> B -> A) (l : list B) (a : A) :
  (forall a b, b ∈ l -> g a b = g' a b) -> foldl g a l = foldl g' a l.
Proof.
  revert a. induction l as [|b l IH]; intros a Hg; simpl; [done|].
  rewrite Hg by left. apply IH. intros a' b' Hb'. apply Hg. by right.
Qed.

Lemma setProp_ns_none (l : Live) (key : string) (v : value) :
  key <> "xlinkHref" -> key <> "xlink:href" ->
  RenderNs.setProp l key v None = Render.setProp l key v.
Proof.
  intros H1 H2. unfold RenderNs.setProp, Render.setProp.
  rewrite (proj2 (String.eqb_neq key "xlinkHref")),
          (proj2 (String.eqb_neq key "xlink:href")) by done.
  simpl. rewrite andb_true_r. done.
Qed.

Lemma has_false_not_key (o : object) (k : string) : has o k = false -> k ∉ keys o.
Proof. unfold has. intros Hh [v Hv]%own_keys. by rewrite Hv in Hh. Qed.

(** Extra X7.  On a tree without [svg] and [math] elements and without xlink
    attributes, the namespace-aware renderer, started without namespace,
    builds the very tree that the first renderer builds. *)
Theorem createElement_ns_html (vnode : VNode) :
  htmlOnly vnode = true ->
  RenderNs.createElement vnode None = Render.createElement vnode.
Proof.
  induction vnode as [ty ps cs tx IH] using VNode_ind.
  cbn -[String.eqb has]. intros Hhtml.
  repeat (apply andb_prop in Hhtml as [Hhtml ?]).
  repeat match goal with H : negb _ = true |- _ => apply negb_true_iff in H end.
  destruct (String.eqb ty "TEXT"); [done|].
  unfold RenderNs.getNamespace, RenderNs.getChildNamespace.
  rewrite Hhtml. simpl.
  match goal with H : String.eqb ty "math" = false |- _ => rewrite H end.
  simpl. f_equal.
  - unfold RenderNs.setProps, Render.setProps. apply foldl_ext_in.
    intros a k Hk. apply setProp_ns_none; intros ->;
      match goal with H : has ps _ = false |- _ =>
        exact (has_false_not_key _ _ H Hk) end.
  - replace (if String.eqb ty "foreignObject" then None else None)
      with (@None string) by (by destruct (String.eqb ty "foreignObject")).
    apply map_ext_in. intros c Hc. rewrite Forall_forall in IH.
    apply IH; [by apply list_elem_of_In|].
    match goal with H : forallb _ _ = true |- _ =>
      rewrite forallb_forall in H; by apply H end.
Qed.

Lemma createElement_ns_html_witness :
  RenderNs.createElement
    (h "ul" [("className", VStr "list")] [inl (h "li" [("key", VStr "a")] [inr "A"])]) None
  = Render.createElement
      (h "ul" [("className", VStr "list")] [inl (h "li" [("key", VStr "a")] [inr "A"])]).
Proof. apply createElement_ns_html. reflexivity. Defined.

Lemma setPropNs_namespace (l : Live) (key : string) (v : value) (ns : option string) :
  namespaceURI (elem (RenderNs.setProp l key v ns)) = namespaceURI (elem l).
Proof.
  unfold RenderNs.setProp, setHandler. repeat case_match; done.
Qed.

Lemma setPropsNs_namespace (l : Live) (ps : object) (ns : option string) :
  namespaceURI (elem (RenderNs.setProps l ps ns)) = namespaceURI (elem l).
Proof.
  unfold RenderNs.setProps. revert l.
  induction (keys ps) as [|k ks IH]; intros l; simpl; [done|].
  by rewrite IH, setPropNs_namespace.
Qed.

(** Extra X8.  Inside SVG everything is SVG.  When the root is an [svg] element,
    or is created inside the SVG namespace and is not a [math] element, and
    the tree has no [math] and no [foreignObject] element, every element
    that [createElement] builds is in the SVG namespace. *)
Theorem createElement_svg (vnode : VNode) (ns : option string) :
  svgOnly vnode = true ->
  RenderNs.getNamespace (type vnode) ns = Some RenderNs.SVG_NS ->
  forall l, l ∈ elements (RenderNs.createElement vnode ns) ->
            namespaceURI (elem l) = Some RenderNs.SVG_NS.
Proof.
  revert ns. induction vnode as [ty ps cs tx IH] using VNode_ind.
  intros ns. cbn -[String.eqb RenderNs.setProps]. intros Hsvg Hns l.
  repeat (apply andb_prop in Hsvg as [Hsvg ?]).
  repeat match goal with H : negb _ = true |- _ => apply negb_true_iff in H end.
  destruct (String.eqb ty "TEXT"); [by intros ?%elem_of_nil|].
  cbn -[String.eqb RenderNs.setProps]. rewrite Hns. rewrite elem_of_cons.
  intros [->|Hin].
  - by rewrite setPropsNs_namespace.
  - apply list_elem_of_In, in_flat_map in Hin as (t & Ht & Hl).
    apply in_map_iff in Ht as (c & <- & Hc).
    rewrite Forall_forall in IH.
    apply (IH c (proj2 (list_elem_of_In _ _) Hc)
              (RenderNs.getChildNamespace ty (Some RenderNs.SVG_NS))).
    + match goal with H : forallb _ _ = true |- _ =>
        rewrite forallb_forall in H; by apply H end.
    + unfold RenderNs.getChildNamespace, RenderNs.getNamespace.
      match goal with H : String.eqb ty "foreignObject" = false |- _ => rewrite H end.
      destruct (String.eqb (type c) "svg"); [done|].
      assert (svgOnly c = true) as Hc'.
      { match goal with H : forallb _ _ = true |- _ =>
          rewrite forallb_forall in H; by apply H end. }
      destruct c as [cty ? ? ?]. cbn -[String.eqb] in *.
      repeat (apply andb_prop in Hc' as [Hc' ?]).
      apply negb_true_iff in Hc'. by rewrite Hc'.
    + by apply list_elem_of_In.
Qed.

Lemma createElement_svg_witness :
  Forall (fun l => namespaceURI (elem l) = Some RenderNs.SVG_NS)
    (elements (RenderNs.createElement
                 (h "svg" [("viewBox", VStr "0 0 1 1")]
                    [inl (h "g" [] [inl (h "circle" [("r", VStr "1")] [])])]) None)).
Proof. apply Forall_forall. apply createElement_svg; reflexivity. Defined.

(** ** Event handlers *)

Lemma filter_not_elem {A : Type} `{EqDecision A} (x : A) (l : list A) :
  x ∉ l -> filter (fun y => y <> x) l = l.
Proof.
  induction l as [|a l IH]; intros Hx; [done|].
  rewrite filter_cons, decide_True by set_solver.
  rewrite IH; [done|]. set_solver.
Qed.

Lemma setProp_on (l : Live) (key : string) (v : value) :
  String.prefix "on" key = true -> Render.setProp l key v = setHandler l key v.
Proof.
  intros Hon. unfold Render.setProp. rewrite Hon.
  destruct (String.eqb_spec key "key") as [->|_]; [done|done].
Qed.

Lemma remove_add_listener (e : Element) (ev : string) (f : value) :
  (ev, f) ∉ listeners e -> removeEventListener (addEventListener e ev f) ev f = e.
Proof.
  intros Hl. destruct e as [tn nsu atts ans cn st va ls]. simpl in *.
  unfold removeEventListener, addEventListener. simpl.
  rewrite bool_decide_eq_false_2 by done.
  rewrite filter_app, (filter_not_elem _ ls) by done.
  rewrite filter_cons, decide_False by (by intros []).
  by rewrite filter_nil, app_nil_r.
Qed.

Lemma listener_truthy (f : value) : listener f = true -> truthy f = true.
Proof. by destruct f. Qed.

(** Extra X6.  An [on...] handler registers one listener and leaves none behind.
    [f] and [g] are listeners, objects or functions, which is what
    [addEventListener] takes.  On an element that has no handler under [key]
    and does not listen to the event with [f], setting the handler [f] and
    removing the prop gives the element back; and setting [f] and then [g]
    is the same as setting [g] alone: the listener [f] is removed before [g]
    is added. *)
Theorem handler_replaced (l : Live) (key : string) (f g : value) :
  String.prefix "on" key = true ->
  listener f = true ->
  listener g = true ->
  handlers l !! key = None ->
  (eventNameOf key, f) ∉ listeners (elem l) ->
  removeProp (Render.setProp l key f) key = l
  /\ Render.setProp (Render.setProp l key f) key g = Render.setProp l key g.
Proof.
  intros Hon Hf%listener_truthy _ Hh Hl. rewrite !setProp_on by done.
  destruct l as [e hs]. simpl in *.
  unfold removeProp, setHandler. simpl. rewrite Hon, Hh. simpl.
  rewrite lookup_insert_eq, Hf. simpl.
  rewrite remove_add_listener by done.
  split.
  - f_equal. apply delete_insert_id. done.
  - f_equal. by rewrite insert_insert_eq.
Qed.

Lemma handler_replaced_witness :
  removeProp (Render.setProp (mkLive (newElement None "button") ∅) "onClick" (VFun 1))
             "onClick"
  = mkLive (newElement None "button") ∅
  /\ listeners (elem (Render.setProp
                        (Render.setProp (mkLive (newElement None "button") ∅)
                                        "onClick" (VFun 1))
                        "onClick" (VFun 2)))
     = [("click", VFun 2)].
Proof.
  destruct (handler_replaced (mkLive (newElement None "button") ∅) "onClick"
              (VFun 1) (VFun 2)) as [Hrm Hset];
    [reflexivity|reflexivity|reflexivity|reflexivity|by intros ?%elem_of_nil|].
  split; [exact Hrm|]. rewrite Hset. reflexivity.
Defined.

End RenderMoreFacts.

(** * More facts about the reactive store *)

Section ReactiveMoreFacts.
Import Reactive ReactiveMore Scenario.

(** Extra X17.  An effect that writes a property it is itself the only subscriber
    of is not called again by its own write: the write stores the value and
    returns at once, however little call stack is left. *)
Theorem self_write_suppressed (call : nat -> State -> option State)
    (l : loc) (v : value) (s : State) (e : nat) :
  currentEffect s = Some e ->
  (forall e', e' ∈ subscribers s l -> e' = e) ->
  proxy_set call l v s = Some (store l v s).
Proof.
  intros Hcur Hsub. unfold proxy_set. destruct (strict_neq _ _); [|done].
  unfold trigger. change (deps (store l v s) !! l) with (deps s !! l).
  unfold subscribers in Hsub. destruct (deps s !! l) as [effs|]; [|done].
  simpl in Hsub. generalize (store l v s), (eq_refl : currentEffect (store l v s) = currentEffect s).
  intros s1 Hs1. rewrite Hcur in Hs1.
  induction effs as [|e' effs IH]; [done|]. cbn [forEachEffect].
  rewrite (Hsub e') by left. rewrite bool_decide_eq_false_2 by (rewrite Hs1; by intros []).
  apply IH. intros e'' He''. apply Hsub. by right.
Qed.

Lemma self_write_suppressed_witness :
  (effect 1 (increment count) counterStore ≫= fun '(e, s) =>
   Some (read s count, runs (trace s), subscribers s count))
  = Some (VNum 1, [0%nat], [0%nat])
  /\ proxy_set (invoke 0) count (VNum 5) (enter 0 counterReady)
     = Some (store count (VNum 5) (enter 0 counterReady)).
Proof.
  split; [by vm_compute|].
  apply (self_write_suppressed _ _ _ _ 0%nat); [reflexivity|].
  intros e' He'. vm_compute in He'. by apply list_elem_of_singleton in He'.
Defined.

(** ** Effects that only read *)










(** ** Proxies, calls and the invariant *)

(** Extra X16.  Whatever a call of an effect or a write does, when it returns the
    current effect is the one it was before (the [finally] of a wrapped
    effect), and the registered effects are the same functions; nothing is
    ever taken off the trace. *)
Theorem call_restores :
  (forall fuel e s s',
     invoke fuel e s = Some s' ->
     currentEffect s' = currentEffect s
     /\ length (effects s') = length (effects s)
     /\ (forall e', fn <$> effects s' !! e' = fn <$> effects s !! e')
     /\ trace s `prefix_of` trace s')
  /\ (forall fuel l v s s',
        write fuel l v s = Some s' ->
        currentEffect s' = currentEffect s
        /\ length (effects s') = length (effects s)
        /\ (forall e', fn <$> effects s' !! e' = fn <$> effects s !! e')
        /\ trace s `prefix_of` trace s').
Proof.
  split.
  - intros fuel e s s' Hinv.
    pose proof (invoke_R deeper deeper_refl deeper_trans deeper_get deeper_store
                  deeper_call _ _ _ _ Hinv) as [(Hc & _ & Hl & Hf) (t & Ht & _)].
    repeat split; try done. rewrite Ht. by apply prefix_app_r.
  - intros fuel l v s s' Hw.
    pose proof (write_R deeper deeper_refl deeper_trans deeper_get deeper_store
                  deeper_call _ _ _ _ _ Hw) as [(Hc & _ & Hl & Hf) (t & Ht & _)].
    repeat split; try done. rewrite Ht. by apply prefix_app_r.
Qed.

Lemma call_restores_witness :
  exists s', write 2 x (VNum 1) twoEffects = Some s'
             /\ currentEffect s' = currentEffect twoEffects
             /\ length (effects s') = length (effects twoEffects).
Proof.
  destruct call_restores as [_ Hw].
  destruct (write 2 x (VNum 1) twoEffects) as [s'|] eqn:Hs';
    [|by vm_compute in Hs'].
  destruct (Hw 2%nat x (VNum 1) twoEffects s' Hs') as (Hc & Hl & _).
  by exists s'.
Defined.

(** Extra X13.  The dependency graph stays consistent.  In every state that
    scripts reach from the empty one by [createReactive], [effect] and writes,
    a dependency set holds no effect twice, every subscriber is a registered
    effect whose [deps] array holds that set (so that [cleanup] finds it), and
    the current effect is registered. *)
Theorem graph_invariant :
  wf state0
  /\ (forall o s, wf s -> wf (createReactive o s).2)
  /\ (forall fuel f s e s', effect fuel f s = Some (e, s') -> wf s -> wf s')
  /\ (forall fuel l v s s', write fuel l v s = Some s' -> wf s -> wf s').
Proof.
  split; [apply wf_state0|]. split; [apply wf_createReactive|].
  split; [intros fuel f s e s'; apply wf_effect|apply wf_write].
Qed.

Lemma graph_invariant_witness :
  exists s', write 2 x (VNum 1) twoEffects = Some s' /\ wf s'.
Proof.
  destruct graph_invariant as (_ & _ & _ & Hw).
  destruct (write 2 x (VNum 1) twoEffects) as [s'|] eqn:Hs';
    [|by vm_compute in Hs'].
  exists s'. split; [reflexivity|]. apply (Hw 2%nat x (VNum 1) twoEffects s' Hs').
  apply wf_twoEffects.
Defined.

End ReactiveMoreFacts.

(** * The patcher: [patch] and [patchKeyedChildren] *)

Section PatchFacts.
Import Vdom Dom Patcher.

(** ** Children by identity and by place *)

Lemma nodeId_lookup (kids : list Node) (j : nat) (n : Node) :
  kids !! j = Some n -> nodeId n ∈ nodeId <$> kids.
Proof.
  intros Hj. apply list_elem_of_fmap. exists n. split; [done|].
  by apply list_elem_of_lookup_2 with j.
Qed.

Lemma NoDup_nodeId_lookup (kids : list Node) (i j : nat) (n m : Node) :
  NoDup (nodeId <$> kids) -> kids !! i = Some n -> kids !! j = Some m ->
  nodeId n = nodeId m -> i = j.
Proof.
  intros Hnd Hi Hj Heq.
  apply (NoDup_lookup _ i j (nodeId n) Hnd); rewrite list_lookup_fmap.
  - by rewrite Hi.
  - by rewrite Hj, Heq.
Qed.

Lemma findNode_lookup (kids : list Node) (j : nat) (n : Node) :
  NoDup (nodeId <$> kids) -> kids !! j = Some n ->
  findNode (nodeId n) kids = Some n.
Proof.
  revert j. induction kids as [|k kids IH]; intros j Hnd Hj; [done|].
  apply NoDup_cons in Hnd as [Hk Hnd]. simpl.
  destruct j as [|j]; simpl in Hj.
  - injection Hj as ->. by rewrite Nat.eqb_refl.
  - destruct (Nat.eqb_spec (nodeId k) (nodeId n)) as [Heq|_]; [|by apply IH with j].
    destruct Hk. rewrite Heq. by apply nodeId_lookup with j.
Qed.

Lemma findNode_None (kids : list Node) (id : nat) :
  id ∉ nodeId <$> kids -> findNode id kids = None.
Proof.
  induction kids as [|k kids IH]; intros Hid; [done|]. simpl in *.
  apply not_elem_of_cons in Hid as [Hne Hid].
  destruct (Nat.eqb_spec (nodeId k) id); [done|by apply IH].
Qed.

Lemma findNode_Some (kids : list Node) (id : nat) (n : Node) :
  findNode id kids = Some n -> exists j, kids !! j = Some n /\ nodeId n = id.
Proof.
  induction kids as [|k kids IH]; [done|]. simpl.
  destruct (Nat.eqb_spec (nodeId k) id) as [Heq|_].
  - intros [= ->]. by exists 0.
  - intros Hf. destruct (IH Hf) as (j & Hj & Hid). by exists (S j).
Qed.

Lemma replaceNode_lookup (kids : list Node) (j : nat) (n n' : Node) :
  NoDup (nodeId <$> kids) -> kids !! j = Some n ->
  replaceNode (nodeId n) n' kids = <[j := n']> kids.
Proof.
  revert j. induction kids as [|k kids IH]; intros j Hnd Hj; [done|].
  apply NoDup_cons in Hnd as [Hk Hnd]. simpl.
  destruct j as [|j]; simpl in Hj.
  - injection Hj as ->. by rewrite Nat.eqb_refl.
  - destruct (Nat.eqb_spec (nodeId k) (nodeId n)) as [Heq|_].
    + destruct Hk. rewrite Heq. by apply nodeId_lookup with j.
    + simpl. f_equal. by apply IH.
Qed.

Lemma removeNode_lookup (kids : list Node) (j : nat) (n : Node) :
  NoDup (nodeId <$> kids) -> kids !! j = Some n ->
  removeNode (nodeId n) kids = delete j kids.
Proof.
  revert j. induction kids as [|k kids IH]; intros j Hnd Hj; [done|].
  apply NoDup_cons in Hnd as [Hk Hnd]. simpl.
  destruct j as [|j]; simpl in Hj.
  - injection Hj as ->. by rewrite Nat.eqb_refl.
  - destruct (Nat.eqb_spec (nodeId k) (nodeId n)) as [Heq|_].
    + destruct Hk. rewrite Heq. by apply nodeId_lookup with j.
    + simpl. f_equal. by apply IH.
Qed.

Lemma insertNode_lookup (kids : list Node) (i : nat) (ref n : Node) :
  NoDup (nodeId <$> kids) -> kids !! i = Some ref ->
  insertNode n (nodeId ref) kids = (take i kids ++ n :: drop i kids)%list.
Proof.
  revert i. induction kids as [|k kids IH]; intros i Hnd Hi; [done|].
  apply NoDup_cons in Hnd as [Hk Hnd]. simpl.
  destruct i as [|i]; simpl in Hi.
  - injection Hi as ->. by rewrite Nat.eqb_refl.
  - destruct (Nat.eqb_spec (nodeId k) (nodeId ref)) as [Heq|_].
    + destruct Hk. rewrite Heq. by apply nodeId_lookup with i.
    + simpl. f_equal. by apply IH.
Qed.

(** ** Identities in use *)

Lemma wfNode_mono (next next' : nat) (n : Node) :
  next <= next' -> wfNode next n -> wfNode next' n.
Proof.
  intros Hle. induction n as [i d|i l cs IH] using Node_ind; intros Hwf.
  - inversion Hwf; subst. constructor. lia.
  - inversion Hwf as [|? ? ? Hi Hnd Hcs]; subst. constructor; [lia|done|].
    apply Forall_forall. intros c Hc.
    rewrite Forall_forall in IH. apply IH; [done|].
    rewrite Forall_forall in Hcs. by apply Hcs.
Qed.

Lemma wfNode_lt (next : nat) (n : Node) : wfNode next n -> nodeId n < next.
Proof. by inversion 1. Qed.

Lemma wfKids_mono (next next' : nat) (kids : list Node) :
  next <= next' -> wfKids next kids -> wfKids next' kids.
Proof.
  intros Hle [Hnd Hwf]. split; [done|].
  eapply Forall_impl; [done|]. intros n. by apply wfNode_mono.
Qed.

Lemma wfKids_lt (next : nat) (kids : list Node) (id : nat) :
  wfKids next kids -> id ∈ nodeId <$> kids -> id < next.
Proof.
  intros [_ Hwf] (n & -> & Hn)%list_elem_of_fmap.
  rewrite Forall_forall in Hwf. by apply wfNode_lt, Hwf.
Qed.

Lemma wfKids_nil (next : nat) : wfKids next [].
Proof. split; constructor. Qed.

Lemma wfKids_snoc (next next' : nat) (kids : list Node) (n : Node) :
  wfKids next kids -> next <= nodeId n -> wfNode next' n -> next <= next' ->
  wfKids next' (kids ++ [n]).
Proof.
  intros Hk Hid Hn Hle. split.
  - rewrite fmap_app. apply NoDup_app. split; [apply Hk|]. split; [|apply NoDup_singleton].
    intros id Hin Hin'. apply list_elem_of_singleton in Hin' as ->.
    apply (wfKids_lt _ _ _ Hk) in Hin. lia.
  - apply Forall_app. split; [|by constructor].
    by apply (wfKids_mono next next').
Qed.

Lemma wfKids_insert (next next' : nat) (kids : list Node) (j : nat) (n n' : Node) :
  wfKids next kids -> kids !! j = Some n ->
  nodeId n' = nodeId n \/ next <= nodeId n' ->
  wfNode next' n' -> next <= next' ->
  wfKids next' (<[j := n']> kids).
Proof.
  intros Hk Hj Hid Hn Hle. split.
  - assert (forall b, b <> j -> (nodeId <$> kids) !! b <> Some (nodeId n')) as Hfresh.
    { intros b Hb Hlk. destruct Hid as [Hid|Hid].
      - rewrite Hid in Hlk. apply Hb.
        apply (NoDup_lookup _ b j (nodeId n) (proj1 Hk)); [done|].
        by rewrite list_lookup_fmap, Hj.
      - assert (nodeId n' < next); [|lia].
        apply (wfKids_lt _ kids _ Hk). by apply list_elem_of_lookup_2 with b. }
    rewrite list_fmap_insert. apply NoDup_alt. intros a b x.
    rewrite !list_lookup_insert_Some.
    intros [(Ha & Hx & _)|[Hne Ha]] [(Hb & Hx' & _)|[Hne' Hb]].
    + congruence.
    + subst x. by destruct (Hfresh b).
    + subst x. by destruct (Hfresh a).
    + apply (NoDup_lookup _ a b x (proj1 Hk)); done.
  - apply Forall_insert; [|done].
    eapply Forall_impl; [apply Hk|]. intros m. by apply wfNode_mono.
Qed.

Lemma wfKids_delete (next : nat) (kids : list Node) (j : nat) :
  wfKids next kids -> wfKids next (delete j kids).
Proof.
  intros [Hnd Hwf]. split.
  - apply (sublist_NoDup _ _ Hnd), fmap_sublist, sublist_delete.
  - apply (Forall_delete _ _ _ Hwf).
Qed.

(** ** The reordering loop of [patchKeyedChildren] *)

Lemma same_node (l : list Node) (n m : Node) :
  NoDup (nodeId <$> l) -> n ∈ l -> m ∈ l -> nodeId n = nodeId m -> n = m.
Proof.
  intros Hnd [a Ha]%list_elem_of_lookup_1 [b Hb]%list_elem_of_lookup_1 Heq.
  assert (a = b) as -> by by apply (NoDup_nodeId_lookup l a b n m).
  congruence.
Qed.

Lemma NoDup_nodeId_app (l k : list Node) :
  NoDup (nodeId <$> (l ++ k)%list) ->
  NoDup (nodeId <$> l) /\ NoDup (nodeId <$> k)
  /\ forall n m, n ∈ l -> m ∈ k -> nodeId n <> nodeId m.
Proof.
  rewrite fmap_app. intros (Hl & Hlk & Hk)%NoDup_app. split; [done|]. split; [done|].
  intros n m Hn Hm Heq. apply (Hlk (nodeId n)).
  - by apply list_elem_of_fmap_2.
  - rewrite Heq. by apply list_elem_of_fmap_2.
Qed.

Lemma take_S_middle {A : Type} (l k : list A) (x : A) (n : nat) :
  n = length l -> take (S n) (l ++ x :: k) = (l ++ [x])%list.
Proof.
  intros ->. rewrite take_app_ge by lia.
  by replace (S (length l) - length l) with 1 by lia.
Qed.

Lemma reorder_spec (rest : list Node) :
  forall done kids pool,
    NoDup (nodeId <$> (done ++ rest)%list) ->
    take (length done) kids = done ->
    (forall N, N ∈ rest -> N ∈ (kids ++ pool)%list) ->
    NoDup (nodeId <$> (kids ++ pool)%list) ->
    exists kids' pool',
      reorder ((fun N => Some (Some (nodeId N))) <$> rest) (length done) kids pool
        = Some (kids', pool')
      /\ take (length (done ++ rest)%list) kids' = (done ++ rest)%list
      /\ (kids' ++ pool')%list ≡ₚ (kids ++ pool)%list.
Proof.
  induction rest as [|N rest IH]; intros done kids pool Hnd Htake Hin Hall.
  - exists kids, pool. by rewrite !app_nil_r.
  - set (i := length done) in *.
    assert (forall kids1 pool1,
              take (S i) kids1 = (done ++ [N])%list ->
              (kids1 ++ pool1)%list ≡ₚ (kids ++ pool)%list ->
              exists kids' pool',
                reorder ((fun N => Some (Some (nodeId N))) <$> rest) (S i) kids1 pool1
                  = Some (kids', pool')
                /\ take (length (done ++ N :: rest)%list) kids' = (done ++ N :: rest)%list
                /\ (kids' ++ pool')%list ≡ₚ (kids ++ pool)%list) as Hnext.
    { intros kids1 pool1 Htake1 Hperm.
      destruct (IH (done ++ [N])%list kids1 pool1) as (kids' & pool' & Hrun & Ht & Hp).
      - by rewrite <- app_assoc.
      - rewrite length_app. simpl. by rewrite Nat.add_1_r.
      - intros N' HN'. rewrite Hperm. apply Hin. by right.
      - by rewrite Hperm.
      - rewrite length_app in Hrun. simpl in Hrun. rewrite Nat.add_1_r in Hrun.
        exists kids', pool'. rewrite <- app_assoc in Ht. simpl in Ht.
        split; [done|]. split; [done|]. by rewrite Hp. }
    assert (N ∈ (kids ++ pool)%list) as HN by (apply Hin; by left).
    destruct (NoDup_nodeId_app _ _ Hall) as (Hndk & Hndp & Hapart).
    assert (nodeId N ∉ nodeId <$> done) as Hfresh.
    { rewrite fmap_app in Hnd. apply NoDup_app in Hnd as (_ & Hd & _).
      intros Hd'. apply (Hd _ Hd'). simpl. by left. }
    rewrite fmap_cons. cbn [reorder]. case_bool_decide as Hat.
    + (* the node is in place *)
      apply Hnext; [|done].
      destruct (kids !! i) as [m|] eqn:Hm; [|done]. simpl in Hat. injection Hat as Hat.
      assert (m = N) as ->.
      { apply (same_node (kids ++ pool)%list); [done| |done|done].
        apply elem_of_app. left. by apply list_elem_of_lookup_2 with i. }
      by rewrite (take_S_r _ _ _ Hm), Htake.
    + unfold insertBefore. destruct (findNode (nodeId N) kids) as [m|] eqn:Hfind.
      * (* the node is a child further on: it moves *)
        apply findNode_Some in Hfind as (p & Hp & Hid).
        assert (m = N) as ->.
        { apply (same_node (kids ++ pool)%list); [done| |done|done].
          apply elem_of_app. left. by apply list_elem_of_lookup_2 with p. }
        assert (i < p) as Hip.
        { destruct (decide (p = i)) as [->|Hne].
          - rewrite Hp in Hat. by destruct Hat.
          - destruct (decide (p < i)) as [Hlt|]; [|lia].
            destruct Hfresh. apply list_elem_of_fmap_2.
            apply list_elem_of_lookup_2 with p.
            by rewrite <- Htake, lookup_take_lt. }
        pose proof (lookup_lt_Some _ _ _ Hp) as Hplen.
        destruct (kids !! i) as [ref|] eqn:Href;
          [|apply lookup_ge_None in Href; lia].
        rewrite (removeNode_lookup kids p N) by done.
        rewrite (insertNode_lookup (delete p kids) i ref N).
        2:{ apply (sublist_NoDup _ _ Hndk), fmap_sublist, sublist_delete. }
        2:{ by rewrite list_lookup_delete_lt. }
        assert (take i (delete p kids) = done) as Hd.
        { rewrite delete_take_drop, take_app_le by (rewrite length_take; lia).
          rewrite take_take. by replace (i `min` p) with i by lia. }
        apply Hnext.
        -- rewrite Hd. by apply take_S_middle.
        -- rewrite <- (Permutation_middle _ _ N), take_drop.
           rewrite <- (delete_Permutation kids p N) by done. done.
      * (* the node waits in the pool: it is inserted *)
        assert (N ∈ pool) as HNp.
        { apply elem_of_app in HN as [HNk|]; [|done].
          apply list_elem_of_lookup_1 in HNk as [p Hp].
          by rewrite (findNode_lookup kids p N) in Hfind. }
        apply list_elem_of_lookup_1 in HNp as [q Hq].
        rewrite (findNode_lookup pool q N), (removeNode_lookup pool q N) by done.
        assert ((N :: kids ++ delete q pool)%list ≡ₚ (kids ++ pool)%list) as Hperm.
        { rewrite (delete_Permutation pool q N Hq) at 2.
          by rewrite <- Permutation_middle. }
        destruct (kids !! i) as [ref|] eqn:Href.
        -- rewrite (insertNode_lookup kids i ref N) by done. apply Hnext.
           ++ rewrite Htake. by apply take_S_middle.
           ++ rewrite <- Hperm, <- app_assoc. simpl.
              rewrite <- (Permutation_middle _ _ N), app_assoc, take_drop. done.
        -- apply lookup_ge_None in Href.
           assert (kids = done) as -> by (by rewrite take_ge in Htake).
           apply Hnext.
           ++ by rewrite take_ge by (rewrite length_app; simpl; lia).
           ++ rewrite <- Hperm, <- app_assoc. simpl.
              by rewrite <- (Permutation_middle _ _ N).
Qed.

(** ** [createElement] *)

Lemma createElement_unfold (v : VNode) (next : nat) :
  createElement v next =
  if String.eqb (type v) "TEXT" then (TextNode next (text v), S next)
  else
    let '(kids, next') := forEachAlloc createElement (children v) (S next) in
    (ElementNode next (Render.setProps (blank (type v)) (props v)) kids, next').
Proof. by destruct v. Qed.

Lemma erase_createElement (v : VNode) :
  forall next, erase (createElement v next).1 = Render.createElement v.
Proof.
  induction v as [ty ps cs tx IH] using VNode_ind. intros next.
  rewrite createElement_unfold. simpl.
  destruct (String.eqb ty "TEXT"); [done|].
  destruct (forEachAlloc createElement cs (S next)) as [kids next'] eqn:Hall. simpl.
  f_equal. clear ps tx ty. revert kids next' Hall. generalize (S next) as m.
  induction IH as [|c cs Hc _ IHcs]; intros m kids next' Hall; simpl in Hall.
  - by injection Hall as <- <-.
  - specialize (Hc m). destruct (createElement c m) as [n m1].
    destruct (forEachAlloc createElement cs m1) as [ns m2] eqn:Hns.
    injection Hall as <- <-. simpl in *. f_equal; [done|]. by apply (IHcs m1 ns m2).
Qed.

Section Generic.

Variable Q : Live -> VNode -> Prop.
Variable D : VNode -> Prop.
Hypothesis Q_create :
  forall v, D v -> Q (Render.setProps (blank (type v)) (props v)) v.
Hypothesis Q_update :
  forall l old new, D old -> D new -> type old = type new -> Q l old ->
    Q (Render.patchProps l (diffProps (props old) (props new))) new.

Lemma forEachAlloc_shows (cs : list VNode) :
  Forall (fun c => forall next, exists n next',
            createElement c next = (n, next') /\ shows Q n c /\ nodeId n = next
            /\ next < next' /\ wfNode next' n) cs ->
  forall next, exists ns next',
    forEachAlloc createElement cs next = (ns, next')
    /\ Forall2 (shows Q) ns cs /\ next <= next'
    /\ Forall (fun n => next <= nodeId n) ns /\ wfKids next' ns.
Proof.
  induction 1 as [|c cs Hc _ IH]; intros next; simpl.
  - exists [], next. repeat split; try constructor; lia.
  - destruct (Hc next) as (n & next1 & -> & Hshow & Hid & Hlt & Hwf).
    destruct (IH next1) as (ns & next2 & -> & Hshows & Hle & Hlow & Hwfs).
    exists (n :: ns), next2. split; [done|]. split; [by constructor|].
    split; [lia|]. split.
    { constructor; [lia|]. eapply Forall_impl; [done|]. simpl. intros; lia. }
    destruct Hwfs as [Hnd Hall]. split.
    + simpl. apply NoDup_cons. split; [|done].
      intros (m & Hm & Hin)%list_elem_of_fmap.
      rewrite Forall_forall in Hlow. specialize (Hlow m Hin). lia.
    + constructor; [|done]. by apply (wfNode_mono next1); [lia|].
Qed.

Lemma createElement_shows (v : VNode) :
  wellFormed D v ->
  forall next, exists n next',
    createElement v next = (n, next') /\ shows Q n v /\ nodeId n = next
    /\ next < next' /\ wfNode next' n.
Proof.
  induction v as [ty ps cs tx IH] using VNode_ind.
  intros Hwf next. inversion Hwf as [? HD Htext Hkeys Hcs]; subst.
  rewrite createElement_unfold. simpl in *.
  destruct (String.eqb_spec ty "TEXT") as [->|Hty].
  - exists (TextNode next tx), (S next). split; [done|].
    split; [by apply (shows_text Q next (mkVNode "TEXT" ps cs tx))|].
    split; [done|]. split; [lia|]. constructor. lia.
  - assert (Forall (fun c => forall next, exists n next',
              createElement c next = (n, next') /\ shows Q n c /\ nodeId n = next
              /\ next < next' /\ wfNode next' n) cs) as Hall.
    { rewrite Forall_forall in IH, Hcs |- *. intros c Hc. by apply IH, Hcs. }
    destruct (forEachAlloc_shows cs Hall (S next))
      as (ns & next' & -> & Hshows & Hle & Hlow & Hnd & Hwfs).
    eexists _, next'. split; [done|]. split.
    { apply (shows_elem Q next _ ns (mkVNode ty ps cs tx)); [done| |done].
      by apply (Q_create (mkVNode ty ps cs tx)). }
    split; [done|]. split; [lia|]. constructor; [lia|done|done].
Qed.

(** ** [patch] on an absent side *)

Lemma patch_S (fuel : nat) : patch (S fuel) = patchBody (patch fuel).
Proof. done. Qed.

#[local] Arguments patch : simpl never.

Lemma patch_create (fuel : nat) (kids : list Node) (el : option nat) (v : VNode)
    (next : nat) :
  wellFormed D v ->
  exists n next',
    patch (S fuel) kids el None (Some v) next
      = Some ((kids ++ [n])%list, Some (nodeId n), next')
    /\ shows Q n v /\ nodeId n = next /\ next < next' /\ wfNode next' n.
Proof.
  intros Hwf. destruct (createElement_shows v Hwf next) as (n & next' & Hc & Hrest).
  exists n, next'. split; [|done].
  rewrite patch_S. unfold patchBody. rewrite diff_unfold. by rewrite Hc.
Qed.

Lemma patch_remove (fuel : nat) (kids : list Node) (j : nat) (n : Node) (old : VNode)
    (next : nat) :
  NoDup (nodeId <$> kids) -> kids !! j = Some n ->
  patch (S fuel) kids (Some (nodeId n)) (Some old) None next
    = Some (delete j kids, None, next).
Proof.
  intros Hnd Hj. rewrite patch_S. unfold patchBody. rewrite diff_unfold.
  by rewrite (findNode_lookup kids j n), (removeNode_lookup kids j n).
Qed.

(** ** The positional loop *)

Lemma patchPositional_spec (fuel : nat) (old new : VNode) (cs0 : list Node) :
  Forall2 (shows Q) cs0 (children old) ->
  Forall (wellFormed D) (children new) ->
  (forall i o c, children old !! i = Some o -> children new !! i = Some c ->
                 patchSpec Q (patch (S fuel)) o c) ->
  forall k i A next,
    i + k = max (length (children old)) (length (children new)) ->
    wfKids next (A ++ drop i cs0) ->
    Forall2 (shows Q) A (take i (children new)) ->
    keepsPositional cs0 A (take i (children old)) (take i (children new)) ->
    exists cs' next',
      patchPositional (patch (S fuel)) (nodeId <$> cs0) old new (seq i k)
                      (A ++ drop i cs0) next = Some (cs', next')
      /\ Forall2 (shows Q) cs' (children new) /\ wfKids next' cs' /\ next <= next'
      /\ keepsPositional cs0 cs' (children old) (children new).
Proof.
  set (olds := children old). set (news := children new).
  intros Hcs0 Hnews Hspec.
  pose proof (Forall2_length _ _ _ Hcs0) as Hlen0.
  induction k as [|k IH]; intros i A next Hik Hwf HA Hkept.
  - exists (A ++ drop i cs0)%list, next. split; [done|].
    rewrite drop_ge, app_nil_r in * by lia.
    rewrite !take_ge in * by lia. done.
  - cbn [seq patchPositional]. fold olds news.
    pose proof (Forall2_length _ _ _ HA) as HlenA. rewrite length_take in HlenA.
    destruct (news !! i) as [c|] eqn:Hc, (olds !! i) as [o|] eqn:Ho.
    + (* both present: the child is patched in place *)
      pose proof (lookup_lt_Some _ _ _ Hc). pose proof (lookup_lt_Some _ _ _ Ho).
      destruct (Forall2_lookup_r _ _ _ _ _ Hcs0 Ho) as (n & Hn & Hshow).
      rewrite list_lookup_fmap, Hn. simpl.
      assert ((A ++ drop i cs0)%list !! i = Some n) as Hi.
      { rewrite lookup_app_r by lia. rewrite lookup_drop.
        replace (i + (i - length A)) with i by lia. done. }
      destruct (Hspec i o c Ho Hc _ i n next Hwf Hi Hshow)
        as (n' & next' & -> & Hshow' & Hle & Hwf' & Hid & Hsame & _).
      assert (<[i := n']> (A ++ drop i cs0) = (A ++ [n']) ++ drop (S i) cs0)%list as Heq.
      { rewrite insert_app_r_alt by lia. replace (i - length A) with 0 by lia.
        rewrite (drop_S _ _ _ Hn). simpl. by rewrite <- app_assoc. }
      rewrite Heq.
      destruct (IH (S i) (A ++ [n'])%list next') as (cs' & next2 & -> & ? & ? & ? & ?).
      * lia.
      * rewrite <- Heq. by apply (wfKids_insert next next' _ i n).
      * rewrite (take_S_r _ _ _ Hc). apply Forall2_app; [done|by constructor].
      * intros k' c' oc' Hc' Ho' Hty.
        apply lookup_take_Some in Hc' as [Hc' Hk']. apply lookup_take_Some in Ho' as [Ho' _].
        destruct (decide (k' = i)) as [->|Hne].
        -- rewrite lookup_app_r, HlenA by lia.
           replace (i - i `min` length news) with 0 by lia. simpl.
           rewrite Hn. simpl. f_equal. apply Hsame. congruence.
        -- rewrite lookup_app_l by lia.
           apply (Hkept k' c' oc'); [| |done]; apply lookup_take_Some; split; (done || lia).
      * exists cs', next2. split_and!; [done..|lia|done].
    + (* no old child: the new one is created and appended *)
      pose proof (lookup_lt_Some _ _ _ Hc). apply lookup_ge_None in Ho.
      rewrite list_lookup_fmap, (proj2 (lookup_ge_None cs0 i)) by lia. simpl.
      rewrite Forall_forall in Hnews.
      assert (wellFormed D c) as Hwfc.
      { apply Hnews. by apply list_elem_of_lookup_2 with i. }
      destruct (patch_create fuel (A ++ drop i cs0) None c next Hwfc)
        as (n & next' & -> & Hshow & Hid & Hlt & Hwfn).
      rewrite (drop_ge cs0 i), app_nil_r in * by lia.
      destruct (IH (S i) (A ++ [n])%list next') as (cs' & next2 & Hrun & ? & ? & ? & ?).
      * lia.
      * rewrite drop_ge, app_nil_r by lia.
        apply (wfKids_snoc next); [done|lia|done|lia].
      * rewrite (take_S_r _ _ _ Hc). apply Forall2_app; [done|by constructor].
      * intros k' c' oc' Hc' Ho' Hty.
        apply lookup_take_Some in Hc' as [Hc' Hk']. apply lookup_take_Some in Ho' as [Ho' _].
        pose proof (lookup_lt_Some _ _ _ Ho') as Hlt'.
        rewrite lookup_app_l by lia.
        apply (Hkept k' c' oc'); [| |done]; apply lookup_take_Some; split; (done || lia).
      * rewrite drop_ge, app_nil_r in Hrun by lia. rewrite Hrun.
        exists cs', next2. split_and!; [done..|lia|done].
    + (* no new child: the old one is removed *)
      apply lookup_ge_None in Hc. pose proof (lookup_lt_Some _ _ _ Ho).
      destruct (Forall2_lookup_r _ _ _ _ _ Hcs0 Ho) as (n & Hn & Hshow).
      rewrite list_lookup_fmap, Hn. simpl.
      assert ((A ++ drop i cs0)%list !! length A = Some n) as Hi.
      { rewrite lookup_app_r by lia. rewrite lookup_drop.
        replace (i + (length A - length A)) with i by lia. done. }
      rewrite (patch_remove fuel _ (length A) n) by (done || apply Hwf).
      assert (delete (length A) (A ++ drop i cs0) = A ++ drop (S i) cs0)%list as Heq.
      { rewrite (drop_S _ _ _ Hn).
        rewrite delete_take_drop, take_app_length, (cons_middle n), app_assoc.
        by rewrite drop_app_length'; [|rewrite length_app; simpl; lia]. }
      rewrite Heq.
      destruct (IH (S i) A next) as (cs' & next2 & -> & ? & ? & ? & ?).
      * lia.
      * rewrite <- Heq. by apply wfKids_delete.
      * by rewrite take_ge in * by lia.
      * intros k' c' oc' Hc' Ho' Hty.
        apply lookup_take_Some in Hc' as [Hc' Hk']. apply lookup_take_Some in Ho' as [Ho' _].
        pose proof (lookup_lt_Some _ _ _ Hc') as Hlt'.
        apply (Hkept k' c' oc'); [| |done]; apply lookup_take_Some; split; (done || lia).
      * by exists cs', next2.
    + apply lookup_ge_None in Hc, Ho. lia.
Qed.

(** ** The first loop of [patchKeyedChildren] *)

Lemma arraySet_snoc {A B : Type} (f : A -> option B) (l : list A) (i : nat) (x : B) :
  i = length l -> arraySet (f <$> l) i x = ((f <$> l) ++ [Some x])%list.
Proof.
  intros ->. unfold arraySet. rewrite length_fmap.
  rewrite bool_decide_eq_false_2 by lia. by rewrite Nat.sub_diag.
Qed.

Lemma patchKeyedEntries_app p snap old new (ps1 ps2 : list ChildPatch) :
  forall st,
    patchKeyedEntries p snap old new (ps1 ++ ps2) st
    = patchKeyedEntries p snap old new ps1 st
        ≫= patchKeyedEntries p snap old new ps2.
Proof.
  induction ps1 as [|e ps1 IH]; intros st; [done|].
  destruct e as [pt|[oi|] [ni|] key pt]; simpl; try done.
  - by destruct (p _ _ _ _ _) as [[[kids' r] next']|].
  - destruct pt as [[[v|]| |v| |]|]; try done;
      by destruct (createElement v (ksNext st)).
Qed.

Lemma patchKeyedEntries_removals p snap old new (olds : list VNode) (used : gset nat) :
  forall st, patchKeyedEntries p snap old new (removals olds used) st = Some st.
Proof.
  assert (Forall (fun e => exists i key, e = Keyed (Some i) None key (Some REMOVE))
                 (removals olds used)) as Hall.
  { apply Forall_forall. intros e (i & c & _ & _ & ->)%elem_of_removals. by eexists _, _. }
  induction Hall as [|e ps (i & key & ->) _ IH]; intros st; [done|]. simpl. apply IH.
Qed.

Lemma keyedInv_in cs0 olds done Ns kids pool next (N : Node) :
  keyedInv Q cs0 olds done Ns kids pool next -> N ∈ Ns -> N ∈ (kids ++ pool)%list.
Proof.
  intros (_ & _ & HNs & _) [a Ha]%list_elem_of_lookup_1.
  destruct (Forall2_lookup_l _ _ _ _ _ HNs Ha) as (c & Hc & _ & Hloc).
  apply elem_of_app. destruct (oldEntry olds c) as [[oc j]|]; [|by right].
  left. destruct Hloc as [Hloc _]. by apply list_elem_of_lookup_2 with j.
Qed.

Lemma keyedInv_apart cs0 olds done Ns kids pool next (N n : Node) (j : nat) :
  keyedInv Q cs0 olds done Ns kids pool next ->
  N ∈ Ns -> j ∉ omap (fun c => snd <$> oldEntry olds c) done -> kids !! j = Some n ->
  nodeId N <> nodeId n.
Proof.
  intros (_ & _ & HNs & _ & Hwf) [a Ha]%list_elem_of_lookup_1 Hj Hn.
  destruct (Forall2_lookup_l _ _ _ _ _ HNs Ha) as (c & Hc & _ & Hloc).
  destruct (NoDup_nodeId_app _ _ (proj1 Hwf)) as (Hndk & _ & Hapart).
  destruct (oldEntry olds c) as [[oc j']|] eqn:He.
  - destruct Hloc as [Hloc _]. intros Heq. apply Hj.
    assert (j' = j) as <- by by apply (NoDup_nodeId_lookup kids j' j N n).
    apply list_elem_of_omap. exists c.
    split; [by apply list_elem_of_lookup_2 with a|by rewrite He].
  - intros Heq. apply (Hapart n N); [by apply list_elem_of_lookup_2 with j|done|done].
Qed.

Lemma keyedInv_patched cs0 olds done Ns kids pool next c oc j n n' next' :
  keyedInv Q cs0 olds done Ns kids pool next ->
  oldEntry olds c = Some (oc, j) ->
  j ∉ omap (fun c => snd <$> oldEntry olds c) done ->
  cs0 !! j = Some n ->
  shows Q n' c -> next <= next' -> wfNode next' n' ->
  nodeId n' = nodeId n \/ next <= nodeId n' ->
  (type oc = type c -> nodeId n' = nodeId n) ->
  keyedInv Q cs0 olds (done ++ [c]) (Ns ++ [n']) (<[j := n']> kids) pool next'.
Proof.
  intros Hinv He Hj Hn Hshow Hle Hwfn Hid Hsame.
  pose proof Hinv as (Hlen & Hun & HNs & HndN & Hwf).
  assert (kids !! j = Some n) as Hkj by by rewrite Hun.
  pose proof (lookup_lt_Some _ _ _ Hkj) as Hjlen.
  split_and!.
  - by rewrite length_insert.
  - intros j' Hj'. rewrite omap_app in Hj'. simpl in Hj'. rewrite He in Hj'.
    simpl in Hj'. apply not_elem_of_app in Hj' as [Hj1 Hj2].
    apply not_elem_of_cons in Hj2 as [Hne _].
    rewrite list_lookup_insert_ne by done. by apply Hun.
  - apply Forall2_app.
    + apply Forall2_same_length_lookup. split; [by apply Forall2_length in HNs|].
      intros a N c0 Ha Hc0.
      destruct (Forall2_lookup_lr _ _ _ _ _ _ HNs Ha Hc0) as [Hs Hloc].
      split; [done|].
      destruct (oldEntry olds c0) as [[oc0 j0]|] eqn:He0; [|done].
      destruct Hloc as [Hloc Hk]. split; [|done].
      rewrite list_lookup_insert_ne; [done|]. intros <-. apply Hj.
      apply list_elem_of_omap. exists c0.
      split; [by apply list_elem_of_lookup_2 with a|by rewrite He0].
    + constructor; [|constructor]. split; [done|]. rewrite He.
      split; [by apply list_lookup_insert_eq|].
      intros Ht. rewrite Hn. simpl. by rewrite Hsame.
  - rewrite fmap_app. apply NoDup_app. split; [done|].
    split; [|apply NoDup_singleton].
    intros x Hx Hx'. apply list_elem_of_singleton in Hx' as ->.
    apply list_elem_of_fmap in Hx as (N & HN & HNin).
    destruct Hid as [Hid|Hid].
    + apply (keyedInv_apart _ _ _ _ _ _ _ N n j Hinv); try done. congruence.
    + assert (nodeId N < next); [|lia].
      apply (wfKids_lt next (kids ++ pool)); [done|].
      apply list_elem_of_fmap_2. by apply (keyedInv_in _ _ _ _ _ _ _ N Hinv).
  - rewrite <- insert_app_l by done.
    apply (wfKids_insert next next' _ j n); try done. by apply lookup_app_l_Some.
Qed.

Lemma keyedInv_created cs0 olds done Ns kids pool next c n next' :
  keyedInv Q cs0 olds done Ns kids pool next ->
  oldEntry olds c = None ->
  shows Q n c -> nodeId n = next -> next < next' -> wfNode next' n ->
  keyedInv Q cs0 olds (done ++ [c]) (Ns ++ [n]) kids (pool ++ [n]) next'.
Proof.
  intros Hinv He Hshow Hid Hlt Hwfn.
  pose proof Hinv as (Hlen & Hun & HNs & HndN & Hwf).
  split_and!.
  - done.
  - intros j' Hj'. rewrite omap_app in Hj'. simpl in Hj'. rewrite He in Hj'.
    simpl in Hj'. rewrite app_nil_r in Hj'. by apply Hun.
  - apply Forall2_app.
    + eapply Forall2_impl; [done|]. intros N c0 [Hs Hloc]. split; [done|].
      destruct (oldEntry olds c0) as [[oc0 j0]|]; [done|].
      apply elem_of_app. by left.
    + constructor; [|constructor]. split; [done|]. rewrite He.
      apply elem_of_app. right. by left.
  - rewrite fmap_app. apply NoDup_app. split; [done|].
    split; [|apply NoDup_singleton].
    intros x Hx Hx'. apply list_elem_of_singleton in Hx' as ->.
    apply list_elem_of_fmap in Hx as (N & HN & HNin).
    assert (nodeId N < next); [|lia].
    apply (wfKids_lt next (kids ++ pool)); [done|].
    apply list_elem_of_fmap_2. by apply (keyedInv_in _ _ _ _ _ _ _ N Hinv).
  - rewrite app_assoc. apply (wfKids_snoc next); [done|lia|done|lia].
Qed.

Lemma patchKeyedEntries_spec (fuel : nat) (old new : VNode) (cs0 : list Node) :
  Forall2 (shows Q) cs0 (children old) ->
  Forall (wellFormed D) (children new) ->
  NoDup (omap (fun c => snd <$> oldEntry (children old) c) (children new)) ->
  (forall c oc j, c ∈ children new -> oldEntry (children old) c = Some (oc, j) ->
                  patchSpec Q (patch fuel) oc c) ->
  forall rest done Ns kids pool next,
    children new = (done ++ rest)%list ->
    keyedInv Q cs0 (children old) done Ns kids pool next ->
    exists st Ns',
      patchKeyedEntries (patch fuel) (nodeId <$> cs0) old new
        (imap (fun i => keyedEntry (children old) (length done + i)) rest)
        (mkKeyedState kids pool ((fun N => Some (Some (nodeId N))) <$> Ns) next)
        = Some st
      /\ ksNew st = (fun N => Some (Some (nodeId N))) <$> Ns'
      /\ keyedInv Q cs0 (children old) (children new) Ns'
                  (ksKids st) (ksPool st) (ksNext st)
      /\ next <= ksNext st.
Proof.
  set (olds := children old). set (news := children new).
  intros Hcs0 Hnews Hmatched Hspec.
  induction rest as [|c rest IH]; intros done Ns kids pool next Hsplit Hinv.
  - rewrite app_nil_r in Hsplit. subst done.
    eexists _, Ns. simpl. split; [done|]. split; [done|]. split; [done|simpl; lia].
  - rewrite imap_cons, Nat.add_0_r.
    rewrite (imap_ext _ (fun i => keyedEntry olds (length (done ++ [c]) + i)) rest).
    2:{ intros i x _. simpl. f_equal. rewrite length_app. simpl. lia. }
    assert (news = ((done ++ [c]) ++ rest)%list) as Hsplit'
      by by rewrite <- app_assoc.
    assert (news !! length done = Some c) as Hc
      by (rewrite Hsplit; by apply list_lookup_middle).
    assert (c ∈ news) as Hcin by by apply list_elem_of_lookup_2 with (length done).
    pose proof Hinv as (Hlen & Hun & HNs & HndN & Hwf).
    pose proof (Forall2_length _ _ _ HNs) as HlenN.
    unfold keyedEntry at 1. destruct (oldEntry olds c) as [[oc j]|] eqn:He.
    + (* the key is known: the old child is patched *)
      assert (j ∉ omap (fun c => snd <$> oldEntry olds c) done) as Hj.
      { rewrite Hsplit, omap_app in Hmatched. simpl in Hmatched.
        rewrite He in Hmatched. simpl in Hmatched.
        apply NoDup_app in Hmatched as (_ & Hm & _).
        intros Hin. apply (Hm _ Hin). by left. }
      destruct (oldEntry_Some _ _ _ _ He) as [Hoc _].
      destruct (Forall2_lookup_r _ _ _ _ _ Hcs0 Hoc) as (n & Hn & Hshow).
      assert (kids !! j = Some n) as Hkj by by rewrite Hun.
      assert (wfKids next kids) as Hwfk.
      { destruct Hwf as [Hnd Hall]. split.
        - by apply NoDup_nodeId_app in Hnd as (? & _).
        - by apply Forall_app in Hall as [? _]. }
      destruct (Hspec c oc j Hcin He kids j n next Hwfk Hkj Hshow)
        as (n' & next' & Hrun & Hshow' & Hle & Hwfn & Hid & Hsame & _).
      cbn [patchKeyedEntries ksKids ksPool ksNew ksNext].
      fold olds news. rewrite list_lookup_fmap, Hn, Hoc, Hc. simpl. rewrite Hrun.
      rewrite arraySet_snoc by done.
      change ([Some (Some (nodeId n'))]) with ((fun N => Some (Some (nodeId N))) <$> [n']).
      rewrite <- fmap_app.
      destruct (IH (done ++ [c])%list (Ns ++ [n'])%list (<[j := n']> kids) pool next')
        as (st & Ns' & -> & Hnew & Hinv' & Hle'); [done| |].
      { by apply (keyedInv_patched _ _ _ _ _ _ next c oc j n). }
      exists st, Ns'. split; [done|]. split; [done|]. split; [done|lia].
    + (* an unknown key: the child is created and waits *)
      rewrite Forall_forall in Hnews.
      destruct (createElement_shows c (Hnews c Hcin) next)
        as (n & next' & Hcreate & Hshow & Hid & Hlt & Hwfn).
      cbn [patchKeyedEntries ksKids ksPool ksNew ksNext]. rewrite Hcreate.
      rewrite arraySet_snoc by done.
      change ([Some (Some (nodeId n))]) with ((fun N => Some (Some (nodeId N))) <$> [n]).
      rewrite <- fmap_app.
      destruct (IH (done ++ [c])%list (Ns ++ [n])%list kids (pool ++ [n])%list next')
        as (st & Ns' & -> & Hnew & Hinv' & Hle'); [done| |].
      { by apply (keyedInv_created _ _ _ _ _ _ next c n). }
      exists st, Ns'. split; [done|]. split; [done|]. split; [done|lia].
Qed.

(** ** [patchKeyedChildren] *)

Lemma patchKeyedChildren_spec (fuel : nat) (old new : VNode) (cs0 : list Node)
    (next : nat) :
  Forall2 (shows Q) cs0 (children old) ->
  wfKids next cs0 ->
  Forall (wellFormed D) (children new) ->
  NoDup (keyOf <$> children new) ->
  (forall c oc j, c ∈ children new -> oldEntry (children old) c = Some (oc, j) ->
                  patchSpec Q (patch fuel) oc c) ->
  exists cs' next',
    patchKeyedChildren (patch fuel) cs0
      (imap (keyedEntry (children old)) (children new)
       ++ removals (children old) (usedOldIndices (children old) (children new)))
      old new next = Some (cs', next')
    /\ Forall2 (shows Q) cs' (children new) /\ wfKids next' cs' /\ next <= next'
    /\ keepsKeyed cs0 cs' (children old) (children new).
Proof.
  set (olds := children old). set (news := children new).
  intros Hcs0 Hwf Hnews Hkeys Hspec.
  assert (NoDup (omap (fun c => snd <$> oldEntry olds c) news)) as Hmatched.
  { pose proof (NoDup_matched olds news Hkeys) as Hnd.
    enough (omap oldIndex (imap (keyedEntry olds) news)
            = omap (fun c => snd <$> oldEntry olds c) news) as <- by done.
    assert (forall (F : nat -> VNode -> ChildPatch) l,
              (forall i c, oldIndex (F i c) = snd <$> oldEntry olds c) ->
              omap oldIndex (imap F l) = omap (fun c => snd <$> oldEntry olds c) l)
      as Himap.
    { intros F l. revert F. induction l as [|c l IH]; intros F HF; simpl; [done|].
      specialize (IH (F ∘ S) (fun i c' => HF (S i) c')). unfold omap in IH.
      by rewrite HF, IH. }
    apply Himap, oldIndex_keyedEntry. }
  destruct (patchKeyedEntries_spec fuel old new cs0 Hcs0 Hnews Hmatched Hspec
              news [] [] cs0 [] next) as (st & Ns & Hrun & Hnew & Hinv & Hle).
  { done. }
  { split_and!; try done; try constructor; rewrite app_nil_r; apply Hwf. }
  simpl in Hrun.
  rewrite (imap_ext _ (keyedEntry olds) news) in Hrun by done.
  unfold patchKeyedChildren. fold olds news.
  rewrite patchKeyedEntries_app, Hrun. simpl.
  rewrite patchKeyedEntries_removals, Hnew.
  pose proof Hinv as (Hlen & Hun & HNs & HndN & Hwfst).
  destruct (reorder_spec Ns [] (ksKids st) (ksPool st))
    as (kids' & pool' & Hre & Htake & Hperm).
  { done. }
  { done. }
  { intros N HN. by apply (keyedInv_in _ _ _ _ _ _ _ N Hinv). }
  { apply Hwfst. }
  simpl in Hre, Htake. rewrite Hre, length_fmap, Htake.
  exists Ns, (ksNext st). split; [done|]. split.
  { eapply Forall2_impl; [done|]. by intros N c [? _]. }
  split.
  { split; [done|]. apply Forall_forall. intros N HN.
    destruct Hwfst as [_ Hall]. rewrite Forall_forall in Hall.
    by apply Hall, (keyedInv_in _ _ _ _ _ _ _ N Hinv). }
  split; [done|].
  intros k c oc j Hc He Ht.
  destruct (Forall2_lookup_r _ _ _ _ _ HNs Hc) as (N & HN & _ & Hloc).
  unfold olds, news in *. rewrite He in Hloc. destruct Hloc as [_ Hkept].
  rewrite HN. simpl. by apply Hkept.
Qed.

(** ** [patch] *)

Lemma shows_text_inv (n : Node) (v : VNode) :
  shows Q n v -> type v = "TEXT" -> exists i, n = TextNode i (text v).
Proof. intros [i v' _|i l cs v' Hty _ _] Ht; [by exists i|done]. Qed.

Lemma shows_elem_inv (n : Node) (v : VNode) :
  shows Q n v -> type v <> "TEXT" ->
  exists i l cs, n = ElementNode i l cs /\ Q l v /\ Forall2 (shows Q) cs (children v).
Proof. intros [i v' Ht|i l cs v' _ HQ Hcs] Hty; [done|by exists i, l, cs]. Qed.

Lemma height_child (c v : VNode) : c ∈ children v -> height c < height v.
Proof.
  destruct v as [ty ps cs tx]. simpl. intros Hc.
  enough (height c <= foldr (fun c m => height c `max` m) 0 cs) by lia.
  induction cs as [|c' cs IH]; [by apply elem_of_nil in Hc|].
  apply elem_of_cons in Hc as [->|Hc]; simpl; [lia|]. specialize (IH Hc). lia.
Qed.

Lemma wellFormed_child (v c : VNode) :
  wellFormed D v -> c ∈ children v -> wellFormed D c.
Proof.
  intros Hwf Hc. inversion Hwf as [? _ _ _ Hcs]; subst.
  rewrite Forall_forall in Hcs. by apply Hcs.
Qed.

Lemma patch_spec (new : VNode) :
  forall fuel old,
    height new < fuel -> wellFormed D old -> wellFormed D new ->
    patchSpec Q (patch fuel) old new.
Proof.
  induction new as [ty ps cs tx IH] using VNode_ind.
  set (new := mkVNode ty ps cs tx) in *.
  intros fuel old Hfuel Hwfo Hwfn kids j n next Hwfk Hj Hshow.
  assert (forall fuel' c o, height new <= fuel' -> c ∈ cs -> o ∈ children old ->
            patchSpec Q (patch fuel') o c) as Hrec.
  { intros fuel' c o Hf Hc Ho. rewrite Forall_forall in IH. apply IH; [done| | |].
    - pose proof (height_child c new Hc). lia.
    - by apply (wellFormed_child old).
    - by apply (wellFormed_child new). }
  clear IH.
  destruct fuel as [|fuel]; [lia|].
  rewrite patch_S. unfold patchBody. rewrite diff_unfold. unfold diffPresent.
  pose proof (findNode_lookup kids j n (proj1 Hwfk) Hj) as Hfind.
  pose proof (replaceNode_lookup kids j n) as Hrepl.
  assert (wfNode next n) as Hwfnode.
  { destruct Hwfk as [_ Hall]. rewrite Forall_forall in Hall.
    apply Hall. by apply list_elem_of_lookup_2 with j. }
  inversion Hwfn as [? HDn Htextn Hkeysn Hcsn]; subst.
  inversion Hwfo as [? HDo _ _ _]; subst.
  destruct (String.eqb_spec (type old) (type new)) as [Hty|Hty]; cbn [negb].
  2:{ (* another type: the node is replaced *)
    destruct (createElement_shows new Hwfn next)
      as (n' & next' & -> & Hshow' & Hid & Hlt & Hwf').
    rewrite Hfind, Hrepl by (done || apply Hwfk).
    exists n', next'. split_and!; try done; lia. }
  destruct (String.eqb_spec (type old) "TEXT") as [Htext|Htext].
  - (* two texts *)
    destruct (shows_text_inv n old Hshow Htext) as [i ->].
    assert (type new = "TEXT") as Htextn' by congruence.
    case_bool_decide as Hsame.
    + exists (TextNode i (text old)), next. rewrite list_insert_id by done.
      split_and!; try done; try lia; try by left.
      rewrite Hsame. by apply shows_text.
    + rewrite Hfind. cbn [setTextContent]. rewrite Hrepl by (done || apply Hwfk).
      assert (Some (default "" (text new)) = text new) as ->.
      { destruct (text new) eqn:Ht; [done|]. by destruct (Htextn Htextn'). }
      exists (TextNode i (text new)), next.
      split_and!; try done; try lia; try by left.
      constructor. apply (wfNode_lt next (TextNode i (text old)) Hwfnode).
  - (* two elements of one type *)
    assert (type new <> "TEXT") as Htextn' by congruence.
    destruct (shows_elem_inv n old Hshow Htext) as (i & l & cs0 & -> & HQ & Hcs0).
    inversion Hwfnode as [|? ? ? Hi Hnd0 Hall0]; subst.
    pose proof (Q_update l old new HDo HDn Hty HQ) as HQ'.
    destruct (bool_decide (0 < length (diffProps (props old) (props new)))
              || bool_decide (0 < length (patches (diffChildren (children old)
                                                                (children new)))))
      eqn:Hany.
    + (* UPDATE *)
      rewrite Hfind.
      unfold diffChildren. destruct (allKeyed (children new)) eqn:Hak; cbn [negb keyed patches].
      * (* keyed children *)
        destruct (patchKeyedChildren_spec fuel old new cs0 next Hcs0)
          as (cs' & next' & -> & Hshows & Hwfs & Hle & Hkept).
        { by split. }
        { done. }
        { by apply Hkeysn. }
        { intros c oc j' Hc He. apply Hrec; [simpl in *; lia|done|].
          apply oldEntry_Some in He as [He _]. by apply list_elem_of_lookup_2 with j'. }
        rewrite Hrepl by (done || apply Hwfk).
        exists (ElementNode i (Render.patchProps l (diffProps (props old) (props new))) cs'), next'.
        split; [done|].
        split_and!; try done; try lia; try by left.
        -- by apply shows_elem.
        -- destruct Hwfs. constructor; [lia|done|done].
      * (* children by position *)
        destruct fuel as [|fuel]; [simpl in Hfuel; lia|].
        rewrite length_map, length_seq.
        destruct (patchPositional_spec fuel old new cs0 Hcs0 Hcsn) with
          (k := max (length (children old)) (length (children new)))
          (i := 0) (A := @nil Node) (next := next)
          as (cs' & next' & Hrun & Hshows & Hwfs & Hle & Hkept).
        { intros a o c Ho Hc. apply Hrec; [simpl in *; lia| |].
          - by apply list_elem_of_lookup_2 with a.
          - by apply list_elem_of_lookup_2 with a. }
        { done. }
        { by split. }
        { constructor. }
        { by intros k c oc Hc. }
        change ([] ++ drop 0 cs0)%list with cs0 in Hrun. rewrite Hrun.
        rewrite Hrepl by (done || apply Hwfk).
        exists (ElementNode i (Render.patchProps l (diffProps (props old) (props new))) cs'), next'.
        split; [done|].
        split_and!; try done; try lia; try by left.
        -- by apply shows_elem.
        -- destruct Hwfs. constructor; [lia|done|done].
    + (* nothing to do *)
      apply orb_false_iff in Hany as [Hpp Hcp].
      apply bool_decide_eq_false in Hpp, Hcp.
      assert (diffProps (props old) (props new) = []) as Hpp'
        by (destruct (diffProps _ _); [done|simpl in Hpp; lia]).
      assert (patches (diffChildren (children old) (children new)) = []) as Hcp'
        by (destruct (patches _); [done|simpl in Hcp; lia]).
      apply diffChildren_nil_iff in Hcp' as [Hold Hnew].
      rewrite Hpp' in HQ'. cbn in HQ'.
      exists (ElementNode i l cs0), next. rewrite list_insert_id by done.
      split_and!; try done; try lia; try by left.
      * apply shows_elem; [done|done|]. rewrite Hnew. rewrite Hold in Hcs0.
        by inversion Hcs0.
      * intros _ _ k c oc j' Hc. by rewrite Hnew in Hc.
Qed.

End Generic.

(** ** Patching towards the same vnode *)

Lemma patchPositional_same p (Q : Live -> VNode -> Prop) (v : VNode)
    (cs0 : list Node) (next : nat) :
  Forall2 (shows Q) cs0 (children v) ->
  (forall i c n, children v !! i = Some c -> cs0 !! i = Some n ->
                 p cs0 (Some (nodeId n)) (Some c) (Some c) next
                 = Some (cs0, Some (nodeId n), next)) ->
  forall indices,
    Forall (fun i => i < length (children v)) indices ->
    patchPositional p (nodeId <$> cs0) v v indices cs0 next = Some (cs0, next).
Proof.
  intros Hcs0 Hsame. induction 1 as [|i indices Hi _ IH]; [done|].
  apply lookup_lt_is_Some in Hi as [c Hc].
  destruct (Forall2_lookup_r _ _ _ _ _ Hcs0 Hc) as (n & Hn & _).
  cbn [patchPositional]. rewrite list_lookup_fmap, Hn, Hc. simpl.
  by rewrite (Hsame i c n Hc Hn).
Qed.

Lemma patchKeyedEntries_same p (Q : Live -> VNode -> Prop) (v : VNode)
    (cs0 : list Node) (next : nat) :
  Forall2 (shows Q) cs0 (children v) ->
  allKeyed (children v) = true ->
  NoDup (keyOf <$> children v) ->
  (forall i c n, children v !! i = Some c -> cs0 !! i = Some n ->
                 p cs0 (Some (nodeId n)) (Some c) (Some c) next
                 = Some (cs0, Some (nodeId n), next)) ->
  forall rest pre,
    children v = (pre ++ rest)%list ->
    patchKeyedEntries p (nodeId <$> cs0) v v
      (imap (fun i => keyedEntry (children v) (length pre + i)) rest)
      (mkKeyedState cs0 [] ((fun N => Some (Some (nodeId N))) <$> take (length pre) cs0)
                    next)
    = Some (mkKeyedState cs0 [] ((fun N => Some (Some (nodeId N))) <$> cs0) next).
Proof.
  intros Hcs0 Hak Hnd Hsame.
  pose proof (Forall2_length _ _ _ Hcs0) as Hlen.
  induction rest as [|c rest IH]; intros pre Hsplit.
  - rewrite app_nil_r in Hsplit. rewrite take_ge by (rewrite Hsplit in Hlen; lia). done.
  - assert (children v !! length pre = Some c) as Hc
      by (rewrite Hsplit; by apply list_lookup_middle).
    destruct (Forall2_lookup_r _ _ _ _ _ Hcs0 Hc) as (n & Hn & _).
    rewrite imap_cons, Nat.add_0_r.
    rewrite (imap_ext _ (fun i => keyedEntry (children v) (length (pre ++ [c]) + i)) rest).
    2:{ intros i x _. simpl. f_equal. rewrite length_app. simpl. lia. }
    unfold keyedEntry at 1. rewrite (oldEntry_unique (children v) (length pre) c); [|
      |done|done].
    2:{ apply allKeyed_Forall in Hak. rewrite Forall_forall in Hak.
        by apply Hak, list_elem_of_lookup_2 with (length pre). }
    cbn [patchKeyedEntries ksKids ksPool ksNew ksNext].
    rewrite list_lookup_fmap, Hn, Hc. simpl. rewrite (Hsame _ c n Hc Hn).
    rewrite arraySet_snoc by (rewrite length_take; apply lookup_lt_Some in Hn; lia).
    change ([Some (Some (nodeId n))]) with ((fun N => Some (Some (nodeId N))) <$> [n]).
    rewrite <- fmap_app, <- (take_S_r _ _ _ Hn).
    replace (S (length pre)) with (length (pre ++ [c]))
      by (rewrite length_app; simpl; lia).
    apply IH. by rewrite <- app_assoc.
Qed.

Lemma reorder_same (pool rest : list Node) :
  forall pre,
    reorder ((fun N => Some (Some (nodeId N))) <$> rest) (length pre)
            (pre ++ rest)%list pool
    = Some ((pre ++ rest)%list, pool).
Proof.
  induction rest as [|N rest IH]; intros pre; [done|].
  rewrite fmap_cons. cbn [reorder].
  rewrite list_lookup_middle by done. simpl. rewrite bool_decide_eq_true_2 by done.
  specialize (IH (pre ++ [N])%list).
  rewrite length_app, <- app_assoc in IH. simpl in IH. by rewrite Nat.add_1_r in IH.
Qed.

(** Extra X19.  Rendering the same vnode again touches nothing.  [diff] of
    a vnode with itself is an UPDATE as soon as the vnode has children; all
    the same, when no prop is [NaN], [patch] from a vnode to itself on a
    node that shows it returns that node and leaves every node of the parent
    as it was, with its attributes and listeners, and creates none. *)
Theorem patch_unchanged (Q : Live -> VNode -> Prop) (v : VNode) :
  forall fuel kids j n next,
    height v < fuel -> wellFormed noNaN v ->
    wfKids next kids -> kids !! j = Some n -> shows Q n v ->
    patch fuel kids (Some (nodeId n)) (Some v) (Some v) next
    = Some (kids, Some (nodeId n), next).
Proof.
  induction v as [ty ps cs tx IH] using VNode_ind.
  set (v := mkVNode ty ps cs tx) in *.
  intros fuel kids j n next Hfuel Hwf Hwfk Hj Hshow.
  destruct fuel as [|fuel]; [lia|].
  rewrite patch_S. unfold patchBody. rewrite diff_unfold. unfold diffPresent.
  rewrite String.eqb_refl. cbn [negb].
  inversion Hwf as [? Hnan _ Hkeys Hcs]; subst.
  destruct (String.eqb_spec (type v) "TEXT") as [Htext|Htext].
  { by rewrite bool_decide_eq_true_2. }
  destruct (shows_elem_inv Q n v Hshow Htext) as (i & l & cs0 & -> & _ & Hcs0).
  rewrite (diffProps_self (props v) Hnan).
  destruct (bool_decide (0 < length (@nil PropPatch))
            || bool_decide (0 < length (patches (diffChildren (children v) (children v)))));
    [|done].
  rewrite (findNode_lookup kids j _ (proj1 Hwfk) Hj).
  assert (wfNode next (ElementNode i l cs0)) as Hnode.
  { destruct Hwfk as [_ Hall]. rewrite Forall_forall in Hall.
    apply Hall. by apply list_elem_of_lookup_2 with j. }
  inversion Hnode as [|? ? ? Hi Hnd0 Hall0]; subst.
  assert (forall a c m, children v !! a = Some c -> cs0 !! a = Some m ->
            patch fuel cs0 (Some (nodeId m)) (Some c) (Some c) next
            = Some (cs0, Some (nodeId m), next)) as Hsame.
  { intros a c m Hc Hm. rewrite Forall_forall in IH, Hcs.
    assert (c ∈ cs) as Hin by by apply list_elem_of_lookup_2 with a.
    apply (IH c Hin fuel cs0 a m next); [|by apply Hcs|by split|done|].
    - pose proof (height_child c v Hin). lia.
    - by apply (Forall2_lookup_lr _ _ _ _ _ _ Hcs0 Hm Hc). }
  assert ((if keyed (diffChildren (children v) (children v))
           then patchKeyedChildren (patch fuel) cs0
                  (patches (diffChildren (children v) (children v))) v v next
           else patchPositional (patch fuel) (nodeId <$> cs0) v v
                  (seq 0 (length (patches (diffChildren (children v) (children v)))))
                  cs0 next) = Some (cs0, next)) as ->.
  { unfold diffChildren. destruct (allKeyed (children v)) eqn:Hak; cbn [negb keyed patches].
    - unfold patchKeyedChildren. rewrite patchKeyedEntries_app.
      pose proof (patchKeyedEntries_same (patch fuel) Q v cs0 next Hcs0 Hak
                    (Hkeys eq_refl) Hsame (children v) [] eq_refl) as Hrun.
      simpl in Hrun.
      rewrite (imap_ext _ (keyedEntry cs) cs) in Hrun by done.
      change (children v) with cs. rewrite Hrun. simpl.
      rewrite patchKeyedEntries_removals. cbn [ksNew ksKids ksPool ksNext].
      pose proof (reorder_same [] cs0 []) as Hre. simpl in Hre. rewrite Hre.
      by rewrite length_fmap, firstn_all.
    - apply (patchPositional_same (patch fuel) Q v cs0 next Hcs0 Hsame).
      rewrite length_map, length_seq, Nat.max_id.
      apply Forall_forall. intros a Ha%elem_of_seq. lia. }
  pose proof (list_insert_id kids j _ Hj) as Hid.
  cbn [Render.patchProps foldl nodeId].
  change i with (nodeId (ElementNode i l cs0)) at 1.
  by rewrite (replaceNode_lookup kids j (ElementNode i l cs0)), Hid by (done || apply Hwfk).
Qed.

(** ** The two readings of [shows] *)

Lemma setProp_tagName (l : Live) (k : string) (v : value) :
  tagName (elem (Render.setProp l k v)) = tagName (elem l).
Proof. unfold Render.setProp, setHandler, onElem. by repeat case_match. Qed.

Lemma removeProp_tagName (l : Live) (k : string) :
  tagName (elem (removeProp l k)) = tagName (elem l).
Proof. unfold removeProp, onElem. by repeat case_match. Qed.

Lemma setProps_tagName (l : Live) (ps : object) :
  tagName (elem (Render.setProps l ps)) = tagName (elem l).
Proof.
  unfold Render.setProps. generalize (keys ps) as ks. intros ks. revert l.
  induction ks as [|k ks IH]; intros l; simpl; [done|].
  by rewrite IH, setProp_tagName.
Qed.

Lemma patchProps_tagName (l : Live) (pps : list PropPatch) :
  tagName (elem (Render.patchProps l pps)) = tagName (elem l).
Proof.
  unfold Render.patchProps. revert l.
  induction pps as [|[k v|k] pps IH]; intros l; simpl; [done| |]; rewrite IH.
  - apply setProp_tagName.
  - apply removeProp_tagName.
Qed.

Lemma sameTag_create (v : VNode) :
  True -> sameTag (Render.setProps (blank (type v)) (props v)) v.
Proof. intros _. unfold sameTag. by rewrite setProps_tagName. Qed.

Lemma setProp_listeners (l : Live) (k : string) (v : value) :
  RenderMore.safeProp (k, v) = true ->
  (forall key f, handlers l !! key = Some f -> RenderMore.listener f = true) ->
  forall key f, handlers (Render.setProp l k v) !! key = Some f ->
                RenderMore.listener f = true.
Proof.
  unfold RenderMore.safeProp, Render.setProp. cbn [fst snd].
  destruct (String.eqb k "key"); [done|]. cbn [orb].
  destruct (String.prefix "on" k).
  - intros Hv Hl key f. unfold setHandler. cbn [handlers].
    assert (forall key f,
              handlers (match handlers l !! k with
                        | Some old =>
                            if truthy old
                            then onElem (fun e => removeEventListener e (eventNameOf k) old) l
                            else l
                        | None => l
                        end) !! key = Some f -> RenderMore.listener f = true) as Hl1.
    { destruct (handlers l !! k) as [old|]; [destruct (truthy old)|]; apply Hl. }
    destruct (decide (key = k)) as [->|Hne].
    + rewrite lookup_insert_eq. by intros [= <-].
    + rewrite lookup_insert_ne by done. apply Hl1.
  - intros _ Hl. by repeat case_match.
Qed.

Lemma removeProp_listeners (l : Live) (k : string) :
  (forall key f, handlers l !! key = Some f -> RenderMore.listener f = true) ->
  forall key f, handlers (removeProp l k) !! key = Some f ->
                RenderMore.listener f = true.
Proof.
  intros Hl key f. unfold removeProp. repeat case_match; try apply Hl.
  cbn [handlers]. intros [_ Hf]%lookup_delete_Some. by apply (Hl key).
Qed.

Lemma setProps_listeners (ps : object) (l : Live) :
  forallb RenderMore.safeProp ps = true ->
  (forall key f, handlers l !! key = Some f -> RenderMore.listener f = true) ->
  forall key f, handlers (Render.setProps l ps) !! key = Some f ->
                RenderMore.listener f = true.
Proof.
  intros Hps. unfold Render.setProps.
  assert (forall k, k ∈ keys ps -> RenderMore.safeProp (k, get ps k) = true) as Hks
    by (intros k; by apply forallb_keys).
  revert Hks. generalize (keys ps) as ks. intros ks. revert l.
  induction ks as [|k ks IH]; intros l Hks Hl; simpl; [done|].
  apply IH.
  - intros k' Hk'. apply Hks. by right.
  - apply setProp_listeners; [|done]. apply Hks. by left.
Qed.

Lemma patchProps_listeners (pps : list PropPatch) (l : Live) :
  (forall k v, SET_PROP k v ∈ pps -> RenderMore.safeProp (k, v) = true) ->
  (forall key f, handlers l !! key = Some f -> RenderMore.listener f = true) ->
  forall key f, handlers (Render.patchProps l pps) !! key = Some f ->
                RenderMore.listener f = true.
Proof.
  unfold Render.patchProps. revert l.
  induction pps as [|[k v|k] pps IH]; intros l Hpps Hl; simpl; [done| |];
    (apply IH; [intros k' v' Hin; apply Hpps; by right|]).
  - apply setProp_listeners; [|done]. apply Hpps. by left.
  - by apply removeProp_listeners.
Qed.

Lemma diffProps_set (oldProps newProps : object) (k : string) (v : value) :
  SET_PROP k v ∈ diffProps oldProps newProps -> k ∈ keys newProps /\ v = get newProps k.
Proof.
  unfold diffProps. intros [Hin|Hin]%elem_of_app.
  - apply list_elem_of_omap in Hin as (k' & Hk' & Heq).
    destruct (strict_neq _ _); [|done]. by injection Heq as <- <-.
  - apply list_elem_of_omap in Hin as (k' & Hk' & Heq).
    by destruct (negb _).
Qed.

Lemma safe_props (v : VNode) : safe v -> forallb RenderMore.safeProp (props v) = true.
Proof. unfold safe, RenderMore.domSafe. by intros [_ ?]%andb_prop. Qed.

Lemma tidy_create (v : VNode) :
  safe v -> tidy (Render.setProps (blank (type v)) (props v)) v.
Proof.
  intros Hv%safe_props. split; [by rewrite setProps_tagName|].
  by apply setProps_listeners.
Qed.

Lemma tidy_update (l : Live) (old new : VNode) :
  safe old -> safe new -> type old = type new -> tidy l old ->
  tidy (Render.patchProps l (diffProps (props old) (props new))) new.
Proof.
  intros _ Hnew%safe_props Hty [Htag Hl].
  split; [rewrite patchProps_tagName; congruence|].
  apply patchProps_listeners; [|done].
  intros k v [Hk ->]%diffProps_set. by apply forallb_keys.
Qed.

Lemma plainProps_keys (v : VNode) (k : string) :
  plainProps v -> k ∈ keys (props v) -> RenderMore.attrKey k = true.
Proof.
  unfold plainProps, plainPropsb. intros [_ Hps]%andb_prop Hk.
  apply (forallb_keys _ _ _ Hps) in Hk. cbn [fst snd] in Hk.
  apply andb_prop in Hk as [[Hk _]%andb_prop _].
  by apply andb_prop in Hk as [? _].
Qed.

Lemma plainProps_defined (v : VNode) (k : string) :
  plainProps v -> own (props v) k <> Some VUndefined.
Proof.
  unfold plainProps, plainPropsb. intros [_ Hps]%andb_prop Hown.
  assert (k ∈ keys (props v)) as Hk by (apply own_keys; by eexists).
  apply (forallb_keys _ _ _ Hps) in Hk. cbn [fst snd] in Hk.
  apply andb_prop in Hk as [_ Hk]. rewrite (get_own _ _ _ Hown) in Hk.
  by rewrite bool_decide_eq_true_2 in Hk.
Qed.

Lemma asCreated_create (v : VNode) :
  plainProps v -> asCreated (Render.setProps (blank (type v)) (props v)) v.
Proof. done. Qed.

Lemma asCreated_update (l : Live) (old new : VNode) :
  plainProps old -> plainProps new -> type old = type new -> asCreated l old ->
  asCreated (Render.patchProps l (diffProps (props old) (props new))) new.
Proof.
  unfold asCreated. intros Hold Hnew Hty ->. rewrite Hty.
  apply patchProps_setProps.
  - intros k. by apply plainProps_keys.
  - intros k. by apply plainProps_keys.
  - intros k. by apply plainProps_defined.
Qed.

Lemma Render_createElement_unfold (v : VNode) :
  Render.createElement v =
  if String.eqb (type v) "TEXT" then Text (text v)
  else Elem (Render.setProps (blank (type v)) (props v))
            (map Render.createElement (children v)).
Proof. by destruct v. Qed.

Lemma erase_shows (v : VNode) :
  forall n, erase n = Render.createElement v -> shows asCreated n v.
Proof.
  induction v as [ty ps cs tx IH] using VNode_ind. intros n.
  rewrite Render_createElement_unfold. cbn [type props children text].
  destruct (String.eqb_spec ty "TEXT") as [->|Hty]; destruct n as [i d|i l ns]; simpl;
    try done.
  - intros [= ->]. by apply (shows_text asCreated i (mkVNode "TEXT" ps cs tx)).
  - intros [= -> Hcs]. apply shows_elem; [done|done|]. simpl.
    clear Hty. revert ns Hcs.
    induction IH as [|c cs Hc _ IHcs]; intros ns Hcs.
    + destruct ns; [constructor|done].
    + destruct ns as [|m ns]; [done|]. simpl in Hcs. injection Hcs as Hm Hns.
      constructor; [by apply Hc|by apply IHcs].
Qed.

Lemma shows_erase (v : VNode) :
  forall n, shows asCreated n v -> erase n = Render.createElement v.
Proof.
  induction v as [ty ps cs tx IH] using VNode_ind. intros n Hshow.
  rewrite Render_createElement_unfold. cbn [type props children text].
  destruct (String.eqb_spec ty "TEXT") as [->|Hty].
  - by destruct (shows_text_inv asCreated n _ Hshow) as [i ->].
  - destruct (shows_elem_inv asCreated n _ Hshow Hty) as (i & l & ns & -> & -> & Hns).
    simpl. f_equal. simpl in Hns. clear Hshow.
    induction Hns as [|m c ns cs Hm _ IHns]; simpl; [done|].
    apply Forall_cons in IH as [Hc IH]. f_equal; [by apply Hc|by apply IHns].
Qed.

(** ** The checks *)

Lemma wellFormedb_sound (D : VNode -> Prop) (Db : VNode -> bool) (v : VNode) :
  (forall v, Db v = true -> D v) -> wellFormedb Db v = true -> wellFormed D v.
Proof.
  intros HD. induction v as [ty ps cs tx IH] using VNode_ind.
  simpl. rewrite !andb_true_iff, !orb_true_iff.
  intros [[[Hd Ht] Hk] Hcs]. constructor; simpl.
  - by apply HD.
  - intros ->. by destruct Ht as [Ht|Ht%bool_decide_eq_true].
  - intros Hak. destruct Hk as [Hk|Hk%bool_decide_eq_true]; [|done].
    by rewrite Hak in Hk.
  - rewrite forallb_forall in Hcs. rewrite Forall_forall in IH |- *.
    intros c Hc. apply IH; [done|]. by apply Hcs, list_elem_of_In.
Qed.

Lemma noNaNb_sound (v : VNode) : noNaNb v = true -> noNaN v.
Proof.
  unfold noNaNb, noNaN. rewrite forallb_forall. intros Hall k Hown.
  assert ((k, VNaN) ∈ props v) as Hin.
  { clear Hall. induction (props v) as [|[k' x] o IH]; [done|]. simpl in Hown.
    destruct (String.eqb_spec k' k) as [->|_].
    - injection Hown as ->. by left.
    - right. by apply IH. }
  apply list_elem_of_In, Hall in Hin. cbn [snd] in Hin.
  by rewrite bool_decide_eq_true_2 in Hin.
Qed.

(** ** What [createElement] builds first *)

Lemma nodeOf_shows (Q : Live -> VNode -> Prop) (D : VNode -> Prop) (v : VNode) :
  (forall v, D v -> Q (Render.setProps (blank (type v)) (props v)) v) ->
  wellFormed D v ->
  shows Q (Sample.nodeOf v) v /\ wfKids (Sample.nextOf v) [Sample.nodeOf v].
Proof.
  intros HQ Hwf. unfold Sample.nodeOf, Sample.nextOf.
  destruct (createElement_shows Q D HQ v Hwf 0) as (n & next' & -> & Hshow & Hid & _ & Hn).
  simpl. split; [done|]. split; [apply NoDup_singleton|by constructor].
Qed.

(** ** [patch], for a node that shows the old vnode *)

(** Extra X1.  Patching rebuilds the structure.  The parent holds distinct
    nodes with identities below [next]; its child [j] has the kinds, tags,
    texts and children of [old], and its handler tables hold listeners only;
    both vnodes have a text in every text vnode, distinct keys in every
    keyed list, plain tags and props that the DOM takes without throwing.
    Then [patch], with a call stack deeper than [new], returns, and the
    child [j] afterwards, the node that [patch] returns, has the kinds, tags,
    texts and children of [new], and listeners only in its handler tables;
    the other children are untouched. *)
Theorem patch_shows (fuel : nat) (kids : list Node) (j : nat) (n : Node)
    (old new : VNode) (next : nat) :
  height new < fuel ->
  wellFormed safe old -> wellFormed safe new ->
  wfKids next kids -> kids !! j = Some n -> shows tidy n old ->
  exists n' next',
    patch fuel kids (Some (nodeId n)) (Some old) (Some new) next
      = Some (<[j := n']> kids, Some (nodeId n'), next')
    /\ shows tidy n' new /\ wfKids next' (<[j := n']> kids).
Proof.
  intros Hfuel Hold Hnew Hwf Hj Hshow.
  destruct (patch_spec tidy safe tidy_create tidy_update
              new fuel old Hfuel Hold Hnew kids j n next Hwf Hj Hshow)
    as (n' & next' & Hrun & Hshow' & Hle & Hwfn & Hid & _).
  exists n', next'. split; [done|]. split; [done|].
  by apply (wfKids_insert next next' kids j n).
Qed.

Lemma patch_shows_witness :
  exists n' next',
    patch 5 [Sample.nodeOf Sample.formOld] (Some (nodeId (Sample.nodeOf Sample.formOld)))
          (Some Sample.formOld) (Some Sample.formNew) (Sample.nextOf Sample.formOld)
      = Some (<[0 := n']> [Sample.nodeOf Sample.formOld], Some (nodeId n'), next')
    /\ shows tidy n' Sample.formNew
    /\ wfKids next' (<[0 := n']> [Sample.nodeOf Sample.formOld]).
Proof.
  assert (wellFormed safe Sample.formOld) as Hold
    by (by apply (wellFormedb_sound _ RenderMore.domSafe); [|vm_compute]).
  apply (patch_shows 5 [Sample.nodeOf Sample.formOld] 0 (Sample.nodeOf Sample.formOld)
           Sample.formOld Sample.formNew (Sample.nextOf Sample.formOld)).
  - vm_compute. lia.
  - exact Hold.
  - by apply (wellFormedb_sound _ RenderMore.domSafe); [|vm_compute].
  - by apply (nodeOf_shows tidy safe _ tidy_create).
  - reflexivity.
  - by apply (nodeOf_shows tidy safe _ tidy_create).
Defined.

(** Extra X2.  Patching is as good as rendering anew.  All over both vnodes
    the tags are plain and the props are plain attributes (lower case, no
    [on...] handler, no [style], [value], [class] or [className], no name
    that [Object.prototype] knows) with a printable value that is not
    [undefined]; the child [j] of the parent is, identities apart, the tree
    that [createElement(old)] builds.  Then after [patch] it is the tree
    that [createElement(new)] builds. *)
Theorem patch_as_created (fuel : nat) (kids : list Node) (j : nat) (n : Node)
    (old new : VNode) (next : nat) :
  height new < fuel ->
  wellFormed plainProps old -> wellFormed plainProps new ->
  wfKids next kids -> kids !! j = Some n ->
  erase n = Render.createElement old ->
  exists n' next',
    patch fuel kids (Some (nodeId n)) (Some old) (Some new) next
      = Some (<[j := n']> kids, Some (nodeId n'), next')
    /\ erase n' = Render.createElement new.
Proof.
  intros Hfuel Hold Hnew Hwf Hj Hshow%erase_shows.
  destruct (patch_spec asCreated plainProps asCreated_create asCreated_update
              new fuel old Hfuel Hold Hnew kids j n next Hwf Hj Hshow)
    as (n' & next' & Hrun & Hshow' & _).
  exists n', next'. split; [done|]. by apply shows_erase.
Qed.

Lemma patch_as_created_witness :
  exists n' next',
    patch 5 [Sample.nodeOf Sample.pageOld] (Some (nodeId (Sample.nodeOf Sample.pageOld)))
          (Some Sample.pageOld) (Some Sample.pageNew) (Sample.nextOf Sample.pageOld)
      = Some (<[0 := n']> [Sample.nodeOf Sample.pageOld], Some (nodeId n'), next')
    /\ erase n' = Render.createElement Sample.pageNew.
Proof.
  assert (wellFormed plainProps Sample.pageOld) as Hold
    by (by apply (wellFormedb_sound _ plainPropsb); [|vm_compute]).
  apply (patch_as_created 5 [Sample.nodeOf Sample.pageOld] 0 (Sample.nodeOf Sample.pageOld)
           Sample.pageOld Sample.pageNew (Sample.nextOf Sample.pageOld)).
  - vm_compute. lia.
  - exact Hold.
  - by apply (wellFormedb_sound _ plainPropsb); [|vm_compute].
  - by apply (nodeOf_shows asCreated plainProps _ asCreated_create).
  - reflexivity.
  - apply erase_createElement.
Defined.

(** Extra X3.  Patching keeps the nodes.  Under the conditions of
    [patch_shows], the node that shows [new] is the node that showed [old]
    when the two have one type, and a node that did not exist before when
    they have not.  In a keyed list of children, the new child whose key an
    old child of the same type carries is shown by the node of that old
    child, wherever the two stand in their lists; in a list patched by
    position, the new child that stands where an old child of the same type
    stood is shown by the node of that old child. *)
Theorem patch_keeps_nodes (fuel : nat) (kids : list Node) (j : nat) (n : Node)
    (old new : VNode) (next : nat) :
  height new < fuel ->
  wellFormed safe old -> wellFormed safe new ->
  wfKids next kids -> kids !! j = Some n -> shows tidy n old ->
  exists n' next',
    patch fuel kids (Some (nodeId n)) (Some old) (Some new) next
      = Some (<[j := n']> kids, Some (nodeId n'), next')
    /\ (type old = type new -> nodeId n' = nodeId n)
    /\ (type old <> type new -> next <= nodeId n')
    /\ (type old = type new -> allKeyed (children new) = true ->
        keepsKeyed (childNodesOf n) (childNodesOf n') (children old) (children new))
    /\ (type old = type new -> allKeyed (children new) = false ->
        keepsPositional (childNodesOf n) (childNodesOf n')
                        (children old) (children new)).
Proof.
  intros Hfuel Hold Hnew Hwf Hj Hshow.
  destruct (patch_spec tidy safe tidy_create tidy_update
              new fuel old Hfuel Hold Hnew kids j n next Hwf Hj Hshow)
    as (n' & next' & Hrun & _ & _ & _ & _ & Hsame & Hfresh & Hkeyed & Hpos).
  by exists n', next'.
Qed.

Lemma patch_keeps_nodes_witness :
  exists n' next',
    patch 5 [Sample.nodeOf Sample.listOld] (Some (nodeId (Sample.nodeOf Sample.listOld)))
          (Some Sample.listOld) (Some Sample.listNew) (Sample.nextOf Sample.listOld)
      = Some (<[0 := n']> [Sample.nodeOf Sample.listOld], Some (nodeId n'), next')
    /\ (type Sample.listOld = type Sample.listNew ->
        nodeId n' = nodeId (Sample.nodeOf Sample.listOld))
    /\ (type Sample.listOld <> type Sample.listNew ->
        Sample.nextOf Sample.listOld <= nodeId n')
    /\ (type Sample.listOld = type Sample.listNew ->
        allKeyed (children Sample.listNew) = true ->
        keepsKeyed (childNodesOf (Sample.nodeOf Sample.listOld)) (childNodesOf n')
                   (children Sample.listOld) (children Sample.listNew))
    /\ (type Sample.listOld = type Sample.listNew ->
        allKeyed (children Sample.listNew) = false ->
        keepsPositional (childNodesOf (Sample.nodeOf Sample.listOld)) (childNodesOf n')
                        (children Sample.listOld) (children Sample.listNew)).
Proof.
  assert (wellFormed safe Sample.listOld) as Hold
    by (by apply (wellFormedb_sound _ RenderMore.domSafe); [|vm_compute]).
  apply (patch_keeps_nodes 5 [Sample.nodeOf Sample.listOld] 0 (Sample.nodeOf Sample.listOld)
           Sample.listOld Sample.listNew (Sample.nextOf Sample.listOld)).
  - vm_compute. lia.
  - exact Hold.
  - by apply (wellFormedb_sound _ RenderMore.domSafe); [|vm_compute].
  - by apply (nodeOf_shows tidy safe _ tidy_create).
  - reflexivity.
  - by apply (nodeOf_shows tidy safe _ tidy_create).
Defined.

Lemma patch_unchanged_witness :
  diff (Some Sample.formNew) (Some Sample.formNew) <> None
  /\ patch 5 [Sample.nodeOf Sample.formNew] (Some (nodeId (Sample.nodeOf Sample.formNew)))
           (Some Sample.formNew) (Some Sample.formNew) (Sample.nextOf Sample.formNew)
     = Some ([Sample.nodeOf Sample.formNew], Some (nodeId (Sample.nodeOf Sample.formNew)),
             Sample.nextOf Sample.formNew).
Proof.
  split; [by vm_compute|].
  assert (wellFormed (fun _ => True) Sample.formNew) as Hwf
    by (by apply (wellFormedb_sound _ (fun _ => true)); [|vm_compute]).
  apply (patch_unchanged sameTag Sample.formNew 5 [Sample.nodeOf Sample.formNew] 0
           (Sample.nodeOf Sample.formNew) (Sample.nextOf Sample.formNew)).
  - vm_compute. lia.
  - apply (wellFormedb_sound _ noNaNb); [apply noNaNb_sound|by vm_compute].
  - by apply (nodeOf_shows sameTag (fun _ => True) _ sameTag_create).
  - reflexivity.
  - by apply (nodeOf_shows sameTag (fun _ => True) _ sameTag_create).
Defined.

End PatchFacts.

(** * [mount]: the runs of [update] *)

Section ComponentFacts.
Import Vdom Dom Patcher Component.

Lemma update_first (fuel : nat) (v : VNode) (kids : list Node) (next : nat) :
  wfKids next kids -> wellFormed safe v ->
  exists m,
    update fuel v (mounted0 kids next) = Some m
    /\ mountedAt tidy (length kids) v m
    /\ take (length kids) (container m) = kids
    /\ length (container m) = S (length kids).
Proof.
  intros Hwf Hv. unfold update, mounted0. simpl.
  destruct (createElement_shows tidy safe tidy_create v Hv next)
    as (n & next' & -> & Hshow & Hid & Hlt & Hn).
  eexists. split; [done|]. simpl. split_and!.
  - split; [done|]. simpl. split.
    + apply (wfKids_snoc next); [done|lia|done|lia].
    + exists n. split; [by apply list_lookup_middle|done].
  - by rewrite take_app_length.
  - rewrite length_app. simpl. lia.
Qed.

Lemma update_mounted (fuel : nat) (j : nat) (v v' : VNode) (m : Mounted) :
  mountedAt tidy j v m ->
  wellFormed safe v -> wellFormed safe v' -> height v' < fuel ->
  exists m',
    update fuel v' m = Some m'
    /\ mountedAt tidy j v' m'
    /\ take j (container m') = take j (container m)
    /\ length (container m') = length (container m).
Proof.
  intros (Hv & Hwf & n & Hj & Hdom & Hshow) Hwfv Hwfv' Hfuel.
  unfold update. rewrite Hv, Hdom.
  destruct (patch_spec tidy safe tidy_create tidy_update
              v' fuel v Hfuel Hwfv Hwfv' (container m) j n (nextId m) Hwf Hj Hshow)
    as (n' & next' & -> & Hshow' & Hle & Hwfn & Hid & _).
  eexists. split; [done|]. simpl. split_and!.
  - split; [done|]. simpl. split.
    + by apply (wfKids_insert (nextId m) next' _ j n).
    + exists n'. split; [|done].
      apply list_lookup_insert_eq. by apply lookup_lt_Some in Hj.
  - by rewrite take_insert_ge.
  - by rewrite length_insert.
Qed.

Lemma updates_mounted_from (fuel : nat) (j : nat) (vs : list VNode) :
  forall v m,
    mountedAt tidy j v m ->
    Forall (wellFormed safe) (v :: vs) ->
    Forall (fun v => height v < fuel) vs ->
    exists m',
      updates fuel vs m = Some m'
      /\ mountedAt tidy j (default v (last vs)) m'
      /\ take j (container m') = take j (container m)
      /\ length (container m') = length (container m).
Proof.
  induction vs as [|v' vs IH]; intros v m Hm Hwf Hfuel.
  - by exists m.
  - apply Forall_cons in Hwf as [Hv Hwf]. apply Forall_cons in Hfuel as [Hf Hfuel].
    pose proof Hwf as [Hv' _]%Forall_cons.
    destruct (update_mounted fuel j v v' m Hm Hv Hv' Hf) as (m1 & Hrun & Hm1 & Ht & Hl).
    destruct (IH v' m1 Hm1 Hwf Hfuel) as (m2 & Hrun2 & Hm2 & Ht2 & Hl2).
    exists m2. simpl. rewrite Hrun. split; [done|].
    split; [|split; congruence].
    replace (default v (last (v' :: vs))) with (default v' (last vs)); [done|].
    rewrite last_cons. by destruct (last vs).
Qed.

(** Extra X4.  [mount] keeps the page in step with the component.  On a
    container with distinct nodes, after the first run of [update] and any
    number of further runs, for vnodes with a text in every text vnode,
    distinct keys in every keyed list, plain tags and props that the DOM
    takes without throwing, every run returns; the container then holds its
    former children and, after them, one more node, the one that [update]
    remembers, which has the kinds, tags, texts and children of the vnode
    rendered last. *)
Theorem updates_mounted (fuel : nat) (v0 : VNode) (vs : list VNode)
    (kids : list Node) (next : nat) :
  wfKids next kids ->
  Forall (wellFormed safe) (v0 :: vs) ->
  Forall (fun v => height v < fuel) vs ->
  exists m,
    updates fuel (v0 :: vs) (mounted0 kids next) = Some m
    /\ mountedAt tidy (length kids) (default v0 (last vs)) m
    /\ take (length kids) (container m) = kids
    /\ length (container m) = S (length kids).
Proof.
  intros Hwf Hvs Hfuel. pose proof Hvs as [Hv0 _]%Forall_cons.
  destruct (update_first fuel v0 kids next Hwf Hv0) as (m1 & Hrun & Hm1 & Ht & Hl).
  destruct (updates_mounted_from fuel (length kids) vs v0 m1 Hm1 Hvs Hfuel)
    as (m2 & Hrun2 & Hm2 & Ht2 & Hl2).
  exists m2. cbn [updates]. rewrite Hrun. split; [done|]. split; [done|].
  split; congruence.
Qed.

Lemma updates_mounted_witness :
  exists m,
    updates 5 (Sample.listOld :: [Sample.listNew; Sample.formNew]) (mounted0 [] 0) = Some m
    /\ mountedAt tidy (length (@nil Node))
         (default Sample.listOld (last [Sample.listNew; Sample.formNew])) m
    /\ take (length (@nil Node)) (container m) = []
    /\ length (container m) = S (length (@nil Node)).
Proof.
  apply (updates_mounted 5 Sample.listOld [Sample.listNew; Sample.formNew] [] 0).
  - apply wfKids_nil.
  - repeat (apply Forall_cons; split;
            [by apply (wellFormedb_sound _ RenderMore.domSafe); [|vm_compute]|]).
    constructor.
  - repeat (apply Forall_cons; split; [vm_compute; lia|]). constructor.
Defined.

End ComponentFacts.
